(** * PGURE-SVT: block matching, singular value thresholding and the driver

    A shallow embedding of the numerical core of PGURE-SVT: the adaptive
    rood pattern search of [MotionEstimator] (arps.hpp), the class template
    [SVT] and the set-up, per-window and output code of [main]
    (PGURE-SVT-bin.cpp).

    Conventions.
    - C++ [int], [uint32_t] and [size_t] values are integers in [Z]; where
      the source mixes signed and unsigned 32-bit values, or computes with
      [int]s read from the parameter file, the wrap-around is written with
      [u32] and [i32].
    - Armadillo element access through [operator()] is bounds checked (the
      library's default build); a failed check aborts the computation,
      which the model records as [OutOfBounds].
    - Block-matching costs and the driver's doubles are rationals ([Q]):
      only their order and exact quotients matter there.  Pixel samples and
      singular values of the SVT engine are real numbers ([R]).  Rounding
      is not modelled.

    The first part holds the model and the notions the statements use, the
    second part the proofs. *)

From Stdlib Require Import ZArith QArith Qminmax Qround Reals Psatz List String Ascii Bool.
From stdpp Require Import gmap strings list.

#[local] Open Scope Z_scope.

(** * Part I: the model *)

(** ** Machine integers *)

Definition u32 (z : Z) : Z := z mod 2 ^ 32.
Definition i32 (z : Z) : Z := (z + 2 ^ 31) mod 2 ^ 32 - 2 ^ 31.

(** ** Computations that may abort *)

Inductive outcome (A : Type) : Type :=
| Done (a : A)
| OutOfBounds
| OutOfFuel.
Arguments Done {A} a.
Arguments OutOfBounds {A}.
Arguments OutOfFuel {A}.

#[global] Instance outcome_ret : MRet outcome := fun A a => Done a.
#[global] Instance outcome_bind : MBind outcome := fun A B f m =>
  match m with
  | Done a => f a
  | OutOfBounds => OutOfBounds
  | OutOfFuel => OutOfFuel
  end.

Definition checked {A : Type} (o : option A) : outcome A :=
  match o with
  | Some a => Done a
  | None => OutOfBounds
  end.

(** [for (k = 0; k < n; k++) body(k)] over the rows of a table. *)
Fixpoint for_rows {S E : Type} (body : nat -> E -> S -> outcome S)
    (k : nat) (rows : list E) (s : S) : outcome S :=
  match rows with
  | [] => Done s
  | e :: rest => s' ← body k e s; for_rows body (Datatypes.S k) rest s'
  end.

(** ** Armadillo containers *)

(** [arma::umat]: column-major storage, checked element access. *)
Record umat : Type := Umat { n_rows : Z; n_cols : Z; mem : list Z }.

Definition umat_zeros (r c : Z) : umat :=
  Umat r c (replicate (Z.to_nat (r * c)) 0).

Definition in_bounds (M : umat) (r c : Z) : bool :=
  (0 <=? r) && (r <? n_rows M) && (0 <=? c) && (c <? n_cols M).

Definition umat_at (M : umat) (r c : Z) : outcome Z :=
  if in_bounds M r c then checked (mem M !! Z.to_nat (r + c * n_rows M))
  else OutOfBounds.

Definition umat_set (M : umat) (r c v : Z) : outcome umat :=
  if in_bounds M r c
  then Done (Umat (n_rows M) (n_cols M) (<[Z.to_nat (r + c * n_rows M) := v]> (mem M)))
  else OutOfBounds.

(** Number of cells of a visited map that are not marked. *)
Fixpoint unseen (l : list Z) : nat :=
  match l with
  | [] => O
  | v :: t => if v =? 1 then unseen t else S (unseen t)
  end.

(** A square matrix of the given side. *)
Definition shaped (side : Z) (M : umat) : Prop :=
  n_rows M = side /\ n_cols M = side /\ length (mem M) = Z.to_nat (side * side).

(** [arma::vec] of costs. *)
Definition vec_fill (n : nat) (v : Q) : list Q := replicate n v.

(** [costs.min()] *)
Definition vec_min (l : list Q) : Q :=
  match l with
  | [] => 0%Q
  | x :: t => fold_left Qmin t x
  end.

Fixpoint find_first (p : Q -> bool) (l : list Q) : option nat :=
  match l with
  | [] => None
  | x :: t => if p x then Some O else S <$> find_first p t
  end.

(** [point = arma::find(costs == costs.min()); point(0)] *)
Definition argmin (l : list Q) : option nat :=
  find_first (Qeq_bool (vec_min l)) l.

(** An [arma::cube] of samples and an [arma::icube] of coordinates, indexed
    (row, column, slice). *)
Definition cube : Type := Z -> Z -> Z -> Q.
Definition icube : Type := Z -> Z -> Z -> Z.

Definition icube_set (c : icube) (a b k v : Z) : icube :=
  fun a' b' k' => if (a' =? a) && (b' =? b) && (k' =? k) then v else c a' b' k'.

(** ** The block matcher ([MotionEstimator], arps.hpp) *)

Module ARPS.

(** [costsScale]: the value every cost is reset to. *)
Definition costsScale : Q := 100000000 # 1.

(** The small diamond; a row is ([SDSP(k,0)], [SDSP(k,1)]): the horizontal
    and the vertical offset. *)
Definition SDSP : list (Z * Z) := [(0, -1); (-1, 0); (0, 0); (1, 0); (0, 1)].

(** The large diamond after the step size is known.  Row 5 holds the
    previous motion vector when [maxIdx = 6] and stays zero otherwise. *)
Definition LDSP (stepSize : Z) (row5 : Z * Z) : list (Z * Z) :=
  [(0, - stepSize); (- stepSize, 0); (0, 0); (stepSize, 0); (0, stepSize); row5].

(** [sum_{c < Bs} sum_{r < Bs} (ref(r,c) - pow(r,c))^2 / Bs^2]:
    [norm * norm * OoBlockSizeSq], the Frobenius norm squared exactly. *)
Definition block_cost (A : cube) (blockSize : Z) (i j f1 ver hor f2 : Z) : Q :=
  let offs := seqZ 0 blockSize in
  let diff (r c : Z) : Q := Qminus (A (i + r) (j + c) f1) (A (ver + r) (hor + c) f2) in
  let squares : list Q := c ← offs; r ← offs; [Qmult (diff r c) (diff r c)] in
  Qmult (foldr Qplus 0%Q squares) (Qdiv 1 (inject_Z (blockSize * blockSize))).

Section Search.
(** Frame size, block size and search half-width of the estimator. *)
Variables (Nx Ny blockSize motionWindow : Z).
(** [cost ver hor]: cost of the candidate block whose corner is at row
    [ver], column [hor] of the target frame, against the reference block. *)
Variable cost : Z -> Z -> Q.
(** Grid position of the patch: [i = it % (1 + nxMbs)], [j = it / (1 + nyMbs)]. *)
Variables (i j : Z).

(** [refBlkHor < 0 || refBlkHor + blockSize - 1 >= Ny ||
     refBlkVer < 0 || refBlkVer + blockSize - 1 >= Nx]; the sums are
    compared with the unsigned frame sizes. *)
Definition out_of_frame (refBlkVer refBlkHor : Z) : bool :=
  (refBlkHor <? 0) || (Ny <=? u32 (refBlkHor + blockSize - 1)) ||
  (refBlkVer <? 0) || (Nx <=? u32 (refBlkVer + blockSize - 1)).

(** [refBlkHor < (int)(j - motionWindow) || refBlkHor > (int)(j + motionWindow) ||
     refBlkVer < (int)(i - motionWindow) || refBlkVer > (int)(i + motionWindow)] *)
Definition out_of_box (refBlkVer refBlkHor : Z) : bool :=
  (refBlkHor <? i32 (j - motionWindow)) || (i32 (j + motionWindow) <? refBlkHor) ||
  (refBlkVer <? i32 (i - motionWindow)) || (i32 (i + motionWindow) <? refBlkVer).

(** Step size, number of large-diamond candidates and row 5 of the
    pattern, from the patch's previous motion
    ([my = motions(0,it,iARPS3)], [mx = motions(1,it,iARPS3)]). *)
Definition step_size (my mx : Z) : Z * nat * (Z * Z) :=
  if j =? 0 then (2, 5%nat, (0, 0))
  else
    let yTmp := Z.abs my in
    let xTmp := Z.abs mx in
    let stepSize := if xTmp <=? yTmp then yTmp else xTmp in
    if ((xTmp =? stepSize) && (yTmp =? 0)) || ((xTmp =? 0) && (yTmp =? stepSize))
    then (stepSize, 5%nat, (0, 0))
    else (stepSize, 6%nat, (mx, my)).

(** Body of the large-diamond loop for candidate [k]. *)
Definition eval_LDSP (stepSize x y : Z) (k : nat) (off : Z * Z)
    (st : list Q * umat) : outcome (list Q * umat) :=
  let '(costs, checkMat) := st in
  let refBlkVer := y + off.2 in
  let refBlkHor := x + off.1 in
  if out_of_frame refBlkVer refBlkHor then Done st
  else if (k =? 2)%nat || (stepSize =? 0) then Done st
  else
    let costs' := <[k := cost refBlkVer refBlkHor]> costs in
    checkMat' ← umat_set checkMat (off.2 + motionWindow) (off.1 + motionWindow) 1;
    Done (costs', checkMat').

(** Body of the small-diamond loop for candidate [k]. *)
Definition eval_SDSP (x y : Z) (k : nat) (off : Z * Z)
    (st : list Q * umat) : outcome (list Q * umat) :=
  let '(costs, checkMat) := st in
  let refBlkVer := y + off.2 in
  let refBlkHor := x + off.1 in
  if out_of_frame refBlkVer refBlkHor then Done st
  else if (k =? 2)%nat then Done st
  else if out_of_box refBlkVer refBlkHor then Done st
  else
    seen ← umat_at checkMat (y - i + off.2 + motionWindow) (x - j + off.1 + motionWindow);
    if seen =? 1 then Done st
    else
      let costs' := <[k := cost refBlkVer refBlkHor]> costs in
      checkMat' ← umat_set checkMat (y - i + off.2 + motionWindow)
                                     (x - j + off.1 + motionWindow) 1;
      Done (costs', checkMat').

(** State carried between the two stages and round the small-diamond
    loop: position, the cost kept in [costs(2)], and the visited map. *)
Record search : Type := Search { sx : Z; sy : Z; scost : Q; schecked : umat }.

(** [costs.fill(costsScale); costs(2) = cost] *)
Definition reset_costs (c : Q) : list Q := <[2%nat := c]> (vec_fill 6 costsScale).

(** Everything up to [// Do the SDSP]. *)
Definition LDSP_stage (my mx : Z) : outcome search :=
  let costs := reset_costs (cost i j) in
  let side := u32 (2 * motionWindow + 1) in
  checkMat ← umat_set (umat_zeros side side) motionWindow motionWindow 1;
  let '(stepSize, maxIdx, row5) := step_size my mx in
  let rows := LDSP stepSize row5 in
  '(costs, checkMat) ← for_rows (eval_LDSP stepSize j i) 0 (take maxIdx rows) (costs, checkMat);
  point ← checked (argmin costs);
  off ← checked (rows !! point);
  Done (Search (j + off.1) (i + off.2) (vec_min costs) checkMat).

(** The [do { ... } while (!doneFlag)] loop; [fuel] bounds its passes. *)
Fixpoint SDSP_loop (fuel : nat) (s : search) : outcome (Z * Z) :=
  match fuel with
  | O => OutOfFuel
  | S fuel' =>
      '(costs, checkMat) ←
        for_rows (eval_SDSP (sx s) (sy s)) 0 SDSP (reset_costs (scost s), schecked s);
      point ← checked (argmin costs);
      if (point =? 2)%nat then Done (sy s, sx s)
      else
        off ← checked (SDSP !! point);
        SDSP_loop fuel' (Search (sx s + off.1) (sy s + off.2) (vec_min costs) checkMat)
  end.

(** One patch: the final position [(y, x)]. *)
Definition search_patch (fuel : nat) (my mx : Z) : outcome (Z * Z) :=
  s ← LDSP_stage my mx; SDSP_loop fuel s.

(** *** Notions used in the statements about the search *)

(** The search box centred on the patch's grid position. *)
Definition in_box (x y : Z) : Prop :=
  j - motionWindow <= x <= j + motionWindow /\
  i - motionWindow <= y <= i + motionWindow.

(** State of the small-diamond [for] loop round position [(x, y)]:
    [costs(2)] is untouched, every other entry is either the reset value
    or belongs to a candidate that was evaluated inside the box, a cell of
    the visited map being marked for it. *)
Definition rows_inv (x y : Z) (c : Q) (cm0 : umat) (st : list Q * umat) : Prop :=
  st.1 !! 2%nat = Some c /\ length st.1 = 6%nat /\
  n_rows st.2 = n_rows cm0 /\ n_cols st.2 = n_cols cm0 /\
  length (mem st.2) = length (mem cm0) /\
  (unseen (mem st.2) <= unseen (mem cm0))%nat /\
  forall k v, k <> 2%nat -> st.1 !! k = Some v ->
    v = costsScale \/
    exists off, SDSP !! k = Some off /\ in_box (x + off.1) (y + off.2) /\
                (unseen (mem st.2) < unseen (mem cm0))%nat.

(** State of the large-diamond loop over the pattern [rows]. *)
Definition ldsp_inv (rows : list (Z * Z)) (st : list Q * umat) : Prop :=
  st.1 !! 2%nat = Some (cost i j) /\ length st.1 = 6%nat /\
  shaped (2 * motionWindow + 1) st.2 /\
  (unseen (mem st.2) < Z.to_nat ((2 * motionWindow + 1) * (2 * motionWindow + 1)))%nat /\
  forall k v, k <> 2%nat -> st.1 !! k = Some v ->
    v = costsScale \/
    exists off, rows !! k = Some off /\
                - motionWindow <= off.1 <= motionWindow /\
                - motionWindow <= off.2 <= motionWindow.

(** What the search carries from one pass to the next: a kept cost below
    the reset value was obtained inside the box. *)
Definition search_inv (s : search) : Prop :=
  (scost s < costsScale)%Q -> in_box (sx s) (sy s).
End Search.

(** *** Notions used in the statements about the costs *)

Section Values.
Variables (Nx Ny blockSize motionWindow : Z).
Variable cost : Z -> Z -> Q.
Variables (i j : Z).

(** The cell of [checkMat] that stands for the candidate block at row
    [ver], column [hor] is marked. *)
Definition visited (cm : umat) (ver hor : Z) : Prop :=
  umat_at cm (ver - i + motionWindow) (hor - j + motionWindow) = Done 1.

(** The candidate of a pattern row round position [(x, y)] can be
    evaluated: its block lies inside the frame and inside the box. *)
Definition admissible (x y : Z) (off : Z * Z) : Prop :=
  out_of_frame Nx Ny blockSize (y + off.2) (x + off.1) = false /\
  in_box motionWindow i j (x + off.1) (y + off.2).

(** What the search knows about its position: the kept cost is the cost of
    the block at the position, the block lies inside the frame, and no
    candidate met so far is cheaper. *)
Definition search_val (s : search) : Prop :=
  (scost s == cost (sy s) (sx s))%Q /\
  out_of_frame Nx Ny blockSize (sy s) (sx s) = false /\
  (scost s <= cost i j)%Q /\
  shaped (2 * motionWindow + 1) (schecked s) /\
  forall ver hor, visited (schecked s) ver hor -> (scost s <= cost ver hor)%Q.

(** State of a [for] loop over the pattern [rows] round [(x, y)] after [n]
    rows: an entry other than [costs(2)] is the reset value or the cost of
    its candidate, every mark made by the loop belongs to such an entry,
    and [settled] holds of the rows done. *)
Definition pass_val (rows : list (Z * Z)) (x y : Z) (c : Q) (cm0 : umat)
    (n : nat) (st : list Q * umat) : Prop :=
  st.1 !! 2%nat = Some c /\ length st.1 = 6%nat /\
  shaped (2 * motionWindow + 1) st.2 /\
  (forall k v, k <> 2%nat -> st.1 !! k = Some v ->
     v = costsScale \/
     ((k < n)%nat /\ exists off, rows !! k = Some off /\ v = cost (y + off.2) (x + off.1) /\
                  out_of_frame Nx Ny blockSize (y + off.2) (x + off.1) = false)) /\
  (forall ver hor, visited st.2 ver hor ->
     visited cm0 ver hor \/ exists k, (k < n)%nat /\ st.1 !! k = Some (cost ver hor)).

(** Every admissible small-diamond candidate among the first [n] has its
    cell marked. *)
Definition neighbours_marked (x y : Z) (n : nat) (st : list Q * umat) : Prop :=
  forall k off, (k < n)%nat -> k <> 2%nat -> SDSP !! k = Some off ->
    admissible x y off -> visited st.2 (y + off.2) (x + off.1).
End Values.

(** The estimator object: constructor fields and the two coordinate cubes. *)
Record MotionEstimator : Type := Estimator {
  A : cube;
  Nx : Z; Ny : Z;
  blockSize : Z;
  motionWindow : Z;
  patches : icube;
  motions : icube
}.

Definition nxMbs (e : MotionEstimator) : Z := u32 (Nx e - blockSize e).
Definition nyMbs (e : MotionEstimator) : Z := u32 (Ny e - blockSize e).
Definition vecSize (e : MotionEstimator) : Z := u32 ((1 + nxMbs e) * (1 + nyMbs e)).

Definition patch_row (e : MotionEstimator) (it : Z) : Z := i32 (it mod u32 (1 + nxMbs e)).
Definition patch_col (e : MotionEstimator) (it : Z) : Z := i32 (it / u32 (1 + nyMbs e)).

(** Body of [for (size_t it = 0; it < vecSize; it++)]. *)
Definition estimate_patch (fuel : nat) (iARPS1 iARPS2 iARPS3 : Z)
    (k : nat) (it : Z) (e : MotionEstimator) : outcome MotionEstimator :=
  let i := patch_row e it in
  let j := patch_col e it in
  let cost := fun ver hor => block_cost (A e) (blockSize e) i j iARPS1 ver hor iARPS2 in
  '(y, x) ← search_patch (Nx e) (Ny e) (blockSize e) (motionWindow e) cost i j fuel
              (motions e 0 it iARPS3) (motions e 1 it iARPS3);
  let motions' := icube_set (icube_set (motions e) 0 it iARPS3 (y - i)) 1 it iARPS3 (x - j) in
  let patches' := icube_set (icube_set (patches e) 0 it iARPS2 y) 1 it iARPS2 x in
  Done (Estimator (A e) (Nx e) (Ny e) (blockSize e) (motionWindow e) patches' motions').

(** [ARPSMotionEstimation(curFrame, iARPS1, iARPS2, iARPS3)].  [curFrame]
    only selects among three branches that compute the same cost, the
    predictive term being switched off ([pMotion = 0.0]). *)
Definition ARPSMotionEstimation (fuel : nat) (curFrame iARPS1 iARPS2 iARPS3 : Z)
    (e : MotionEstimator) : outcome MotionEstimator :=
  for_rows (estimate_patch fuel iARPS1 iARPS2 iARPS3) 0 (seqZ 0 (vecSize e)) e.

(** The reference-frame coordinates [Estimate] writes before searching:
    [patches(0,i,ref) = i % (1 + nyMbs); patches(1,i,ref) = i / (1 + nxMbs)]. *)
Definition reference_patches (Nx Ny blockSize : Z) : icube :=
  fun c idx _ =>
    if c =? 0 then idx mod u32 (1 + u32 (Ny - blockSize))
    else idx / u32 (1 + u32 (Nx - blockSize)).

(** *** Notions used in the statements about a frame pair *)

(** Sizes for which no 32-bit quantity of the estimator wraps. *)
Definition well_sized (e : MotionEstimator) : Prop :=
  0 < blockSize e <= Nx e /\ blockSize e <= Ny e /\
  Nx e < 2 ^ 15 /\ Ny e < 2 ^ 15 /\ 0 <= motionWindow e < 2 ^ 30.

Definition same_setup (e e' : MotionEstimator) : Prop :=
  A e' = A e /\ Nx e' = Nx e /\ Ny e' = Ny e /\
  blockSize e' = blockSize e /\ motionWindow e' = motionWindow e.

(** What patch [it] has on record for the frame pair: its displacement and
    its location relative to its grid position. *)
Definition recorded_in_box (e0 e : MotionEstimator) (iARPS2 iARPS3 it : Z) : Prop :=
  Z.abs (motions e 0 it iARPS3) <= motionWindow e0 /\
  Z.abs (motions e 1 it iARPS3) <= motionWindow e0 /\
  Z.abs (patches e 0 it iARPS2 - patch_row e0 it) <= motionWindow e0 /\
  Z.abs (patches e 1 it iARPS2 - patch_col e0 it) <= motionWindow e0.

(** *** Notions used in the statements about a located frame *)

(** The location patch [it] has on record for frame [iARPS2] keeps its
    block inside the frame. *)
Definition recorded_in_frame (e0 e : MotionEstimator) (iARPS2 it : Z) : Prop :=
  0 <= patches e 0 it iARPS2 /\ patches e 0 it iARPS2 + blockSize e0 <= Nx e0 /\
  0 <= patches e 1 it iARPS2 /\ patches e 1 it iARPS2 + blockSize e0 <= Ny e0.

(** A window divided by its maximum: samples between 0 and 1. *)
Definition normalised (A : cube) : Prop := forall r c f, (0 <= A r c f <= 1)%Q.

(** The cost the search of patch [it] minimises, for the frame pair
    ([iARPS1], [iARPS2]). *)
Definition patch_cost (e : MotionEstimator) (iARPS1 iARPS2 it : Z) (ver hor : Z) : Q :=
  block_cost (A e) (blockSize e) (patch_row e it) (patch_col e it) iARPS1 ver hor iARPS2.

(** Every stored motion component of slice [iARPS3] lies in the box. *)
Definition motions_in_box (e : MotionEstimator) (iARPS3 : Z) : Prop :=
  forall it, 0 <= it < vecSize e ->
    Z.abs (motions e 0 it iARPS3) <= motionWindow e /\
    Z.abs (motions e 1 it iARPS3) <= motionWindow e.

(** The entries of the coordinate cubes one call may write: rows 0 and 1
    of the patches of the grid, in one slice. *)
Definition written_by_call (e : MotionEstimator) (slice : Z) (c it f : Z) : Prop :=
  (c = 0 \/ c = 1) /\ 0 <= it < vecSize e /\ f = slice.

(** *** The calls [Estimate] makes for one window *)

(** The arguments of one call of [ARPSMotionEstimation]. *)
Record call : Type := Call { curFrame : Z; iARPS1 : Z; iARPS2 : Z; iARPS3 : Z }.

(** [int inc = -1 * (i + 1)] *)
Definition inc (i : Z) : Z := i32 (- 1 * (i + 1)).

(** [for (size_t i = 0; i < n; i++)
       ARPSMotionEstimation(i, ref + i, ref + i + 1, ref + i);] *)
Definition forwards (ref n : Z) : list call :=
  (fun i => Call (i32 i) (i32 (ref + i)) (i32 (ref + i + 1)) (i32 (ref + i))) <$> seqZ 0 n.

(** [for (size_t i = 0; i < n; i++)
       ARPSMotionEstimation(inc, ref + inc + 1, ref + inc, ref + inc + 1);]
    the sums are formed in [uint32_t] and passed as [int]. *)
Definition backwards (ref n : Z) : list call :=
  (fun i => Call (inc i) (i32 (u32 (u32 (ref + inc i) + 1))) (i32 (u32 (ref + inc i)))
                 (i32 (u32 (u32 (ref + inc i) + 1)))) <$> seqZ 0 n.

Section Estimate.
(** [timeIter], [timeWindow], [nImages] of the constructor and
    [T = A.n_slices]. *)
Variables (timeIter timeWindow nImages T : Z).

(** The backward loop of the branch for the end of the sequence. *)
Definition backwards_end (endFrame : Z) : list call :=
  (fun i =>
     if u32 (2 * timeWindow) =? endFrame
     then Call (inc i) (i32 (u32 (u32 (endFrame + inc i) + 1))) (i32 (u32 (endFrame + inc i)))
               (i32 (u32 (endFrame + inc i)))
     else Call (inc i) (i32 (u32 (u32 (endFrame + inc i) + 1))) (i32 (u32 (endFrame + inc i)))
               (i32 (u32 (u32 (endFrame + inc i) + 1)))) <$> seqZ 0 endFrame.

(** The slice that receives the reference coordinates, and the calls in
    the order [Estimate] makes them. *)
Definition schedule : Z * list call :=
  if timeIter <? timeWindow then
    let loopEnd := u32 (T - timeIter - 1) in
    (timeIter, forwards timeIter loopEnd ++ backwards timeIter timeIter)
  else if u32 (nImages - timeWindow) <=? timeIter then
    let endFrame := u32 (timeIter - u32 (nImages - T)) in
    let loopEnd := u32 (u32 (2 * timeWindow) - endFrame) in
    (endFrame, forwards endFrame loopEnd ++ backwards_end endFrame)
  else
    (timeWindow, forwards timeWindow timeWindow ++ backwards timeWindow timeWindow).

(** [for (size_t i = 0; i < vecSize; i++)
       { patches(0, i, ref) = i % (1 + nyMbs); patches(1, i, ref) = i / (1 + nxMbs); }] *)
Definition populate (ref : Z) (e : MotionEstimator) : MotionEstimator :=
  Estimator (A e) (Nx e) (Ny e) (blockSize e) (motionWindow e)
    (foldl (fun p i => icube_set (icube_set p 0 i ref (i mod u32 (1 + nyMbs e)))
                         1 i ref (i / u32 (1 + nxMbs e)))
           (patches e) (seqZ 0 (vecSize e)))
    (motions e).

(** One call of the schedule. *)
Definition run_call (fuel : nat) (k : nat) (c : call) (e : MotionEstimator)
    : outcome MotionEstimator :=
  ARPSMotionEstimation fuel (curFrame c) (iARPS1 c) (iARPS2 c) (iARPS3 c) e.

(** [Estimate()] *)
Definition Estimate (fuel : nat) (e : MotionEstimator) : outcome MotionEstimator :=
  for_rows (run_call fuel) 0 schedule.2 (populate schedule.1 e).

(** *** Notions used in the statements about a window *)

(** The window as [main] cuts it: an odd number of frames round the
    half-width [timeWindow], inside a sequence of [nImages] frames. *)
Definition window_sized : Prop :=
  0 <= timeWindow /\ T = 2 * timeWindow + 1 /\ T <= nImages < 2 ^ 31 /\
  0 <= timeIter < nImages.
End Estimate.

(** The object the constructor builds: both coordinate cubes zero. *)
Definition fresh (A : cube) (Nx Ny blockSize motionWindow : Z) : MotionEstimator :=
  Estimator A Nx Ny blockSize motionWindow (fun _ _ _ => 0) (fun _ _ _ => 0).

(** The schedule without machine arithmetic: [n] steps away from [ref]
    towards the end of the window, then [ref] steps towards its start. *)
Definition forward_call (ref i : Z) : call := Call i (ref + i) (ref + i + 1) (ref + i).
Definition backward_call (timeWindow ref i : Z) : call :=
  Call (- (i + 1)) (ref - i) (ref - i - 1)
       (if ref =? 2 * timeWindow then ref - i - 1 else ref - i).
Definition plain_schedule (timeWindow ref : Z) : list call :=
  (forward_call ref <$> seqZ 0 (2 * timeWindow - ref)) ++
  (backward_call timeWindow ref <$> seqZ 0 ref).

(** Every patch of the grid is located in frame [k]: inside the box round
    its grid position, its block inside the frame. *)
Definition located (e0 e : MotionEstimator) (k : Z) : Prop :=
  forall it, 0 <= it < vecSize e0 ->
    Z.abs (patches e 0 it k - patch_row e0 it) <= motionWindow e0 /\
    Z.abs (patches e 1 it k - patch_col e0 it) <= motionWindow e0 /\
    0 <= patches e 0 it k /\ patches e 0 it k + blockSize e0 <= Nx e0 /\
    0 <= patches e 1 it k /\ patches e 1 it k + blockSize e0 <= Ny e0.

End ARPS.

(** ** The SVT engine (class template [SVT<T>]) *)

Module SVT.

(** Samples of type [T] are real numbers. *)
Definition rcube : Type := Z -> Z -> Z -> R.
Definition rmat : Type := Z -> Z -> R.
Definition rvec : Type := Z -> R.

(** [sum_{i in l} f i] and [sum_{0 <= i < n} f i] *)
Definition sum_over (l : list Z) (f : Z -> R) : R := foldr Rplus 0%R (f <$> l).
Definition sumZ (n : Z) (f : Z -> R) : R := sum_over (seqZ 0 n) f.

(** The object after construction. *)
Record SVT : Type := Engine {
  patches : icube;
  Nx : Z; Ny : Z; Nt : Z;
  blockSize : Z; blockOverlap : Z;
  expWeighting : bool
}.

Definition nxMbs (s : SVT) : Z := u32 (Nx s - blockSize s).
Definition nyMbs (s : SVT) : Z := u32 (Ny s - blockSize s).
Definition nxMbsDbo (s : SVT) : Z := nxMbs s / blockOverlap s.
Definition nyMbsDbo (s : SVT) : Z := nyMbs s / blockOverlap s.
Definition vecSize (s : SVT) : Z := u32 ((1 + nxMbsDbo s) * (1 + nyMbsDbo s)).

(** [for (size_t i = 0; i < limit; i += step)]: the values [i] takes.  For
    [step >= 1] the loop ends within [limit] iterations. *)
Fixpoint strided (fuel : nat) (i limit step : Z) : list Z :=
  match fuel with
  | O => []
  | S fuel' => if i <? limit then i :: strided fuel' (i + step) limit step else []
  end.

Definition stride_loop (limit step : Z) : list Z := strided (Z.to_nat limit) 0 limit step.

Definition firstPatches (s : SVT) : list Z :=
  i ← stride_loop (u32 (1 + nyMbs s)) (blockOverlap s);
  j ← stride_loop (u32 (1 + nxMbs s)) (blockOverlap s);
  [i * nyMbs s + j].

Definition patchesBottomEdge (s : SVT) : list Z :=
  (fun i => u32 (nyMbs s + 1) * i + nxMbs s) <$> stride_loop (u32 (1 + nyMbs s)) (blockOverlap s).

Definition patchesRightEdge (s : SVT) : list Z :=
  (fun i => u32 (u32 (nyMbs s + 1) * nxMbs s) + i) <$> stride_loop (u32 (1 + nxMbs s)) (blockOverlap s).

Definition joinPatches (s : SVT) : list Z :=
  firstPatches s ++ patchesRightEdge s ++ patchesBottomEdge s.

(** [arma::sort(joinPatches.elem(arma::find_unique(joinPatches)))] *)
Fixpoint insert_unique (x : Z) (l : list Z) : list Z :=
  match l with
  | [] => [x]
  | y :: t => if x <? y then x :: l else if x =? y then l else y :: insert_unique x t
  end.

Definition sort_unique (l : list Z) : list Z := foldr insert_unique [] l.

Definition actualPatches (s : SVT) : list Z := sort_unique (joinPatches s).

(** [U[it]], [S[it]], [V[it]] of one patch. *)
Record svd_triple : Type := Triple { Ublock : rmat; Sblock : rvec; Vblock : rmat }.

(** Modelled from the spec: [pguresvt::SoftThreshold] of utils.hpp, which is
    not among the sources; the spec gives
    [Sthresh[i] = sign(S[i]) * max(|S[i]| - lambda, 0)], with the threshold
    either the scalar [lambda] or, element by element, a vector. *)
Definition sign (x : R) : R :=
  if Rlt_dec 0 x then 1%R else if Rlt_dec x 0 then (-1)%R else 0%R.

Definition SoftThreshold (v zeros thresh : rvec) : rvec :=
  fun i => (sign (v i) * Rmax (Rabs (v i) - thresh i) (zeros i))%R.

(** [Sblock.max()] over the [n] entries of the vector. *)
Definition vec_max (S : rvec) (n : Z) : R := foldr Rmax (S 0) (S <$> seqZ 1 (n - 1)).

Section Engine.
(** [arma::svd_econ], an external routine. *)
Variable svd_econ : rmat -> svd_triple.
Variable s : SVT.

(** Corner of patch [idx] in frame [k]: [newY = patches(0, idx, k)],
    [newX = patches(1, idx, k)]. *)
Definition newY (idx k : Z) : Z := patches s 0 idx k.
Definition newX (idx k : Z) : Z := patches s 1 idx k.

(** The Casorati matrix of patch [idx]: column [k] is the vectorised
    (column-major) block of frame [k]. *)
Definition extract_block (u : rcube) (idx : Z) : rmat :=
  fun p k => u (newY idx k + p mod blockSize s) (newX idx k + p / blockSize s) k.

(** [Decompose]: one triple per entry of [actualPatches], in order. *)
Definition Decompose (u : rcube) : list (Z * svd_triple) :=
  (fun idx => (idx, svd_econ (extract_block u idx))) <$> actualPatches s.

Definition zvec : rvec := fun _ => 0%R.

(** [wvec = arma::abs(Sblock.max() * arma::exp(-0.5 * lambda * arma::square(Sblock)))] *)
Definition wvec (t : svd_triple) (lambda : R) : rvec :=
  fun i => Rabs (vec_max (Sblock t) (Nt s) * exp (- (1 / 2) * lambda * (Sblock t i * Sblock t i))).

(** [Sthresh] of one patch. *)
Definition threshold (t : svd_triple) (lambda : R) : rvec :=
  if expWeighting s
  then SoftThreshold (Sblock t) zvec (wvec t lambda)
  else SoftThreshold (Sblock t) zvec (fun _ => lambda).

(** [block = Ublock * diagmat(Sthresh) * Vblock.t()] *)
Definition reconstruct_block (t : svd_triple) (lambda : R) : rmat :=
  fun p k => sumZ (Nt s) (fun i => (Ublock t p i * threshold t lambda i * Vblock t k i)%R).

(** Whether the block of patch [idx] in frame [k] contains pixel [(r, c)]. *)
Definition covers (idx r c k : Z) : bool :=
  (newY idx k <=? r) && (r <=? newY idx k + blockSize s - 1) &&
  (newX idx k <=? c) && (c <=? newX idx k + blockSize s - 1).

(** The accumulators after the loop over the patches.  [weights] grows by
    one per covering patch and is kept as a count. *)
Definition accumulated (dec : list (Z * svd_triple)) (lambda : R) (r c k : Z) : R :=
  foldr Rplus 0%R
    ((fun it : Z * svd_triple =>
        if covers it.1 r c k
        then reconstruct_block it.2 lambda
               ((r - newY it.1 k) + (c - newX it.1 k) * blockSize s) k
        else 0%R) <$> dec).

Definition weights (dec : list (Z * svd_triple)) (r c k : Z) : Z :=
  Z.of_nat (length (filter (fun idx => covers idx r c k = true) dec.*1)).

(** [v /= weights; v.elem(find_nonfinite(v)).zeros()]: where no patch
    contributed the quotient is 0/0 and is replaced by zero. *)
Definition Reconstruct (dec : list (Z * svd_triple)) (lambda : R) : rcube :=
  fun r c k =>
    if weights dec r c k =? 0 then 0%R
    else (accumulated dec lambda r c k / IZR (weights dec r c k))%R.

(** Frobenius norm of a [rows x cols] matrix. *)
Definition frobenius (rows cols : Z) (M : rmat) : R :=
  sqrt (sumZ rows (fun p => sumZ cols (fun k => (M p k * M p k)%R))).
End Engine.

(** *** The contract of the external decomposition *)

(** A matrix with [rows] rows whose first [n] columns are orthonormal. *)
Definition orthonormal_columns (rows : Z) (n : Z) (M : rmat) : Prop :=
  forall i j, 0 <= i < n -> 0 <= j < n ->
    sumZ rows (fun p => (M p i * M p j)%R) = if decide (i = j) then 1%R else 0%R.

(** [svd_econ] on a [rows x cols] matrix [M]: exact reconstruction,
    non-negative singular values, orthonormal columns. *)
Definition svd_contract (rows cols : Z) (M : rmat) (t : svd_triple) : Prop :=
  (forall p k, 0 <= p < rows -> 0 <= k < cols ->
     sumZ cols (fun i => (Ublock t p i * Sblock t i * Vblock t k i)%R) = M p k) /\
  (forall i, 0 <= i < cols -> (0 <= Sblock t i)%R) /\
  orthonormal_columns rows cols (Ublock t) /\
  orthonormal_columns cols cols (Vblock t).

(** *** Notions used in the statements about the index vectors *)


End SVT.

(** ** The driver ([main], PGURE-SVT-bin.cpp) *)

Module Driver.

(** How [main] can leave the set-up phase. *)
Inductive exit (A : Type) : Type :=
| Continue (a : A)
| Return (code : Z)
| Uncaught.
Arguments Continue {A} a.
Arguments Return {A} code.
Arguments Uncaught {A}.

#[global] Instance exit_ret : MRet exit := fun A a => Continue a.
#[global] Instance exit_bind : MBind exit := fun A B f m =>
  match m with
  | Continue a => f a
  | Return code => Return code
  | Uncaught => Uncaught
  end.

(** A conversion that throws when it fails. *)
Definition throwing {A : Type} (o : option A) : exit A :=
  match o with
  | Some a => Continue a
  | None => Uncaught
  end.

(** [bool strToBool(std::string const &s) { return s != "0"; }] *)
Definition strToBool (s : string) : bool := negb (String.eqb s "0").

(** The values [main] extracts from the parameter file. *)
Record params : Type := Params {
  startimg : Z; endimg : Z; num_images : Z;
  Bs : Z; T : Z;
  alpha : Q; mu : Q; sigma : Q;
  pgureOpt : bool; lambda : Q;
  MotionP : Z; MedianSize : Z;
  tol : Q;
  Bo : Z; NoiseMethod : Z; hotpixelthreshold : Q
}.

(** What [main] reads from the header and the directories of the TIFF file. *)
Record tiff : Type := Tiff {
  present : bool;
  tiffWidth : Z; tiffHeight : Z; tiffDepth : Z;
  directories : Z
}.

Section Main.
(** The integer a string starts with ([None]: there is none), [std::stod]
    ([None]: the conversion throws) and the extraction [stream >> double]. *)
Variable stoi : string -> option Z.
Variable stod : string -> option Q.
Variable extract_double : string -> Q.
(** The value an uninitialised [double] holds. *)
Variable indeterminate : Q.

(** [programOptions.count(key) == 1] *)
Definition has (programOptions : gmap string string) (key : string) : bool :=
  bool_decide (is_Some (programOptions !! key)).

(** [std::stoi] returns an [int]: it throws [std::invalid_argument] when
    the string starts with no integer and [std::out_of_range] when the
    integer does not fit an [int]. *)
Definition std_stoi (v : string) : option Z :=
  match stoi v with
  | Some n => if (- 2 ^ 31 <=? n) && (n <? 2 ^ 31) then Some n else None
  | None => None
  end.

(** [(count(key) == 1) ? std::stoi(at(key)) : dflt] *)
Definition int_option (programOptions : gmap string string) (key : string) (dflt : Z) : exit Z :=
  match programOptions !! key with
  | Some v => throwing (std_stoi v)
  | None => Continue dflt
  end.

(** [std::stoi(programOptions.at(key))] *)
Definition int_at (programOptions : gmap string string) (key : string) : exit Z :=
  v ← throwing (programOptions !! key); throwing (std_stoi v).

Definition double_option (programOptions : gmap string string) (key : string) (dflt : Q) : exit Q :=
  match programOptions !! key with
  | Some v => throwing (stod v)
  | None => Continue dflt
  end.

(** [main] from the parsed parameter file to the hot-pixel threshold.  The
    variables are [int]s: the sum and the products are taken with the
    wrap-around of 32-bit two's complement arithmetic. *)
Definition extract_parameters (programOptions : gmap string string) : exit params :=
  if negb (has programOptions "filename") || negb (has programOptions "start_image")
     || negb (has programOptions "end_image")
  then Return (-1)
  else
    startimg ← int_at programOptions "start_image";
    endimg ← int_at programOptions "end_image";
    let num_images := i32 (i32 (endimg - startimg) + 1) in
    Bs ← int_option programOptions "patch_size" 4;
    T ← int_option programOptions "trajectory_length" 15;
    let T := if i32 (Bs * Bs) <? T then i32 (i32 (Bs * Bs) - 1) else T in
    alpha ← double_option programOptions "alpha" (-1);
    mu ← double_option programOptions "mu" (-1);
    sigma ← double_option programOptions "sigma" (-1);
    let pgureOpt :=
      match programOptions !! "pgure" with
      | Some v => strToBool v
      | None => true
      end in
    lambda ←
      (if negb pgureOpt
       then match programOptions !! "lambda" with
            | Some v => throwing (stod v)
            | None => Return (-1)
            end
       else Continue indeterminate);
    MotionP ← int_option programOptions "motion_neighbourhood" 7;
    MedianSize ← int_option programOptions "median_filter" 5;
    let tol : Q := 1 # 10000000 in
    let _ :=
      match programOptions !! "tolerance" with
      | Some v => let tol := extract_double v in tt
      | None => tt
      end in
    Bo ← int_option programOptions "patch_overlap" 1;
    NoiseMethod ← int_option programOptions "noise_method" 4;
    hotpixelthreshold ← int_option programOptions "hot_pixel" 10;
    Continue (Params startimg endimg num_images Bs T alpha mu sigma pgureOpt lambda
                     MotionP MedianSize tol Bo NoiseMethod (inject_Z hotpixelthreshold)).

(** Number of directories read into [inputsequence]: those with
    [startimg - 1 <= dircount <= endimg - 1]. *)
Definition n_slices (p : params) (f : tiff) : Z :=
  Z.of_nat (length (filter (fun dircount => startimg p - 1 <= dircount <= endimg p - 1)
                           (seqZ 0 (directories f)))).

(** The checks on the input file. *)
Definition check_input (p : params) (f : tiff) : exit unit :=
  if negb (present f) then Return (-1)
  else if negb (tiffWidth f =? tiffHeight f) then Return (-1)
  else if negb (tiffDepth f =? 8) && negb (tiffDepth f =? 16) then Return (-1)
  else if n_slices p f <? num_images p then Return (-1)
  else Continue tt.

(** Everything [main] does before the loop over time windows, from the
    count of its command-line arguments on; [programOptions] is what
    [ParseParameters] reads from the file named by [argv[1]]. *)
Definition setup (argc : Z) (programOptions : gmap string string) (f : tiff) : exit params :=
  if negb (argc =? 2) then Return (-1)
  else
    p ← extract_parameters programOptions;
    _ ← check_input p f;
    Continue p.

(** *** One time window *)

(** [PGURE::Optimize(tol, lambda, u.max(), 1E3)] for the window of
    [timeiter], and the window statistics it is called with:
    [window_mean] stands for [arma::accu(u) / (Nx * Ny * T)], the mean
    intensity of a window of [T] frames, and [window_max] for [u.max()]. *)
Variable Optimize : Z -> Q -> Q -> Q -> Q -> Q.
Variable window_mean : Z -> Q.
Variable window_max : Z -> Q.

(** What one call of the closure [func] hands to the optimizer and to
    [Reconstruct]. *)
Record window_run : Type := Run {
  optimizer_tolerance : option Q;
  optimizer_seed : option Q;
  reconstruct_lambda : Q
}.

(** [auto &&func = [&, lambda_ = lambda](int timeiter) { auto lambda = lambda_; ... }] *)
Definition func (p : params) (lambda_ : Q) (timeiter : Z) : window_run :=
  let lambda := lambda_ in
  if pgureOpt p then
    let lambda := if timeiter =? 0 then window_mean timeiter else lambda in
    let seed := lambda in
    let lambda := Optimize timeiter (tol p) lambda (window_max timeiter) 1000 in
    Run (Some (tol p)) (Some seed) lambda
  else Run None None lambda.

(** [parallel(func, num_images)]: one call per output frame, each with
    the closure's own copy of [lambda]. *)
Definition run_windows (p : params) : list window_run :=
  func p (lambda p) <$> seqZ 0 (num_images p).
End Main.

(** *** Writing the result *)








(** *** Plain decimal conversions, for worked configurations *)

Definition digit (a : ascii) : option Z :=
  let n := Z.of_nat (nat_of_ascii a) in
  if (48 <=? n) && (n <=? 57) then Some (n - 48) else None.

Fixpoint digits (acc : Z) (s : string) : Z :=
  match s with
  | String a rest =>
      match digit a with
      | Some d => digits (10 * acc + d) rest
      | None => acc
      end
  | EmptyString => acc
  end.

(** [std::stoi] on an optional sign followed by decimal digits. *)
Definition stoi_decimal (s : string) : option Z :=
  match s with
  | String "-" (String a _ as rest) =>
      match digit a with
      | Some _ => Some (- digits 0 rest)
      | None => None
      end
  | String a _ =>
      match digit a with
      | Some _ => Some (digits 0 s)
      | None => None
      end
  | EmptyString => None
  end.

(** [std::stod] on the same strings. *)
Definition stod_decimal (s : string) : option Q := inject_Z <$> stoi_decimal s.

(** A parameter file with its three geometry entries replaced. *)
Definition with_geometry (patch_size patch_overlap trajectory_length : string)
    (programOptions : gmap string string) : gmap string string :=
  <["patch_size" := patch_size]>
    (<["patch_overlap" := patch_overlap]>
       (<["trajectory_length" := trajectory_length]> programOptions)).


(** *** File names *)

(** [std::string::npos] *)
Definition npos : Z := 2 ^ 64 - 1.

(** Position of the last occurrence of [c] in [s]. *)
Fixpoint last_position (c : ascii) (s : string) : option nat :=
  match s with
  | EmptyString => None
  | String a rest =>
      match last_position c rest with
      | Some n => Some (S n)
      | None => if Ascii.eqb a c then Some O else None
      end
  end.

(** [s.find_last_of(c)] *)
Definition find_last_of (s : string) (c : ascii) : Z :=
  match last_position c s with
  | Some n => Z.of_nat n
  | None => npos
  end.

(** [s.substr(0, count)], [count] a [size_t] *)
Definition substr (s : string) (count : Z) : string :=
  substring 0 (Z.to_nat (Z.min count (Z.of_nat (String.length s)))) s.

(** [int lastindex = filename.find_last_of(".");
     std::string filestem = filename.substr(0, lastindex);] *)
Definition filestem (filename : string) : string :=
  let lastindex := i32 (find_last_of filename ".") in
  substr filename (lastindex mod 2 ^ 64).

(** [filestem + ".tif"] and [filestem + "-CLEANED.tif"] *)
Definition infilename (filename : string) : string := String.append (filestem filename) ".tif".
Definition outfilename (filename : string) : string :=
  String.append (filestem filename) "-CLEANED.tif".

(** *** The frames of one window *)

(** [int framewindow = std::floor(T / 2);] *)
Definition framewindow (p : params) : Z := T p ÷ 2.

(** First and last slice of the sequence copied into [u] and [ufilter]. *)
Definition window_slices (p : params) (timeiter : Z) : Z * Z :=
  if timeiter <? framewindow p then (0, 2 * framewindow p)
  else if num_images p - framewindow p <=? timeiter
       then (num_images p - 2 * framewindow p - 1, num_images p - 1)
       else (timeiter - framewindow p, timeiter + framewindow p).

(** The slice of [v] copied to [cleansequence.slice(timeiter)]. *)
Definition put_back (p : params) (timeiter : Z) : Z :=
  if timeiter <? framewindow p then timeiter
  else if num_images p - framewindow p <=? timeiter
       then timeiter - (num_images p - T p)
       else framewindow p.

End Driver.

(** ** Worked inputs *)

(** Two frames of 4 x 4 pixels for the block matcher, 2 x 2 blocks, a
    search half-width of 2. *)
Definition frames_example : cube :=
  fun r c f => inject_Z ((r * r + 3 * c + 2 * f * r) mod 7).

Definition estimator_example : ARPS.MotionEstimator :=
  ARPS.Estimator frames_example 4 4 2 2 (fun _ _ _ => 0) (fun _ _ _ => 0).

(** A cost with its minimum at row 3, column 2. *)
Definition cost_example : Z -> Z -> Q :=
  fun ver hor => if (ver =? 3) && (hor =? 2) then 0%Q else if ver <? 3 then 2%Q else 3%Q.

(** Two identical frames of 3 x 3 pixels; the reference frame is frame 0. *)
Definition static_estimator : ARPS.MotionEstimator :=
  ARPS.Estimator (fun _ _ _ => 1%Q) 3 3 2 2
    (fun a idx k => if k =? 0 then ARPS.reference_patches 3 3 2 a idx k else 0)
    (fun _ _ _ => 0).

(** A window of 3 x 3 pixels, one frame, constant intensity, cut into the
    four 2 x 2 blocks of stride 1. *)
Definition window_example : SVT.rcube := fun _ _ _ => 1%R.

Definition engine_example (weighting : bool) : SVT.SVT :=
  SVT.Engine (ARPS.reference_patches 3 3 2) 3 3 1 2 1 weighting.

(** The decomposition of the all-ones 4 x 1 Casorati matrix:
    [U = (1/2, 1/2, 1/2, 1/2)^t], [S = (2)], [V = (1)]. *)
Definition svd_example : SVT.rmat -> SVT.svd_triple :=
  fun _ => SVT.Triple (fun _ _ => (1 / 2)%R) (fun _ => 2%R) (fun _ _ => 1%R).

(** A parameter file naming the sequence, its frames and a tolerance. *)
Definition options_example : gmap string string :=
  list_to_map [("filename", "seq.tif"); ("start_image", "1"); ("end_image", "25");
               ("tolerance", "0.001")].

(** 25 frames of 64 x 64 pixels, 16 bits. *)
Definition tiff_example : Driver.tiff := Driver.Tiff true 64 64 16 25.

(** The stream extraction on the one tolerance used here. *)
Definition extract_double_example (s : string) : Q :=
  if String.eqb s "0.001" then 1 # 1000 else 0.

(** An optimiser that moves its seed by one, and windows of mean 1/2. *)
Definition optimizer_example : Z -> Q -> Q -> Q -> Q -> Q :=
  fun _ _ seed _ _ => (seed + 1)%Q.
Definition mean_example : Z -> Q := fun _ => (1 # 2)%Q.
Definition max_example : Z -> Q := fun _ => 1%Q.

(** The default parameters for frames 1 to 25, and an output sequence. *)
Definition params_example : Driver.params :=
  Driver.Params 1 25 25 4 15 (-1) (-1) (-1) true 0 7 5 (1 # 10000000) 1 4 10.


(** Two frames of 4 x 4 pixels with samples 0 and 1. *)
Definition binary_frames : cube :=
  fun r c f => inject_Z ((r + 2 * c + f * r) mod 2).

Definition binary_estimator : ARPS.MotionEstimator :=
  ARPS.Estimator binary_frames 4 4 2 2 (fun _ _ _ => 0) (fun _ _ _ => 0).

(** The same frames searched with a half-width of 1. *)
Definition narrow_estimator : ARPS.MotionEstimator :=
  ARPS.Estimator binary_frames 4 4 2 1 (fun _ _ _ => 0) (fun _ _ _ => 0).

(** Patches of 3 x 3 pixels with the default trajectory length: the
    clamp leaves [T = 3 * 3 - 1]. *)
Definition clamped_params : Driver.params :=
  Driver.Params 1 25 25 3 8 (-1) (-1) (-1) true 0 7 5 (1 # 10000000) 1 4 10.

(** * Part II: proofs *)

(** ** Machine integers, cost vectors, visited maps and loops *)

Lemma i32_small z : - 2 ^ 31 <= z < 2 ^ 31 -> i32 z = z.
Proof. intros H. unfold i32. rewrite Z.mod_small; lia. Qed.

Lemma u32_small z : 0 <= z < 2 ^ 32 -> u32 z = z.
Proof. intros H. unfold u32. now rewrite Z.mod_small. Qed.

(** *** Minimum of a cost vector and its first position *)

Lemma fold_min_le (l : list Q) (m : Q) :
  (fold_left Qmin l m <= m)%Q /\ (forall x, x ∈ l -> (fold_left Qmin l m <= x)%Q).
Proof.
  revert m. induction l as [|a l IH]; intros m; simpl.
  - split; [apply Qle_refl | intros x Hx; inversion Hx].
  - destruct (IH (Qmin m a)) as [H1 H2]. split.
    + eapply Qle_trans; [exact H1 | apply Q.le_min_l].
    + intros x Hx. apply elem_of_cons in Hx as [-> | Hx]; [|auto].
      eapply Qle_trans; [exact H1 | apply Q.le_min_r].
Qed.

Lemma fold_min_attained (l : list Q) (m : Q) :
  fold_left Qmin l m == m \/ exists x, x ∈ l /\ fold_left Qmin l m == x.
Proof.
  revert m. induction l as [|a l IH]; intros m; simpl.
  - left. reflexivity.
  - destruct (IH (Qmin m a)) as [H | (x & Hx & H)].
    + destruct (Q.min_dec m a) as [E | E].
      * left. now rewrite H.
      * right. exists a. split; [left | now rewrite H].
    + right. exists x. split; [now right | exact H].
Qed.

Lemma vec_min_le (l : list Q) (x : Q) : x ∈ l -> (vec_min l <= x)%Q.
Proof.
  destruct l as [|a l]; intros Hx; [inversion Hx|]. simpl.
  destruct (fold_min_le l a) as [H1 H2].
  apply elem_of_cons in Hx as [-> | Hx]; auto.
Qed.

Lemma vec_min_attained (l : list Q) : l <> [] -> exists x, x ∈ l /\ vec_min l == x.
Proof.
  destruct l as [|a l]; [congruence | intros _]. simpl.
  destruct (fold_min_attained l a) as [H | (x & Hx & H)].
  - exists a. split; [left | exact H].
  - exists x. split; [now right | exact H].
Qed.

Lemma find_first_Some (p : Q -> bool) (l : list Q) (k : nat) :
  find_first p l = Some k ->
  exists x, l !! k = Some x /\ p x = true /\
            forall k' y, (k' < k)%nat -> l !! k' = Some y -> p y = false.
Proof.
  revert k. induction l as [|a l IH]; intros k; simpl; [discriminate|].
  destruct (p a) eqn:Ha.
  - intros [= <-]. exists a. repeat split; auto. intros k' y Hk. lia.
  - destruct (find_first p l) as [n|] eqn:Hn; simpl; [|discriminate].
    intros [= <-]. destruct (IH n eq_refl) as (x & Hx & Hp & Hlt).
    exists x. repeat split; auto.
    intros [|k'] y Hk; simpl; [intros [= <-]; exact Ha | intros Hy].
    apply (Hlt k' y); [lia | exact Hy].
Qed.

Lemma find_first_None (p : Q -> bool) (l : list Q) :
  find_first p l = None -> forall x, x ∈ l -> p x = false.
Proof.
  induction l as [|a l IH]; simpl; intros H x Hx; [inversion Hx|].
  destruct (p a) eqn:Ha; [discriminate|].
  destruct (find_first p l); [discriminate|].
  apply elem_of_cons in Hx as [-> | Hx]; auto.
Qed.

Lemma argmin_Some (l : list Q) (k : nat) :
  argmin l = Some k ->
  exists x, l !! k = Some x /\ x == vec_min l /\
            forall k' y, (k' < k)%nat -> l !! k' = Some y -> (vec_min l < y)%Q.
Proof.
  unfold argmin. intros H. apply find_first_Some in H as (x & Hx & Hp & Hlt).
  exists x. split; [exact Hx|]. split.
  - symmetry. now apply Qeq_bool_eq.
  - intros k' y Hk Hy. specialize (Hlt k' y Hk Hy).
    apply Qeq_bool_neq in Hlt.
    assert (Hle : (vec_min l <= y)%Q) by (apply vec_min_le; eapply list_elem_of_lookup_2; eauto).
    apply Qle_lt_or_eq in Hle as [? | ?]; [assumption | contradiction].
Qed.

Lemma argmin_is_Some (l : list Q) : l <> [] -> is_Some (argmin l).
Proof.
  intros Hl. destruct (argmin l) as [k|] eqn:E; [eauto|].
  destruct (vec_min_attained l Hl) as (x & Hx & Hm).
  unfold argmin in E. pose proof (find_first_None _ _ E x Hx) as Hf.
  apply Qeq_bool_neq in Hf. contradiction.
Qed.

(** *** The visited map *)

Lemma unseen_le_length (l : list Z) : (unseen l <= length l)%nat.
Proof. induction l as [|v l IH]; simpl; [lia | destruct (v =? 1); lia]. Qed.

Lemma unseen_mark_le (l : list Z) (n : nat) : (unseen (<[n := 1%Z]> l) <= unseen l)%nat.
Proof.
  revert n. induction l as [|v l IH]; intros [|n]; simpl; try lia.
  - destruct (v =? 1); lia.
  - specialize (IH n). destruct (v =? 1); lia.
Qed.

Lemma unseen_mark_lt (l : list Z) (n : nat) (v : Z) :
  l !! n = Some v -> v <> 1 -> (unseen (<[n := 1%Z]> l) < unseen l)%nat.
Proof.
  revert n. induction l as [|a l IH]; intros [|n]; simpl; try discriminate.
  - intros [= ->] Hv. destruct (v =? 1) eqn:E; [lia | lia].
  - intros Hn Hv. specialize (IH n Hn Hv). destruct (a =? 1); lia.
Qed.

Lemma shaped_zeros (side : Z) : shaped side (umat_zeros side side).
Proof. unfold shaped, umat_zeros; simpl. now rewrite length_replicate. Qed.

Lemma umat_set_Done (M M' : umat) (r c v : Z) :
  umat_set M r c v = Done M' ->
  in_bounds M r c = true /\
  M' = Umat (n_rows M) (n_cols M) (<[Z.to_nat (r + c * n_rows M) := v]> (mem M)).
Proof. unfold umat_set. destruct (in_bounds M r c); [intros [= <-]; auto | discriminate]. Qed.

Lemma umat_set_shaped (side : Z) (M M' : umat) (r c v : Z) :
  shaped side M -> umat_set M r c v = Done M' -> shaped side M'.
Proof.
  intros (Hr & Hc & Hl) H. apply umat_set_Done in H as [_ ->].
  unfold shaped; simpl. now rewrite length_insert.
Qed.

Lemma in_bounds_spec (M : umat) (r c : Z) :
  in_bounds M r c = true <-> 0 <= r < n_rows M /\ 0 <= c < n_cols M.
Proof. unfold in_bounds. rewrite !andb_true_iff, !Z.leb_le, !Z.ltb_lt. lia. Qed.

Lemma in_bounds_lookup (side : Z) (M : umat) (r c : Z) :
  shaped side M -> in_bounds M r c = true ->
  is_Some (mem M !! Z.to_nat (r + c * n_rows M)).
Proof.
  intros (Hr & Hc & Hl) H. apply in_bounds_spec in H.
  apply lookup_lt_is_Some. rewrite Hl, Hr in *. nia.
Qed.

(** *** Loops over the rows of a pattern *)

Lemma for_rows_inv {S E : Type} (body : nat -> E -> S -> outcome S)
    (P : nat -> S -> Prop) (rows : list E) :
  forall (k0 n0 : nat) (s s' : S),
    (forall k e t t', rows !! k = Some e -> P (n0 + k)%nat t ->
                      body (k0 + k)%nat e t = Done t' -> P (Datatypes.S (n0 + k)) t') ->
    P n0 s -> for_rows body k0 rows s = Done s' -> P (n0 + length rows)%nat s'.
Proof.
  induction rows as [|e rows IH]; intros k0 n0 s s' Hstep Hs; simpl.
  - intros [= <-]. now rewrite Nat.add_0_r.
  - destruct (body k0 e s) as [t| |] eqn:Hb; simpl; try discriminate.
    replace (n0 + Datatypes.S (length rows))%nat with (Datatypes.S n0 + length rows)%nat by lia.
    apply IH.
    + intros k e' t1 t2 Hk.
      replace (Datatypes.S k0 + k)%nat with (k0 + Datatypes.S k)%nat by lia.
      replace (Datatypes.S n0 + k)%nat with (n0 + Datatypes.S k)%nat by lia.
      now apply Hstep.
    + specialize (Hstep O e s t eq_refl). rewrite !Nat.add_0_r in Hstep. auto.
Qed.

Lemma for_rows_total {S E : Type} (body : nat -> E -> S -> outcome S)
    (P : S -> Prop) (rows : list E) :
  forall (k0 : nat) (s : S),
    (forall k e t, rows !! k = Some e -> P t -> exists t', body (k0 + k)%nat e t = Done t' /\ P t') ->
    P s -> exists s', for_rows body k0 rows s = Done s' /\ P s'.
Proof.
  induction rows as [|e rows IH]; intros k0 s Hstep Hs; simpl.
  - eauto.
  - destruct (Hstep O e s eq_refl Hs) as (t & Hb & Ht).
    rewrite Nat.add_0_r in Hb. rewrite Hb. simpl.
    apply IH; [|exact Ht].
    intros k e' t1 Hk. replace (Datatypes.S k0 + k)%nat with (k0 + Datatypes.S k)%nat by lia.
    now apply Hstep.
Qed.

(** *** Reading a visited map after a write *)

Lemma umat_at_set_eq (side : Z) (M M' : umat) (r c v : Z) :
  shaped side M -> umat_set M r c v = Done M' -> umat_at M' r c = Done v.
Proof.
  intros Hsh Hset. pose proof Hset as Hd. apply umat_set_Done in Hd as [Hb ->].
  unfold umat_at. simpl.
  assert (Hb' : in_bounds (Umat (n_rows M) (n_cols M)
                 (<[Z.to_nat (r + c * n_rows M) := v]> (mem M))) r c = true) by exact Hb.
  rewrite Hb'. destruct (in_bounds_lookup side M r c Hsh Hb) as [w Hw].
  rewrite list_lookup_insert_eq; [reflexivity|]. now apply lookup_lt_Some in Hw.
Qed.

Lemma umat_at_set_ne (side : Z) (M M' : umat) (r c v r' c' : Z) :
  shaped side M -> umat_set M r c v = Done M' -> r' <> r \/ c' <> c ->
  umat_at M' r' c' = umat_at M r' c'.
Proof.
  intros Hsh Hset Hne. apply umat_set_Done in Hset as [Hb ->].
  unfold umat_at. simpl.
  change (in_bounds (Umat (n_rows M) (n_cols M) _) r' c') with (in_bounds M r' c').
  destruct (in_bounds M r' c') eqn:Hb'; [|reflexivity].
  rewrite list_lookup_insert_ne; [reflexivity|].
  apply in_bounds_spec in Hb, Hb'. destruct Hsh as (Hr & Hc & _). rewrite Hr in *.
  intros E. apply Z2Nat.inj in E; [|nia|nia].
  destruct (Z.lt_trichotomy c c') as [H | [H | H]]; nia.
Qed.

(** *** Lengths of nested loops *)

Lemma bind_length_const {A B : Type} (f : A -> list B) (l : list A) (n : nat) :
  (forall a, length (f a) = n) -> length (l ≫= f) = (length l * n)%nat.
Proof.
  intros Hf. induction l as [|a l IH]; [reflexivity|].
  change ((a :: l) ≫= f) with (f a ++ (l ≫= f)).
  rewrite length_app, Hf, IH. simpl. lia.
Qed.

(** ** The block matcher *)

Module ARPSFacts.
Import ARPS.

Section SearchFacts.
Variables (Nx Ny blockSize motionWindow : Z).
Variable cost : Z -> Z -> Q.
Variables (i j : Z).

(** The casts to [int] in the box test do not wrap. *)
Hypothesis i_range : - 2 ^ 31 <= i - motionWindow /\ i + motionWindow < 2 ^ 31.
Hypothesis j_range : - 2 ^ 31 <= j - motionWindow /\ j + motionWindow < 2 ^ 31.
Hypothesis window_nonneg : 0 <= motionWindow.

#[local] Abbreviation side := (2 * motionWindow + 1).
#[local] Abbreviation in_box := (ARPS.in_box motionWindow i j).
#[local] Abbreviation rows_inv := (ARPS.rows_inv motionWindow i j).
#[local] Abbreviation ldsp_inv := (ARPS.ldsp_inv motionWindow cost i j).
#[local] Abbreviation search_inv := (ARPS.search_inv motionWindow i j).

Lemma side_u32 : u32 side = side.
Proof. apply u32_small. lia. Qed.

Lemma out_of_box_false (ver hor : Z) :
  out_of_box motionWindow i j ver hor = false -> in_box hor ver.
Proof.
  unfold out_of_box, ARPS.in_box. rewrite !orb_false_iff, !Z.ltb_ge.
  rewrite !i32_small by lia. lia.
Qed.

#[local] Abbreviation eval_S := (eval_SDSP Nx Ny blockSize motionWindow cost i j).
#[local] Abbreviation eval_L := (eval_LDSP Nx Ny blockSize motionWindow cost).

(** A small-diamond candidate is either skipped or evaluated; when
    evaluated it lies in the box and a fresh cell of [checkMat] is marked. *)
Lemma eval_SDSP_Done (x y : Z) (k : nat) (off : Z * Z)
    (costs costs' : list Q) (cm cm' : umat) :
  eval_S x y k off (costs, cm) = Done (costs', cm') ->
  (costs' = costs /\ cm' = cm) \/
  (k <> 2%nat /\ in_box (x + off.1) (y + off.2) /\
   costs' = <[k := cost (y + off.2) (x + off.1)]> costs /\
   n_rows cm' = n_rows cm /\ n_cols cm' = n_cols cm /\
   length (mem cm') = length (mem cm) /\
   (unseen (mem cm') < unseen (mem cm))%nat).
Proof.
  unfold eval_SDSP.
  destruct (out_of_frame _ _ _ _ _); [intros [= <- <-]; now left|].
  destruct (k =? 2)%nat eqn:Hk; [intros [= <- <-]; now left|].
  destruct (out_of_box _ _ _ _ _) eqn:Hbox; [intros [= <- <-]; now left|].
  unfold umat_at.
  destruct (in_bounds cm _ _) eqn:Hb; [|discriminate].
  destruct (mem cm !! _) as [seen|] eqn:Hseen; simpl; [|discriminate].
  destruct (seen =? 1) eqn:Hs; [intros [= <- <-]; now left|].
  unfold umat_set. rewrite Hb. simpl. intros [= <- <-]. right.
  apply Nat.eqb_neq in Hk. apply Z.eqb_neq in Hs. apply out_of_box_false in Hbox.
  repeat split; auto; simpl; try apply Hbox.
  - now rewrite length_insert.
  - eapply unseen_mark_lt; eauto.
Qed.

(** With [checkMat] of the allocated shape the body never aborts. *)
Lemma eval_SDSP_total (x y : Z) (k : nat) (off : Z * Z) (costs : list Q) (cm : umat) :
  shaped side cm -> exists st', eval_S x y k off (costs, cm) = Done st'.
Proof.
  intros Hsh. unfold eval_SDSP.
  destruct (out_of_frame _ _ _ _ _); [eauto|].
  destruct (k =? 2)%nat; [eauto|].
  destruct (out_of_box _ _ _ _ _) eqn:Hbox; [eauto|].
  apply out_of_box_false in Hbox. destruct Hbox as [Hx Hy].
  assert (Hb : in_bounds cm (y - i + off.2 + motionWindow) (x - j + off.1 + motionWindow) = true).
  { apply in_bounds_spec. destruct Hsh as (-> & -> & _). lia. }
  unfold umat_at, umat_set. rewrite Hb.
  destruct (in_bounds_lookup _ _ _ _ Hsh Hb) as [seen ->]. simpl.
  destruct (seen =? 1); eauto.
Qed.

Lemma reset_costs_lookup (c : Q) (k : nat) (v : Q) :
  reset_costs c !! k = Some v -> (k = 2%nat /\ v = c) \/ (k <> 2%nat /\ v = costsScale).
Proof.
  do 6 (destruct k as [|k]; [simpl; intros [= <-]; (now left) || (now right) |]).
  discriminate.
Qed.

Lemma rows_inv_init (x y : Z) (c : Q) (cm0 : umat) :
  rows_inv x y c cm0 (reset_costs c, cm0).
Proof.
  unfold ARPS.rows_inv; simpl. repeat split; auto.
  intros k v Hk Hv. apply reset_costs_lookup in Hv as [[? _] | [_ ->]]; [contradiction | now left].
Qed.

Lemma rows_inv_step (x y : Z) (c : Q) (cm0 : umat) (k : nat) (off : Z * Z)
    (st st' : list Q * umat) :
  SDSP !! k = Some off -> rows_inv x y c cm0 st ->
  eval_S x y k off st = Done st' -> rows_inv x y c cm0 st'.
Proof.
  destruct st as [costs cm], st' as [costs' cm'].
  intros Hoff (H2 & Hlen & Hr & Hc & Hl & Hle & Hent) Hev.
  apply eval_SDSP_Done in Hev as [[-> ->] | (Hk & Hbox & -> & Hr' & Hc' & Hl' & Hlt)].
  { unfold ARPS.rows_inv; simpl; auto 10. }
  unfold ARPS.rows_inv; simpl in *. repeat split; try congruence; try lia.
  - rewrite list_lookup_insert_ne; auto.
  - now rewrite length_insert.
  - intros k' v Hk' Hv. destruct (decide (k' = k)) as [-> | Hne].
    + right. exists off. repeat split; auto; try apply Hbox. lia.
    + rewrite list_lookup_insert_ne in Hv by auto.
      destruct (Hent k' v Hk' Hv) as [-> | (off' & Ho & Hb & Hu)]; [now left|].
      right. exists off'. repeat split; auto; try apply Hb. lia.
Qed.

Lemma SDSP_rows_Done (x y : Z) (c : Q) (cm0 : umat) (st : list Q * umat) :
  for_rows (eval_S x y) 0 SDSP (reset_costs c, cm0) = Done st -> rows_inv x y c cm0 st.
Proof.
  apply (for_rows_inv _ (fun _ => rows_inv x y c cm0) SDSP 0 0); [|apply rows_inv_init].
  intros k e t t' Hk Ht Hev. simpl in Hev. eapply rows_inv_step; eauto.
Qed.

Lemma SDSP_rows_total (x y : Z) (c : Q) (cm0 : umat) :
  shaped side cm0 ->
  exists st, for_rows (eval_S x y) 0 SDSP (reset_costs c, cm0) = Done st /\
             rows_inv x y c cm0 st /\ shaped side st.2.
Proof.
  intros Hsh.
  destruct (for_rows_total (eval_S x y)
              (fun st => rows_inv x y c cm0 st /\ shaped side st.2) SDSP 0
              (reset_costs c, cm0)) as (st & Hst & Hinv & Hsh').
  - intros k e [costs cm] Hk [Hinv Hs]. simpl in *.
    destruct (eval_SDSP_total x y k e costs cm Hs) as (st' & Hst').
    exists st'. split; [exact Hst'|]. split; [eapply rows_inv_step; eauto|].
    destruct st' as [costs' cm'].
    apply eval_SDSP_Done in Hst' as [[-> ->] | (_ & _ & _ & Hr & Hc & Hl & _)]; [exact Hs|].
    destruct Hs as (? & ? & ?). unfold shaped; simpl. repeat split; congruence.
  - split; [apply rows_inv_init | exact Hsh].
  - eauto.
Qed.

Lemma SDSP_loop_S (fuel : nat) (s : search) :
  SDSP_loop Nx Ny blockSize motionWindow cost i j (S fuel) s =
  ('(costs, checkMat) ←
     for_rows (eval_S (sx s) (sy s)) 0 SDSP (reset_costs (scost s), schecked s);
   point ← checked (argmin costs);
   if (point =? 2)%nat then Done (sy s, sx s)
   else
     off ← checked (SDSP !! point);
     SDSP_loop Nx Ny blockSize motionWindow cost i j fuel
       (Search (sx s + off.1) (sy s + off.2) (vec_min costs) checkMat)).
Proof. reflexivity. Qed.

Lemma SDSP_loop_in_box (fuel : nat) :
  forall (s : search) (y x : Z),
    search_inv s ->
    SDSP_loop Nx Ny blockSize motionWindow cost i j fuel s = Done (y, x) ->
    in_box x y.
Proof.
  induction fuel as [|fuel IH]; intros s y x Hinv; [discriminate|].
  rewrite SDSP_loop_S.
  destruct (for_rows _ _ _ _) as [[costs cm]| |] eqn:Hrows; simpl; try discriminate.
  apply SDSP_rows_Done in Hrows. destruct Hrows as (H2 & Hlen & _ & _ & _ & _ & Hent).
  simpl in *.
  destruct (argmin costs) as [point|] eqn:Hpt; simpl; [|discriminate].
  apply argmin_Some in Hpt as (v & Hv & Hmin & Hfirst).
  destruct (point =? 2)%nat eqn:Hp.
  - apply Nat.eqb_eq in Hp. subst point. intros [= <- <-].
    rewrite H2 in Hv. injection Hv as <-.
    destruct (Qlt_le_dec (scost s) costsScale) as [Hlt | Hge]; [auto|].
    assert (Hnot : forall k w, (k < 2)%nat -> costs !! k = Some w -> w <> costsScale).
    { intros k w Hk Hw ->. specialize (Hfirst k _ Hk Hw).
      rewrite <- Hmin in Hfirst. apply (Qlt_not_le _ _ Hfirst Hge). }
    destruct (lookup_lt_is_Some_2 costs 0) as [w0 Hw0]; [lia|].
    destruct (lookup_lt_is_Some_2 costs 1) as [w1 Hw1]; [lia|].
    destruct (Hent 0%nat w0 ltac:(lia) Hw0) as [E | (off0 & Ho0 & Hb0 & _)];
      [exfalso; eapply (Hnot 0%nat); eauto|].
    destruct (Hent 1%nat w1 ltac:(lia) Hw1) as [E | (off1 & Ho1 & Hb1 & _)];
      [exfalso; eapply (Hnot 1%nat); eauto|].
    simpl in Ho0, Ho1. injection Ho0 as <-. injection Ho1 as <-.
    unfold ARPS.in_box in *. simpl in *. lia.
  - apply Nat.eqb_neq in Hp.
    destruct (SDSP !! point) as [off|] eqn:Hoff; simpl; [|discriminate].
    apply IH. unfold ARPS.search_inv; simpl. intros Hlt.
    destruct (Hent point v Hp Hv) as [-> | (off' & Ho & Hb & _)].
    + rewrite Hmin in Hlt. exfalso. apply (Qlt_irrefl _ Hlt).
    + rewrite Hoff in Ho. injection Ho as <-. exact Hb.
Qed.

(** *** The large diamond *)

Lemma eval_LDSP_Done (stepSize x y : Z) (k : nat) (off : Z * Z)
    (costs costs' : list Q) (cm cm' : umat) :
  eval_L stepSize x y k off (costs, cm) = Done (costs', cm') ->
  (costs' = costs /\ cm' = cm) \/
  (k <> 2%nat /\ in_bounds cm (off.2 + motionWindow) (off.1 + motionWindow) = true /\
   costs' = <[k := cost (y + off.2) (x + off.1)]> costs /\
   umat_set cm (off.2 + motionWindow) (off.1 + motionWindow) 1 = Done cm').
Proof.
  unfold eval_LDSP.
  destruct (out_of_frame _ _ _ _ _); [intros [= <- <-]; now left|].
  destruct ((k =? 2)%nat || (stepSize =? 0)) eqn:Hk; [intros [= <- <-]; now left|].
  destruct (umat_set cm _ _ 1) as [cm1| |] eqn:Hset; simpl; try discriminate.
  intros [= <- <-]. right. apply orb_false_iff in Hk as [Hk _]. apply Nat.eqb_neq in Hk.
  apply umat_set_Done in Hset as Hb. destruct Hb as [Hb _]. auto.
Qed.

Lemma ldsp_inv_step (rows : list (Z * Z)) (stepSize : Z) (k : nat) (off : Z * Z)
    (st st' : list Q * umat) :
  rows !! k = Some off -> ldsp_inv rows st ->
  eval_L stepSize j i k off st = Done st' -> ldsp_inv rows st'.
Proof.
  destruct st as [costs cm], st' as [costs' cm'].
  intros Hoff (H2 & Hlen & Hsh & Hun & Hent) Hev.
  apply eval_LDSP_Done in Hev as [[-> ->] | (Hk & Hb & -> & Hset)].
  { unfold ARPS.ldsp_inv; simpl; auto 10. }
  unfold ARPS.ldsp_inv; simpl in *. repeat split.
  - rewrite list_lookup_insert_ne; auto.
  - now rewrite length_insert.
  - eapply umat_set_shaped; eauto.
  - eapply umat_set_shaped; eauto.
  - eapply umat_set_shaped; eauto.
  - apply umat_set_Done in Hset as [_ ->]. simpl.
    eapply Nat.le_lt_trans; [apply unseen_mark_le | exact Hun].
  - intros k' v Hk' Hv. destruct (decide (k' = k)) as [-> | Hne].
    + right. exists off. split; [exact Hoff|].
      apply in_bounds_spec in Hb. destruct Hsh as (Hr & Hc & _). lia.
    + rewrite list_lookup_insert_ne in Hv by auto. auto.
Qed.

Lemma centre_marked (cm : umat) :
  umat_set (umat_zeros side side) motionWindow motionWindow 1 = Done cm ->
  shaped side cm /\ (unseen (mem cm) < Z.to_nat (side * side))%nat.
Proof.
  intros Hset. split; [eapply umat_set_shaped; [apply shaped_zeros | exact Hset]|].
  apply umat_set_Done in Hset as [Hb ->]. simpl.
  destruct (in_bounds_lookup side _ _ _ (shaped_zeros side) Hb) as [v Hv].
  pose proof Hv as Hv'. apply lookup_replicate_1 in Hv' as [-> _].
  eapply Nat.lt_le_trans; [eapply unseen_mark_lt; [exact Hv | lia]|].
  etransitivity; [apply unseen_le_length|]. simpl. now rewrite length_replicate.
Qed.

(** The first stage hands over a state whose kept cost, when below the
    reset value, was obtained inside the box. *)
Lemma LDSP_stage_Done (my mx : Z) (s : search) :
  LDSP_stage Nx Ny blockSize motionWindow cost i j my mx = Done s ->
  search_inv s /\ shaped side (schecked s) /\
  (unseen (mem (schecked s)) < Z.to_nat (side * side))%nat /\
  (scost s <= cost i j)%Q.
Proof.
  unfold LDSP_stage. rewrite side_u32.
  destruct (umat_set (umat_zeros side side) _ _ 1) as [cm0| |] eqn:Hset; simpl; try discriminate.
  apply centre_marked in Hset as [Hsh0 Hun0].
  destruct (step_size j my mx) as [[stepSize maxIdx] row5].
  destruct (for_rows _ _ _ _) as [[costs cm]| |] eqn:Hrows; simpl; try discriminate.
  apply (for_rows_inv _ (fun _ => ldsp_inv (LDSP stepSize row5)) _ 0 0) in Hrows.
  2:{ intros k e t t' Hk Ht Hev. apply lookup_take_Some in Hk as [Hk _].
      simpl in Hev. eapply ldsp_inv_step; eauto. }
  2:{ unfold ARPS.ldsp_inv; simpl. repeat split; auto; try apply Hsh0.
      intros k v Hk Hv. apply reset_costs_lookup in Hv as [[? _] | [_ ->]];
        [contradiction | now left]. }
  destruct Hrows as (H2 & Hlen & Hsh & Hun & Hent). simpl in *.
  destruct (argmin costs) as [point|] eqn:Hpt; simpl; [|discriminate].
  apply argmin_Some in Hpt as (v & Hv & Hmin & _).
  destruct (LDSP stepSize row5 !! point) as [off|] eqn:Hoff; simpl; [|discriminate].
  intros [= <-]. simpl. split; [|split; [exact Hsh | split; [exact Hun|]]].
  - unfold ARPS.search_inv; simpl. intros Hlt.
    destruct (decide (point = 2%nat)) as [-> | Hp].
    + simpl in Hoff. assert (Ho : off = (0, 0)) by congruence. subst off.
      unfold ARPS.in_box; simpl. lia.
    + destruct (Hent point v Hp Hv) as [-> | (off' & Ho & Hb1 & Hb2)].
      * rewrite Hmin in Hlt. exfalso. apply (Qlt_irrefl _ Hlt).
      * rewrite Hoff in Ho. injection Ho as <-. unfold ARPS.in_box. lia.
  - apply vec_min_le. eapply list_elem_of_lookup_2; eauto.
Qed.

(** *** Termination of the small-diamond loop *)

Lemma SDSP_loop_terminates (fuel : nat) :
  forall s : search,
    shaped side (schecked s) -> (scost s < costsScale)%Q ->
    (unseen (mem (schecked s)) < fuel)%nat ->
    exists y x, SDSP_loop Nx Ny blockSize motionWindow cost i j fuel s = Done (y, x).
Proof.
  induction fuel as [|fuel IH]; intros s Hsh Hc Hfuel; [lia|].
  rewrite SDSP_loop_S.
  destruct (SDSP_rows_total (sx s) (sy s) (scost s) (schecked s) Hsh)
    as ([costs cm] & -> & (H2 & Hlen & _ & _ & _ & Hle & Hent) & Hsh').
  simpl in *.
  destruct (argmin_is_Some costs) as [point Hpt].
  { intros ->. discriminate. }
  rewrite Hpt. simpl. apply argmin_Some in Hpt as (v & Hv & Hmin & _).
  destruct (point =? 2)%nat eqn:Hp; [eauto|]. apply Nat.eqb_neq in Hp.
  assert (Hm : (vec_min costs < costsScale)%Q).
  { eapply Qle_lt_trans; [|exact Hc]. apply vec_min_le.
    eapply list_elem_of_lookup_2; eauto. }
  destruct (Hent point v Hp Hv) as [-> | (off & Ho & _ & Hlt)].
  - rewrite Hmin in Hm. exfalso. apply (Qlt_irrefl _ Hm).
  - rewrite Ho. simpl. apply IH; simpl; auto. lia.
Qed.

(** With a search half-width of at least the initial step and a previous
    motion inside the box, the first stage completes. *)
Lemma LDSP_stage_total (my mx : Z) :
  2 <= motionWindow ->
  - motionWindow <= my <= motionWindow -> - motionWindow <= mx <= motionWindow ->
  exists s, LDSP_stage Nx Ny blockSize motionWindow cost i j my mx = Done s.
Proof.
  intros Hw Hmy Hmx. unfold LDSP_stage. rewrite side_u32.
  assert (Hb0 : in_bounds (umat_zeros side side) motionWindow motionWindow = true).
  { apply in_bounds_spec; simpl. lia. }
  unfold umat_set at 1. rewrite Hb0. simpl.
  set (cm0 := Umat _ _ _).
  assert (Hsh0 : shaped side cm0).
  { unfold shaped, cm0; simpl. rewrite length_insert, length_replicate. auto. }
  destruct (step_size j my mx) as [[stepSize maxIdx] row5] eqn:Hstep.
  assert (Hrows : forall k off, LDSP stepSize row5 !! k = Some off ->
            - motionWindow <= off.1 <= motionWindow /\ - motionWindow <= off.2 <= motionWindow).
  { unfold step_size in Hstep.
    assert (Hs : 0 <= stepSize <= motionWindow /\
                 - motionWindow <= row5.1 <= motionWindow /\
                 - motionWindow <= row5.2 <= motionWindow).
    { destruct (j =? 0); [injection Hstep as <- <- <-; simpl; lia|].
      destruct (Z.abs mx <=? Z.abs my) eqn:E;
        destruct (_ || _); injection Hstep as <- <- <-; simpl; lia. }
    intros k off. do 6 (destruct k as [|k]; [simpl; intros [= <-]; simpl; lia|]).
    discriminate. }
  destruct (for_rows_total (eval_L stepSize j i) (fun st => shaped side st.2 /\ length st.1 = 6%nat)
              (take maxIdx (LDSP stepSize row5)) 0 (reset_costs (cost i j), cm0))
    as ([costs cm] & -> & Hsh & Hlen); [| split; auto |].
  { intros k e [costs cm] Hk [Hs Hl]. apply lookup_take_Some in Hk as [Hk _].
    apply Hrows in Hk. simpl in *. unfold eval_LDSP.
    destruct (out_of_frame _ _ _ _ _); [eauto|].
    destruct (_ || _); [eauto|].
    assert (Hb : in_bounds cm (e.2 + motionWindow) (e.1 + motionWindow) = true).
    { apply in_bounds_spec. destruct Hs as (-> & -> & _). lia. }
    unfold umat_set. rewrite Hb. simpl. eexists. split; [reflexivity|]. simpl.
    split; [|now rewrite length_insert].
    destruct Hs as (? & ? & ?). unfold shaped; simpl. now rewrite length_insert. }
  simpl in *. destruct (argmin_is_Some costs) as [point Hpt].
  { intros ->. discriminate. }
  rewrite Hpt. simpl. apply argmin_Some in Hpt as (v & Hv & _).
  apply lookup_lt_Some in Hv. rewrite Hlen in Hv.
  destruct (lookup_lt_is_Some_2 (LDSP stepSize row5) point) as [off ->]; [simpl; lia|].
  simpl. eauto.
Qed.
End SearchFacts.

(** *** One patch *)

Lemma search_patch_in_box (Nx Ny blockSize motionWindow : Z) (cost : Z -> Z -> Q)
    (i j : Z) (fuel : nat) (my mx y x : Z) :
  - 2 ^ 31 <= i - motionWindow /\ i + motionWindow < 2 ^ 31 ->
  - 2 ^ 31 <= j - motionWindow /\ j + motionWindow < 2 ^ 31 ->
  0 <= motionWindow ->
  search_patch Nx Ny blockSize motionWindow cost i j fuel my mx = Done (y, x) ->
  Z.abs (y - i) <= motionWindow /\ Z.abs (x - j) <= motionWindow.
Proof.
  intros Hi Hj Hw. unfold search_patch.
  destruct (LDSP_stage _ _ _ _ _ _ _ _ _) as [s| |] eqn:Hs; simpl; try discriminate.
  apply LDSP_stage_Done in Hs as (Hinv & _); auto.
  intros Hloop. apply SDSP_loop_in_box in Hloop; auto.
  unfold ARPS.in_box in Hloop. lia.
Qed.

(** X2: with a search half-width of at least the initial step, a previous
    motion inside the box and every block cost below the reset value, the
    search of one patch makes no access outside [checkMat], needs at most
    [(2 * motionWindow + 1)^2] passes of the small-diamond loop, and ends
    inside the box. *)
Theorem search_patch_completes (Nx Ny blockSize motionWindow : Z) (cost : Z -> Z -> Q)
    (i j : Z) (fuel : nat) (my mx : Z) :
  - 2 ^ 31 <= i - motionWindow /\ i + motionWindow < 2 ^ 31 ->
  - 2 ^ 31 <= j - motionWindow /\ j + motionWindow < 2 ^ 31 ->
  2 <= motionWindow ->
  - motionWindow <= my <= motionWindow -> - motionWindow <= mx <= motionWindow ->
  (forall ver hor, (cost ver hor < costsScale)%Q) ->
  (Z.to_nat ((2 * motionWindow + 1) * (2 * motionWindow + 1)) <= fuel)%nat ->
  exists y x,
    search_patch Nx Ny blockSize motionWindow cost i j fuel my mx = Done (y, x) /\
    Z.abs (y - i) <= motionWindow /\ Z.abs (x - j) <= motionWindow.
Proof.
  intros Hi Hj Hw Hmy Hmx Hcost Hfuel.
  destruct (LDSP_stage_total Nx Ny blockSize motionWindow cost i j Hi Hj ltac:(lia) my mx
              Hw Hmy Hmx) as (s & Hs).
  pose proof Hs as Hs'.
  apply LDSP_stage_Done in Hs' as (_ & Hsh & Hun & Hc); [|assumption | assumption | lia].
  destruct (SDSP_loop_terminates Nx Ny blockSize motionWindow cost i j Hi Hj ltac:(lia)
              fuel s Hsh) as (y & x & Hrun).
  - eapply Qle_lt_trans; [exact Hc | apply Hcost].
  - lia.
  - exists y, x. assert (Hp : search_patch Nx Ny blockSize motionWindow cost i j fuel my mx
                            = Done (y, x)).
    { unfold search_patch. rewrite Hs. exact Hrun. }
    split; [exact Hp|]. apply (search_patch_in_box _ _ _ _ _ _ _ _ _ _ _ _ Hi Hj ltac:(lia) Hp).
Qed.

Lemma search_patch_completes_witness :
  exists y x,
    search_patch 6 6 2 2 cost_example 1 1 25 0 0 = Done (y, x) /\
    Z.abs (y - 1) <= 2 /\ Z.abs (x - 1) <= 2.
Proof.
  apply (search_patch_completes 6 6 2 2 cost_example 1 1 25 0 0); try lia.
  intros ver hor. unfold cost_example, costsScale.
  destruct (_ && _); [reflexivity|]. destruct (ver <? 3); reflexivity.
Defined.

(** *** All patches of one frame pair *)

Lemma vecSize_small (e : MotionEstimator) :
  well_sized e ->
  nxMbs e = Nx e - blockSize e /\ nyMbs e = Ny e - blockSize e /\
  vecSize e = (1 + nxMbs e) * (1 + nyMbs e) /\ vecSize e < 2 ^ 30.
Proof.
  intros (Hb & Hb' & Hx & Hy & _). unfold vecSize, nxMbs, nyMbs.
  rewrite !(u32_small (_ - _)) by lia. rewrite u32_small by nia. repeat split; nia.
Qed.

Lemma patch_position (e : MotionEstimator) (it : Z) :
  well_sized e -> 0 <= it < vecSize e ->
  0 <= patch_row e it < 2 ^ 15 /\ 0 <= patch_col e it < 2 ^ 15.
Proof.
  intros Hws Hit. destruct (vecSize_small e Hws) as (Hx & Hy & Hv & _).
  destruct Hws as (Hb & Hb' & HNx & HNy & _).
  unfold patch_row, patch_col. rewrite !(u32_small (1 + _)) by lia.
  assert (H1 : 0 <= it mod (1 + nxMbs e) < 1 + nxMbs e) by (apply Z.mod_pos_bound; lia).
  assert (H2 : 0 <= it / (1 + nyMbs e) < 1 + nxMbs e).
  { split; [apply Z.div_pos; lia | apply Z.div_lt_upper_bound; nia]. }
  rewrite !i32_small by lia. lia.
Qed.

Lemma icube_set_same (c : icube) (a b k v : Z) : icube_set c a b k v a b k = v.
Proof. unfold icube_set. now rewrite !Z.eqb_refl. Qed.

Lemma icube_set_other (c : icube) (a b k v a' b' k' : Z) :
  a' <> a \/ b' <> b \/ k' <> k -> icube_set c a b k v a' b' k' = c a' b' k'.
Proof.
  unfold icube_set. intros H.
  destruct (a' =? a) eqn:Ea; destruct (b' =? b) eqn:Eb; destruct (k' =? k) eqn:Ek; auto.
  apply Z.eqb_eq in Ea, Eb, Ek. lia.
Qed.

Lemma estimate_patch_Done (fuel : nat) (f1 f2 f3 : Z) (k : nat) (it : Z)
    (e0 e e' : MotionEstimator) :
  well_sized e0 -> same_setup e0 e -> 0 <= it < vecSize e0 ->
  estimate_patch fuel f1 f2 f3 k it e = Done e' ->
  same_setup e0 e' /\ recorded_in_box e0 e' f2 f3 it /\
  forall it', it' <> it ->
    (forall c f, motions e' c it' f = motions e c it' f) /\
    (forall c f, patches e' c it' f = patches e c it' f).
Proof.
  intros Hws (HA & HNx & HNy & HB & HW) Hit. unfold estimate_patch.
  destruct (search_patch _ _ _ _ _ _ _ _ _ _) as [[y x]| |] eqn:Hs; simpl; try discriminate.
  intros [= <-].
  assert (Hrow : patch_row e it = patch_row e0 it)
    by (unfold patch_row, nxMbs; congruence).
  assert (Hcol : patch_col e it = patch_col e0 it)
    by (unfold patch_col, nyMbs; congruence).
  destruct (patch_position e0 it Hws Hit) as [Hr Hc].
  destruct Hws as (_ & _ & _ & _ & Hmw).
  apply search_patch_in_box in Hs; [|rewrite ?HW, ?Hrow, ?Hcol; lia..].
  rewrite HW, Hrow, Hcol in Hs.
  split; [unfold same_setup; simpl; auto|]. split.
  - unfold recorded_in_box; simpl. rewrite Hrow, Hcol.
    rewrite (icube_set_other _ 1 it f3) by lia. rewrite !icube_set_same.
    rewrite (icube_set_other _ 1 it f2) by lia. rewrite !icube_set_same. lia.
  - intros it' Hne. simpl. split; intros c f; rewrite !icube_set_other by lia; reflexivity.
Qed.

(** C3: after [ARPSMotionEstimation] has processed a frame pair, every
    patch's displacement recorded in [motions] is at most [motionWindow] in
    each component, and the location recorded in [patches] lies in the box
    of half-width [motionWindow] centred on the patch's grid position. *)
Theorem ARPS_displacement_bounded (fuel : nat) (curFrame iARPS1 iARPS2 iARPS3 : Z)
    (e e' : MotionEstimator) :
  well_sized e ->
  ARPSMotionEstimation fuel curFrame iARPS1 iARPS2 iARPS3 e = Done e' ->
  forall it, 0 <= it < vecSize e -> recorded_in_box e e' iARPS2 iARPS3 it.
Proof.
  intros Hws Hrun. unfold ARPSMotionEstimation in Hrun.
  apply (for_rows_inv _
           (fun n ec => same_setup e ec /\
                        forall it, 0 <= it < Z.of_nat n -> recorded_in_box e ec iARPS2 iARPS3 it)
           _ 0 0) in Hrun.
  - destruct Hrun as [_ Hall]. intros it Hit. apply Hall.
    rewrite length_seqZ. simpl. lia.
  - intros k it ec ec' Hk [Hsame Hall] Hstep. simpl in *.
    apply lookup_seqZ in Hk as [-> Hk].
    destruct (estimate_patch_Done fuel iARPS1 iARPS2 iARPS3 k (0 + Z.of_nat k) e ec ec')
      as (Hsame' & Hrec & Hother); auto; [lia|].
    split; [exact Hsame'|]. intros it Hit.
    destruct (decide (it = 0 + Z.of_nat k)) as [-> | Hne]; [exact Hrec|].
    destruct (Hother it Hne) as [Hm Hp]. specialize (Hall it ltac:(lia)).
    unfold recorded_in_box in *. now rewrite !Hm, !Hp.
  - split; [unfold same_setup; auto | intros it Hit; simpl in Hit; lia].
Qed.

Lemma ARPS_displacement_bounded_witness :
  well_sized estimator_example /\
  exists e', ARPSMotionEstimation 25 0 0 1 0 estimator_example = Done e' /\
             forall it, 0 <= it < vecSize estimator_example ->
                        recorded_in_box estimator_example e' 1 0 it.
Proof.
  split; [unfold well_sized; simpl; lia|].
  destruct (ARPSMotionEstimation 25 0 0 1 0 estimator_example) as [e'| |] eqn:Hrun.
  - exists e'. split; [reflexivity|].
    apply (ARPS_displacement_bounded 25 0 0 1 0 estimator_example e');
      [unfold well_sized; simpl; lia | exact Hrun].
  - vm_compute in Hrun. discriminate.
  - vm_compute in Hrun. discriminate.
Defined.

(** C10: when every block cost lies below the reset value [costsScale],
    the small-diamond loop entered after the large-diamond stage stops
    within [(2 * motionWindow + 1)^2] passes: each pass that moves marks a
    cell of [checkMat] that was not marked before. *)
Theorem SDSP_loop_finite (Nx Ny blockSize motionWindow : Z) (cost : Z -> Z -> Q)
    (i j my mx : Z) (s : search) (fuel : nat) :
  - 2 ^ 31 <= i - motionWindow /\ i + motionWindow < 2 ^ 31 ->
  - 2 ^ 31 <= j - motionWindow /\ j + motionWindow < 2 ^ 31 ->
  0 <= motionWindow ->
  (forall ver hor, (cost ver hor < costsScale)%Q) ->
  LDSP_stage Nx Ny blockSize motionWindow cost i j my mx = Done s ->
  (Z.to_nat ((2 * motionWindow + 1) * (2 * motionWindow + 1)) <= fuel)%nat ->
  exists y x, SDSP_loop Nx Ny blockSize motionWindow cost i j fuel s = Done (y, x).
Proof.
  intros Hi Hj Hw Hcost Hs Hfuel.
  apply LDSP_stage_Done in Hs as (_ & Hsh & Hun & Hc); auto.
  apply SDSP_loop_terminates; auto.
  - eapply Qle_lt_trans; [exact Hc | apply Hcost].
  - lia.
Qed.

Lemma SDSP_loop_finite_witness :
  exists s, LDSP_stage 6 6 2 2 cost_example 1 1 0 0 = Done s /\
            exists y x, SDSP_loop 6 6 2 2 cost_example 1 1 25 s = Done (y, x).
Proof.
  destruct (LDSP_stage 6 6 2 2 cost_example 1 1 0 0) as [s| |] eqn:Hs.
  - exists s. split; [reflexivity|].
    apply (SDSP_loop_finite 6 6 2 2 cost_example 1 1 0 0 s 25); try lia.
    + intros ver hor. unfold cost_example, costsScale.
      destruct (_ && _); [reflexivity|]. destruct (ver <? 3); reflexivity.
    + exact Hs.
  - vm_compute in Hs. discriminate.
  - vm_compute in Hs. discriminate.
Defined.

(** *** The cost along the search *)

Section ValueFacts.
Variables (Nx Ny blockSize motionWindow : Z).
Variable cost : Z -> Z -> Q.
Variables (i j : Z).
Hypothesis i_range : - 2 ^ 31 <= i - motionWindow /\ i + motionWindow < 2 ^ 31.
Hypothesis j_range : - 2 ^ 31 <= j - motionWindow /\ j + motionWindow < 2 ^ 31.
Hypothesis window_nonneg : 0 <= motionWindow.
Hypothesis cost_below : forall ver hor, (cost ver hor < costsScale)%Q.

#[local] Abbreviation side := (2 * motionWindow + 1).
#[local] Abbreviation marked := (visited motionWindow i j).
#[local] Abbreviation eval_S := (eval_SDSP Nx Ny blockSize motionWindow cost i j).
#[local] Abbreviation eval_L := (eval_LDSP Nx Ny blockSize motionWindow cost).

(** What the body of the small-diamond loop does with a candidate. *)
Lemma eval_SDSP_cases (x y : Z) (k : nat) (off : Z * Z)
    (costs costs' : list Q) (cm cm' : umat) :
  eval_S x y k off (costs, cm) = Done (costs', cm') ->
  (costs' = costs /\ cm' = cm /\
   (k = 2%nat \/ ~ admissible Nx Ny blockSize motionWindow i j x y off \/
    marked cm (y + off.2) (x + off.1))) \/
  (k <> 2%nat /\ admissible Nx Ny blockSize motionWindow i j x y off /\
   costs' = <[k := cost (y + off.2) (x + off.1)]> costs /\
   umat_set cm (y + off.2 - i + motionWindow) (x + off.1 - j + motionWindow) 1 = Done cm').
Proof.
  unfold eval_SDSP, admissible, visited.
  replace (y - i + off.2 + motionWindow) with (y + off.2 - i + motionWindow) by lia.
  replace (x - j + off.1 + motionWindow) with (x + off.1 - j + motionWindow) by lia.
  destruct (out_of_frame _ _ _ _ _) eqn:Hf.
  { intros [= <- <-]. left. repeat split; auto. right. left. intros [? _]. discriminate. }
  destruct (k =? 2)%nat eqn:Hk.
  { intros [= <- <-]. left. apply Nat.eqb_eq in Hk. auto. }
  apply Nat.eqb_neq in Hk.
  destruct (out_of_box _ _ _ _ _) eqn:Hbox.
  { intros [= <- <-]. left. repeat split; auto. right. left. intros [_ Hb].
    unfold in_box in Hb. unfold out_of_box in Hbox.
    rewrite !i32_small in Hbox by lia.
    rewrite !orb_true_iff, !Z.ltb_lt in Hbox. lia. }
  apply out_of_box_false in Hbox; auto.
  destruct (umat_at cm _ _) as [seen| |] eqn:Hseen; simpl; try discriminate.
  destruct (seen =? 1) eqn:Hs.
  { intros [= <- <-]. apply Z.eqb_eq in Hs. subst seen. left. auto. }
  destruct (umat_set cm _ _ 1) as [cm1| |] eqn:Hset; simpl; try discriminate.
  intros [= <- <-]. right. auto.
Qed.


Lemma reset_costs_entry (c : Q) (k : nat) (v : Q) :
  reset_costs c !! k = Some v -> (k = 2%nat /\ v = c) \/ (k <> 2%nat /\ v = costsScale).
Proof.
  do 6 (destruct k as [|k]; [simpl; intros [= <-]; first [left; split; [reflexivity | reflexivity] | right; split; [discriminate | reflexivity]] |]).
  discriminate.
Qed.

Lemma marked_mono (M M' : umat) (r c ver hor : Z) :
  shaped side M -> umat_set M r c 1 = Done M' -> marked M ver hor -> marked M' ver hor.
Proof.
  unfold visited. intros Hsh Hset Hm.
  destruct (decide (ver - i + motionWindow = r /\ hor - j + motionWindow = c)) as [[<- <-] | Hne].
  - eapply umat_at_set_eq; eauto.
  - erewrite umat_at_set_ne; eauto. lia.
Qed.

Lemma marked_set_inv (M M' : umat) (ver0 hor0 ver hor : Z) :
  shaped side M ->
  umat_set M (ver0 - i + motionWindow) (hor0 - j + motionWindow) 1 = Done M' ->
  marked M' ver hor -> (ver = ver0 /\ hor = hor0) \/ marked M ver hor.
Proof.
  unfold visited. intros Hsh Hset Hm.
  destruct (decide (ver = ver0 /\ hor = hor0)) as [? | Hne]; [now left | right].
  erewrite umat_at_set_ne in Hm; eauto. lia.
Qed.

Lemma pass_val_init (rows : list (Z * Z)) (x y : Z) (c : Q) (cm0 : umat) :
  shaped side cm0 ->
  pass_val Nx Ny blockSize motionWindow cost i j rows x y c cm0 0 (reset_costs c, cm0).
Proof.
  intros Hsh. unfold pass_val; simpl. repeat split; auto; try apply Hsh.
  intros k v Hk Hv. apply reset_costs_entry in Hv as [[? _] | [_ ->]]; [contradiction | now left].
Qed.

(** One more row of a pattern: the candidate is left alone or evaluated,
    its cost stored at its index and its cell marked. *)
Lemma pass_val_step (rows : list (Z * Z)) (x y : Z) (c : Q) (cm0 : umat) (k : nat)
    (off : Z * Z) (costs costs' : list Q) (cm cm' : umat) :
  rows !! k = Some off -> (k < 6)%nat ->
  pass_val Nx Ny blockSize motionWindow cost i j rows x y c cm0 k (costs, cm) ->
  (costs' = costs /\ cm' = cm) \/
  (k <> 2%nat /\ out_of_frame Nx Ny blockSize (y + off.2) (x + off.1) = false /\
   costs' = <[k := cost (y + off.2) (x + off.1)]> costs /\
   umat_set cm (y + off.2 - i + motionWindow) (x + off.1 - j + motionWindow) 1 = Done cm') ->
  pass_val Nx Ny blockSize motionWindow cost i j rows x y c cm0 (S k) (costs', cm').
Proof.
  intros Hoff Hk6 (H2 & Hlen & Hsh & Hent & Hmk) [[-> ->] | (Hk & Hf & -> & Hset)];
    unfold pass_val; simpl in *.
  - split; [exact H2|]. split; [exact Hlen|]. split; [exact Hsh|]. split.
    + intros k' v Hk' Hv. destruct (Hent k' v Hk' Hv) as [-> | (Hlt & Hx)]; [now left | right].
      split; [lia | exact Hx].
    + intros ver hor Hm. destruct (Hmk ver hor Hm) as [? | (k' & Hlt & Hv)]; [now left | right].
      exists k'. split; [lia | exact Hv].
  - assert (Hsh' : shaped side cm') by (eapply umat_set_shaped; eauto).
    split; [rewrite list_lookup_insert_ne; auto|].
    split; [now rewrite length_insert|]. split; [exact Hsh'|]. split.
    + intros k' v Hk' Hv. destruct (decide (k' = k)) as [-> | Hne].
      * right. split; [lia|]. exists off. split; [exact Hoff|]. split; [|exact Hf].
        apply list_lookup_insert_Some in Hv as [(_ & <- & _) | (? & _)]; [reflexivity | contradiction].
      * rewrite list_lookup_insert_ne in Hv by auto.
        destruct (Hent k' v Hk' Hv) as [-> | (Hlt & Hx)]; [now left | right].
        split; [lia | exact Hx].
    + intros ver hor Hm.
      destruct (marked_set_inv cm cm' _ _ ver hor Hsh Hset Hm) as [[-> ->] | Hold].
      * right. exists k. split; [lia|]. apply list_lookup_insert_eq. lia.
      * destruct (Hmk ver hor Hold) as [? | (k' & Hlt & Hv)]; [now left | right].
        exists k'. split; [lia|]. rewrite list_lookup_insert_ne by lia. exact Hv.
Qed.

(** The small-diamond pass round [(x, y)]. *)
Lemma SDSP_pass_val (x y : Z) (c : Q) (cm0 : umat) (st : list Q * umat) :
  shaped side cm0 ->
  for_rows (eval_S x y) 0 SDSP (reset_costs c, cm0) = Done st ->
  pass_val Nx Ny blockSize motionWindow cost i j SDSP x y c cm0 5 st /\
  neighbours_marked Nx Ny blockSize motionWindow i j x y 5 st.
Proof.
  intros Hsh Hrun.
  apply (for_rows_inv _
           (fun n st => pass_val Nx Ny blockSize motionWindow cost i j SDSP x y c cm0 n st /\
                        neighbours_marked Nx Ny blockSize motionWindow i j x y n st)
           SDSP 0 0) in Hrun; [exact Hrun | | ].
  - intros k off [costs cm] [costs' cm'] Hoff [Hp Hn] Hev. simpl in Hev, Hp, Hn.
    assert (Hk6 : (k < 6)%nat) by (apply lookup_lt_Some in Hoff; simpl in Hoff; lia).
    pose proof Hp as (_ & _ & Hsh1 & _ & _). simpl in Hsh1.
    apply eval_SDSP_cases in Hev as [(-> & -> & Hwhy) | (Hk & Hadm & -> & Hset)]; simpl.
    + split; [eapply pass_val_step; eauto|].
      intros k' off' Hlt Hk' Hoff' Hadm. simpl.
      destruct (decide (k' = k)) as [-> | Hne]; [|apply (Hn k' off'); auto; lia].
      assert (off' = off) by congruence. subst off'.
      destruct Hwhy as [? | [? | ?]]; [contradiction | contradiction | assumption].
    + split.
      * eapply pass_val_step; eauto. right. split; [exact Hk|]. split; [apply Hadm|]. auto.
      * intros k' off' Hlt Hk' Hoff' Hadm'. simpl.
        destruct (decide (k' = k)) as [-> | Hne].
        -- assert (off' = off) by congruence. subst off'.
           unfold visited. eapply umat_at_set_eq; eauto.
        -- eapply marked_mono; eauto. apply (Hn k' off'); auto. lia.
  - split; [now apply pass_val_init|]. intros k off Hlt. lia.
Qed.

(** Where the small-diamond loop stops: inside the frame, at a block that
    costs no more than the co-located one nor than any admissible
    neighbour. *)
Lemma SDSP_loop_val (fuel : nat) :
  forall (s : search) (y x : Z),
    search_val Nx Ny blockSize motionWindow cost i j s ->
    SDSP_loop Nx Ny blockSize motionWindow cost i j fuel s = Done (y, x) ->
    out_of_frame Nx Ny blockSize y x = false /\
    (cost y x <= cost i j)%Q /\
    forall off, off ∈ SDSP -> admissible Nx Ny blockSize motionWindow i j x y off ->
                (cost y x <= cost (y + off.2) (x + off.1))%Q.
Proof.
  induction fuel as [|fuel IH]; intros s y x Hval; [discriminate|].
  rewrite SDSP_loop_S.
  destruct Hval as (Hc & Hf & Hle & Hsh & Hmk).
  destruct (for_rows _ _ _ _) as [[costs cm]| |] eqn:Hrows; simpl; try discriminate.
  apply SDSP_pass_val in Hrows as [(H2 & Hlen & Hsh' & Hent & Hmk') Hn]; [|exact Hsh].
  simpl in *.
  destruct (argmin costs) as [point|] eqn:Hpt; simpl; [|discriminate].
  apply argmin_Some in Hpt as (v & Hv & Hmin & _).
  assert (Hm2 : (vec_min costs <= scost s)%Q).
  { apply vec_min_le. eapply list_elem_of_lookup_2; eauto. }
  assert (Hseen : forall ver hor, marked cm ver hor -> (vec_min costs <= cost ver hor)%Q).
  { intros ver hor Hm. destruct (Hmk' ver hor Hm) as [Hold | (k & _ & Hk)].
    - eapply Qle_trans; [exact Hm2 | now apply Hmk].
    - apply vec_min_le. eapply list_elem_of_lookup_2; eauto. }
  destruct (point =? 2)%nat eqn:Hp.
  - apply Nat.eqb_eq in Hp. subst point. intros [= <- <-].
    rewrite H2 in Hv. injection Hv as <-.
    split; [exact Hf|]. split; [now rewrite <- Hc|].
    intros off Hin Hadm. rewrite <- Hc.
    apply list_elem_of_lookup_1 in Hin as [k Hk].
    destruct (decide (k = 2%nat)) as [-> | Hk2].
    + simpl in Hk. injection Hk as <-. simpl. rewrite !Z.add_0_r. rewrite Hc. apply Qle_refl.
    + rewrite Hmin. apply Hseen. apply (Hn k off); auto.
      apply lookup_lt_Some in Hk. simpl in Hk. lia.
  - apply Nat.eqb_neq in Hp.
    destruct (SDSP !! point) as [off|] eqn:Hoff; simpl; [|discriminate].
    apply IH. unfold search_val; simpl.
    assert (Hlt : (vec_min costs < costsScale)%Q).
    { eapply Qle_lt_trans; [exact Hm2|]. rewrite Hc. apply cost_below. }
    destruct (Hent point v Hp Hv) as [-> | (_ & off' & Ho & -> & Hfr)].
    { rewrite Hmin in Hlt. exfalso. apply (Qlt_irrefl _ Hlt). }
    rewrite Hoff in Ho. injection Ho as <-.
    split; [symmetry; exact Hmin|]. split; [exact Hfr|].
    split; [eapply Qle_trans; eauto|]. split; [exact Hsh'|]. exact Hseen.
Qed.

(** What the body of the large-diamond loop does with a candidate. *)
Lemma eval_LDSP_cases (stepSize : Z) (k : nat) (off : Z * Z)
    (costs costs' : list Q) (cm cm' : umat) :
  eval_L stepSize j i k off (costs, cm) = Done (costs', cm') ->
  (costs' = costs /\ cm' = cm) \/
  (k <> 2%nat /\ out_of_frame Nx Ny blockSize (i + off.2) (j + off.1) = false /\
   costs' = <[k := cost (i + off.2) (j + off.1)]> costs /\
   umat_set cm (i + off.2 - i + motionWindow) (j + off.1 - j + motionWindow) 1 = Done cm').
Proof.
  unfold eval_LDSP.
  replace (i + off.2 - i + motionWindow) with (off.2 + motionWindow) by lia.
  replace (j + off.1 - j + motionWindow) with (off.1 + motionWindow) by lia.
  destruct (out_of_frame _ _ _ _ _) eqn:Hf; [intros [= <- <-]; now left|].
  destruct ((k =? 2)%nat || (stepSize =? 0)) eqn:Hk; [intros [= <- <-]; now left|].
  destruct (umat_set cm _ _ 1) as [cm1| |] eqn:Hset; simpl; try discriminate.
  intros [= <- <-]. right. apply orb_false_iff in Hk as [Hk _]. apply Nat.eqb_neq in Hk. auto.
Qed.

Lemma zeros_unmarked (r c : Z) : umat_at (umat_zeros side side) r c <> Done 1.
Proof.
  unfold umat_at. destruct (in_bounds _ _ _); [|discriminate].
  simpl. destruct (replicate _ _ !! _) as [v|] eqn:Hv; simpl; [|discriminate].
  apply lookup_replicate_1 in Hv as [-> _]. discriminate.
Qed.

(** The large-diamond stage hands over a position whose cost is kept,
    inside the frame, no dearer than any candidate it evaluated. *)
Lemma LDSP_stage_val (my mx : Z) (s : search) :
  out_of_frame Nx Ny blockSize i j = false ->
  LDSP_stage Nx Ny blockSize motionWindow cost i j my mx = Done s ->
  search_val Nx Ny blockSize motionWindow cost i j s.
Proof.
  intros Hcentre. unfold LDSP_stage. rewrite (side_u32 motionWindow j) by auto.
  destruct (umat_set (umat_zeros side side) _ _ 1) as [cm0| |] eqn:Hset; simpl; try discriminate.
  pose proof Hset as Hsh0. apply centre_marked in Hsh0 as [Hsh0 _].
  assert (Hcm0 : forall ver hor, marked cm0 ver hor -> ver = i /\ hor = j).
  { intros ver hor Hm.
    replace motionWindow with (i - i + motionWindow) in Hset at 3 by lia.
    replace motionWindow with (j - j + motionWindow) in Hset at 4 by lia.
    destruct (marked_set_inv _ _ _ _ ver hor (shaped_zeros side) Hset Hm) as [? | Hz]; [assumption|].
    exfalso. eapply zeros_unmarked; eauto. }
  destruct (step_size j my mx) as [[stepSize maxIdx] row5].
  destruct (for_rows _ _ _ _) as [[costs cm]| |] eqn:Hrows; simpl; try discriminate.
  apply (for_rows_inv _
           (fun n st => pass_val Nx Ny blockSize motionWindow cost i j
                          (LDSP stepSize row5) j i (cost i j) cm0 n st) _ 0 0) in Hrows.
  2:{ intros k e [c1 m1] [c2 m2] Hk Ht Hev. apply lookup_take_Some in Hk as [Hk _].
      simpl in Hev, Ht. eapply pass_val_step; eauto.
      - apply lookup_lt_Some in Hk. simpl in Hk. lia.
      - apply eval_LDSP_cases in Hev. exact Hev. }
  2:{ now apply pass_val_init. }
  destruct Hrows as (H2 & Hlen & Hsh & Hent & Hmk). simpl in *.
  destruct (argmin costs) as [point|] eqn:Hpt; simpl; [|discriminate].
  apply argmin_Some in Hpt as (v & Hv & Hmin & _).
  destruct (LDSP stepSize row5 !! point) as [off|] eqn:Hoff; simpl; [|discriminate].
  intros [= <-]. unfold search_val; simpl.
  assert (Hm2 : (vec_min costs <= cost i j)%Q).
  { apply vec_min_le. eapply list_elem_of_lookup_2; eauto. }
  assert (Hpos : (vec_min costs == cost (i + off.2) (j + off.1))%Q /\
                 out_of_frame Nx Ny blockSize (i + off.2) (j + off.1) = false).
  { destruct (decide (point = 2%nat)) as [-> | Hp].
    - simpl in Hoff. injection Hoff as <-. simpl. rewrite !Z.add_0_r.
      rewrite H2 in Hv. injection Hv as <-. split; [symmetry; exact Hmin | exact Hcentre].
    - destruct (Hent point v Hp Hv) as [-> | (_ & off' & Ho & -> & Hfr)].
      + exfalso. apply (Qlt_irrefl costsScale). rewrite Hmin at 1.
        eapply Qle_lt_trans; [exact Hm2 | apply cost_below].
      + rewrite Hoff in Ho. injection Ho as <-. split; [symmetry; exact Hmin | exact Hfr]. }
  destruct Hpos as [Hp1 Hp2].
  split; [exact Hp1|]. split; [exact Hp2|]. split; [exact Hm2|]. split; [exact Hsh|].
  intros ver hor Hm. destruct (Hmk ver hor Hm) as [Hold | (k & _ & Hk)].
  - apply Hcm0 in Hold as [-> ->]. exact Hm2.
  - apply vec_min_le. eapply list_elem_of_lookup_2; eauto.
Qed.
End ValueFacts.

Lemma search_patch_val (Nx Ny blockSize motionWindow : Z) (cost : Z -> Z -> Q)
    (i j : Z) (fuel : nat) (my mx y x : Z) :
  - 2 ^ 31 <= i - motionWindow /\ i + motionWindow < 2 ^ 31 ->
  - 2 ^ 31 <= j - motionWindow /\ j + motionWindow < 2 ^ 31 ->
  0 <= motionWindow ->
  (forall ver hor, (cost ver hor < costsScale)%Q) ->
  out_of_frame Nx Ny blockSize i j = false ->
  search_patch Nx Ny blockSize motionWindow cost i j fuel my mx = Done (y, x) ->
  out_of_frame Nx Ny blockSize y x = false /\
  (cost y x <= cost i j)%Q /\
  forall off, off ∈ SDSP -> admissible Nx Ny blockSize motionWindow i j x y off ->
              (cost y x <= cost (y + off.2)%Z (x + off.1)%Z)%Q.
Proof.
  intros Hi Hj Hw Hcost Hc. unfold search_patch.
  destruct (LDSP_stage _ _ _ _ _ _ _ _ _) as [s| |] eqn:Hs; simpl; try discriminate.
  apply LDSP_stage_val in Hs; auto.
  intros Hloop. eapply SDSP_loop_val; eauto.
Qed.

Lemma search_patch_total_aux (Nx Ny blockSize motionWindow : Z) (cost : Z -> Z -> Q)
    (i j : Z) (fuel : nat) (my mx : Z) :
  - 2 ^ 31 <= i - motionWindow /\ i + motionWindow < 2 ^ 31 ->
  - 2 ^ 31 <= j - motionWindow /\ j + motionWindow < 2 ^ 31 ->
  2 <= motionWindow ->
  - motionWindow <= my <= motionWindow -> - motionWindow <= mx <= motionWindow ->
  (forall ver hor, (cost ver hor < costsScale)%Q) ->
  (Z.to_nat ((2 * motionWindow + 1) * (2 * motionWindow + 1)) <= fuel)%nat ->
  exists y x, search_patch Nx Ny blockSize motionWindow cost i j fuel my mx = Done (y, x).
Proof.
  intros Hi Hj Hw Hmy Hmx Hcost Hfuel.
  destruct (LDSP_stage_total Nx Ny blockSize motionWindow cost i j Hi Hj ltac:(lia) my mx
              Hw Hmy Hmx) as (s & Hs).
  pose proof Hs as Hs'.
  apply LDSP_stage_Done in Hs' as (_ & Hsh & Hun & Hc); [|assumption | assumption | lia].
  destruct (SDSP_loop_terminates Nx Ny blockSize motionWindow cost i j Hi Hj ltac:(lia)
              fuel s Hsh) as (y & x & Hrun).
  - eapply Qle_lt_trans; [exact Hc | apply Hcost].
  - lia.
  - exists y, x. unfold search_patch. rewrite Hs. exact Hrun.
Qed.

(** X3: when every block cost lies below the reset value and the patch's
    grid position lies inside the frame, the block the search returns lies
    inside the frame and costs no more than the co-located block. *)
Theorem search_patch_no_worse (Nx Ny blockSize motionWindow : Z) (cost : Z -> Z -> Q)
    (i j : Z) (fuel : nat) (my mx y x : Z) :
  - 2 ^ 31 <= i - motionWindow /\ i + motionWindow < 2 ^ 31 ->
  - 2 ^ 31 <= j - motionWindow /\ j + motionWindow < 2 ^ 31 ->
  0 <= motionWindow ->
  (forall ver hor, (cost ver hor < costsScale)%Q) ->
  out_of_frame Nx Ny blockSize i j = false ->
  search_patch Nx Ny blockSize motionWindow cost i j fuel my mx = Done (y, x) ->
  out_of_frame Nx Ny blockSize y x = false /\ (cost y x <= cost i j)%Q.
Proof.
  intros Hi Hj Hw Hcost Hc Hrun.
  destruct (search_patch_val _ _ _ _ _ _ _ _ _ _ _ _ Hi Hj Hw Hcost Hc Hrun) as (H1 & H2 & _).
  auto.
Qed.

Lemma cost_example_below (ver hor : Z) : (cost_example ver hor < costsScale)%Q.
Proof.
  unfold cost_example, costsScale.
  destruct (_ && _); [reflexivity|]. destruct (ver <? 3); reflexivity.
Qed.

Lemma search_patch_no_worse_witness :
  exists y x,
    search_patch 6 6 2 2 cost_example 1 1 25 0 0 = Done (y, x) /\
    out_of_frame 6 6 2 y x = false /\ (cost_example y x <= cost_example 1 1)%Q.
Proof.
  destruct (search_patch 6 6 2 2 cost_example 1 1 25 0 0) as [[y x]| |] eqn:Hrun.
  - exists y, x. split; [reflexivity|].
    apply (search_patch_no_worse 6 6 2 2 cost_example 1 1 25 0 0 y x);
      [lia | lia | lia | exact cost_example_below | reflexivity | exact Hrun].
  - vm_compute in Hrun. discriminate.
  - vm_compute in Hrun. discriminate.
Defined.

(** X4: under the same conditions the returned block is a local minimum
    of the cost: none of its four neighbours that lies inside the frame
    and inside the search box is cheaper. *)
Theorem search_patch_local_minimum (Nx Ny blockSize motionWindow : Z) (cost : Z -> Z -> Q)
    (i j : Z) (fuel : nat) (my mx y x : Z) :
  - 2 ^ 31 <= i - motionWindow /\ i + motionWindow < 2 ^ 31 ->
  - 2 ^ 31 <= j - motionWindow /\ j + motionWindow < 2 ^ 31 ->
  0 <= motionWindow ->
  (forall ver hor, (cost ver hor < costsScale)%Q) ->
  out_of_frame Nx Ny blockSize i j = false ->
  search_patch Nx Ny blockSize motionWindow cost i j fuel my mx = Done (y, x) ->
  forall off, off ∈ SDSP ->
    out_of_frame Nx Ny blockSize (y + off.2) (x + off.1) = false ->
    in_box motionWindow i j (x + off.1) (y + off.2) ->
    (cost y x <= cost (y + off.2)%Z (x + off.1)%Z)%Q.
Proof.
  intros Hi Hj Hw Hcost Hc Hrun off Hoff Hf Hb.
  destruct (search_patch_val _ _ _ _ _ _ _ _ _ _ _ _ Hi Hj Hw Hcost Hc Hrun) as (_ & _ & H).
  apply H; [exact Hoff | split; assumption].
Qed.

Lemma search_patch_local_minimum_witness :
  exists y x,
    search_patch 6 6 2 2 cost_example 1 1 25 0 0 = Done (y, x) /\
    forall off, off ∈ SDSP ->
      out_of_frame 6 6 2 (y + off.2) (x + off.1) = false ->
      in_box 2 1 1 (x + off.1) (y + off.2) ->
      (cost_example y x <= cost_example (y + off.2)%Z (x + off.1)%Z)%Q.
Proof.
  destruct (search_patch 6 6 2 2 cost_example 1 1 25 0 0) as [[y x]| |] eqn:Hrun.
  - exists y, x. split; [reflexivity|].
    apply (search_patch_local_minimum 6 6 2 2 cost_example 1 1 25 0 0 y x);
      [lia | lia | lia | exact cost_example_below | reflexivity | exact Hrun].
  - vm_compute in Hrun. discriminate.
  - vm_compute in Hrun. discriminate.
Defined.

(** *** The block cost *)


Lemma sumQ_bounds (l : list Q) :
  (forall x, x ∈ l -> (0 <= x <= 1)%Q) ->
  (0 <= foldr Qplus 0%Q l <= inject_Z (Z.of_nat (length l)))%Q.
Proof.
  induction l as [|a l IH]; intros Hl; simpl foldr.
  - simpl. split; apply Qle_refl.
  - assert (Ha : (0 <= a <= 1)%Q) by (apply Hl; left).
    destruct IH as [IH1 IH2]; [intros x Hx; apply Hl; now right|].
    change (length (a :: l)) with (S (length l)).
    rewrite Nat2Z.inj_succ. unfold Z.succ. rewrite inject_Z_plus.
    change (inject_Z 1) with 1%Q. lra.
Qed.

Lemma sumQ_nonneg (l : list Q) :
  (forall x, x ∈ l -> (0 <= x)%Q) -> (0 <= foldr Qplus 0%Q l)%Q.
Proof.
  induction l as [|a l IH]; intros Hl; simpl.
  - apply Qle_refl.
  - assert (Ha : (0 <= a)%Q) by (apply Hl; left).
    assert (0 <= foldr Qplus 0%Q l)%Q by (apply IH; intros x Hx; apply Hl; now right). lra.
Qed.

Lemma sumQ_zero (l : list Q) :
  (forall x, x ∈ l -> (0 <= x)%Q) ->
  foldr Qplus 0%Q l == 0%Q <-> forall x, x ∈ l -> x == 0%Q.
Proof.
  induction l as [|a l IH]; intros Hl; simpl.
  - split; [intros _ x Hx; inversion Hx | reflexivity].
  - assert (Ha : (0 <= a)%Q) by (apply Hl; left).
    assert (Hl' : forall x, x ∈ l -> (0 <= x)%Q) by (intros x Hx; apply Hl; now right).
    pose proof (sumQ_nonneg l Hl') as Hs. specialize (IH Hl'). split.
    + intros H x Hx. apply elem_of_cons in Hx as [-> | Hx]; [lra|].
      apply IH; [lra | exact Hx].
    + intros H. assert (a == 0%Q) by (apply H; left).
      assert (foldr Qplus 0%Q l == 0%Q) by (apply IH; intros x Hx; apply H; now right). lra.
Qed.

Lemma square_diff_range (a b : Q) :
  (0 <= a <= 1)%Q -> (0 <= b <= 1)%Q -> (0 <= (a - b) * (a - b) <= 1)%Q.
Proof.
  intros Ha Hb. destruct (Qlt_le_dec a b).
  - setoid_replace ((a - b) * (a - b))%Q with ((b - a) * (b - a))%Q using relation Qeq by ring. split.
    + apply Qmult_le_0_compat; lra.
    + setoid_replace 1%Q with (1 * 1)%Q using relation Qeq by ring. apply Qmult_le_compat_nonneg; split; lra.
  - split.
    + apply Qmult_le_0_compat; lra.
    + setoid_replace 1%Q with (1 * 1)%Q using relation Qeq by ring. apply Qmult_le_compat_nonneg; split; lra.
Qed.

Lemma square_nonneg (a : Q) : (0 <= a * a)%Q.
Proof.
  destruct (Qlt_le_dec a 0).
  - setoid_replace (a * a)%Q with ((- a) * (- a))%Q using relation Qeq by ring. apply Qmult_le_0_compat; lra.
  - apply Qmult_le_0_compat; lra.
Qed.

(** The squared differences [block_cost] adds up. *)
Lemma block_cost_squares (A : cube) (blockSize i j f1 ver hor f2 : Z) (x : Q) :
  x ∈ (c ← seqZ 0 blockSize; r ← seqZ 0 blockSize;
       [Qmult (Qminus (A (i + r) (j + c) f1) (A (ver + r) (hor + c) f2))
              (Qminus (A (i + r) (j + c) f1) (A (ver + r) (hor + c) f2))]) <->
  exists r c, 0 <= r < blockSize /\ 0 <= c < blockSize /\
    x = Qmult (Qminus (A (i + r) (j + c) f1) (A (ver + r) (hor + c) f2))
              (Qminus (A (i + r) (j + c) f1) (A (ver + r) (hor + c) f2)).
Proof.
  rewrite list_elem_of_bind. split.
  - intros (c & Hx & Hc). apply list_elem_of_bind in Hx as (r & Hx & Hr).
    apply list_elem_of_singleton in Hx. apply elem_of_seqZ in Hc, Hr.
    exists r, c. split; [lia|]. split; [lia | exact Hx].
  - intros (r & c & Hr & Hc & ->). exists c. split; [|apply elem_of_seqZ; lia].
    apply list_elem_of_bind. exists r. split; [apply list_elem_of_singleton; reflexivity|].
    apply elem_of_seqZ; lia.
Qed.

(** X5: a block cost is never negative, and for a window normalised to
    [[0, 1]] it is at most 1, far below the reset value. *)
Theorem block_cost_range (A : cube) (blockSize i j f1 ver hor f2 : Z) :
  1 <= blockSize ->
  (forall r c f, (0 <= A r c f <= 1)%Q) ->
  (0 <= block_cost A blockSize i j f1 ver hor f2 <= 1)%Q /\
  (block_cost A blockSize i j f1 ver hor f2 < costsScale)%Q.
Proof.
  intros Hb HA. unfold block_cost.
  set (squares := _ ≫= _).
  assert (Hsq : forall x, x ∈ squares -> (0 <= x <= 1)%Q).
  { intros x Hx. apply block_cost_squares in Hx as (r & c & _ & _ & ->).
    apply square_diff_range; apply HA. }
  assert (Hlen : length squares = Z.to_nat (blockSize * blockSize)).
  { unfold squares.
    rewrite (bind_length_const _ _ (Z.to_nat blockSize)).
    - rewrite length_seqZ. rewrite Z2Nat.inj_mul by lia. reflexivity.
    - intros c. rewrite (bind_length_const _ _ 1%nat) by reflexivity.
      rewrite length_seqZ. lia. }
  destruct (sumQ_bounds squares Hsq) as [H0 H1].
  rewrite Hlen, Z2Nat.id in H1 by nia.
  assert (Hn : (0 < inject_Z (blockSize * blockSize))%Q).
  { change 0%Q with (inject_Z 0). rewrite <- Zlt_Qlt. nia. }
  set (n := inject_Z (blockSize * blockSize)) in *.
  set (S := foldr Qplus 0%Q squares) in *.
  assert (Hq : (0 <= S * (1 / n) <= 1)%Q).
  { split.
    - apply Qmult_le_0_compat; [exact H0|]. apply Qle_shift_div_l; [exact Hn | lra].
    - apply Qle_trans with (n * (1 / n))%Q.
      + apply Qmult_le_compat_r; [exact H1|]. apply Qle_shift_div_l; [exact Hn | lra].
      + apply Qle_lteq. right. field. lra. }
  split; [exact Hq|]. eapply Qle_lt_trans; [apply Hq | reflexivity].
Qed.

Lemma block_cost_range_witness :
  (0 <= block_cost (fun _ _ _ => 1 # 2) 2 0 0 0 1 1 1 <= 1)%Q /\
  (block_cost (fun _ _ _ => 1 # 2) 2 0 0 0 1 1 1 < costsScale)%Q.
Proof.
  apply (block_cost_range (fun _ _ _ => 1 # 2) 2 0 0 0 1 1 1); [lia|].
  intros r c f. split; discriminate.
Defined.

(** X6: the cost is zero exactly when the candidate block and the
    reference block agree sample by sample. *)
Theorem block_cost_zero (A : cube) (blockSize i j f1 ver hor f2 : Z) :
  1 <= blockSize ->
  block_cost A blockSize i j f1 ver hor f2 == 0%Q <->
  forall r c, 0 <= r < blockSize -> 0 <= c < blockSize ->
    A (i + r) (j + c) f1 == A (ver + r) (hor + c) f2.
Proof.
  intros Hb. unfold block_cost.
  set (squares := _ ≫= _).
  assert (Hsq : forall x, x ∈ squares -> (0 <= x)%Q).
  { intros x Hx. apply block_cost_squares in Hx as (r & c & _ & _ & ->). apply square_nonneg. }
  assert (Hn : (0 < inject_Z (blockSize * blockSize))%Q).
  { change 0%Q with (inject_Z 0). rewrite <- Zlt_Qlt. nia. }
  set (n := inject_Z (blockSize * blockSize)) in *.
  assert (Hinv : (0 < 1 / n)%Q) by (apply Qlt_shift_div_l; [exact Hn | lra]).
  pose proof (sumQ_nonneg squares Hsq) as H0.
  pose proof (sumQ_zero squares Hsq) as Hz.
  set (S := foldr Qplus 0%Q squares) in *.
  split.
  - intros Hc r c Hr Hcc.
    assert (HS : S == 0%Q).
    { destruct (Qmult_integral _ _ Hc) as [? | E]; [assumption | lra]. }
    assert (Hx : Qmult (Qminus (A (i + r) (j + c) f1) (A (ver + r) (hor + c) f2))
                       (Qminus (A (i + r) (j + c) f1) (A (ver + r) (hor + c) f2)) == 0%Q).
    { apply Hz; [exact HS|]. apply block_cost_squares. exists r, c. auto. }
    destruct (Qmult_integral _ _ Hx) as [E | E]; lra.
  - intros Heq. assert (HS : S == 0%Q).
    { apply Hz. intros x Hx. apply block_cost_squares in Hx as (r & c & Hr & Hc & ->).
      specialize (Heq r c Hr Hc). rewrite Heq. ring. }
    rewrite HS. ring.
Qed.

Lemma block_cost_zero_witness :
  block_cost frames_example 2 0 0 0 0 0 0 == 0%Q <->
  forall r c, 0 <= r < 2 -> 0 <= c < 2 ->
    frames_example (0 + r) (0 + c) 0 == frames_example (0 + r) (0 + c) 0.
Proof. apply (block_cost_zero frames_example 2 0 0 0 0 0 0). lia. Defined.

Lemma out_of_frame_false (Nx Ny blockSize ver hor : Z) :
  1 <= blockSize -> - 2 ^ 31 <= ver < 2 ^ 31 -> - 2 ^ 31 <= hor < 2 ^ 31 ->
  Nx < 2 ^ 31 -> Ny < 2 ^ 31 -> blockSize < 2 ^ 31 ->
  out_of_frame Nx Ny blockSize ver hor = false <->
  0 <= ver /\ ver + blockSize <= Nx /\ 0 <= hor /\ hor + blockSize <= Ny.
Proof.
  intros Hb Hv Hh HNx HNy HB. unfold out_of_frame.
  rewrite !orb_false_iff, !Z.ltb_ge, !Z.leb_gt. split.
  - intros [[[H1 H2] H3] H4]. rewrite u32_small in H2, H4 by lia. lia.
  - intros (H1 & H2 & H3 & H4). rewrite !u32_small by lia. lia.
Qed.

Lemma grid_position (e : MotionEstimator) (it : Z) :
  well_sized e -> Nx e = Ny e -> 0 <= it < vecSize e ->
  0 <= patch_row e it <= Nx e - blockSize e /\ 0 <= patch_col e it <= Ny e - blockSize e.
Proof.
  intros Hws Hsq Hit. destruct (vecSize_small e Hws) as (Hx & Hy & Hv & _).
  destruct Hws as (Hb & Hb' & HNx & HNy & _).
  unfold patch_row, patch_col. rewrite !(u32_small (1 + _)) by lia.
  assert (H1 : 0 <= it mod (1 + nxMbs e) < 1 + nxMbs e) by (apply Z.mod_pos_bound; lia).
  assert (H2 : 0 <= it / (1 + nyMbs e) < 1 + nxMbs e).
  { split; [apply Z.div_pos; lia | apply Z.div_lt_upper_bound; nia]. }
  rewrite !i32_small by lia. lia.
Qed.

Lemma grid_in_frame (e : MotionEstimator) (it : Z) :
  well_sized e -> Nx e = Ny e -> 0 <= it < vecSize e ->
  out_of_frame (Nx e) (Ny e) (blockSize e) (patch_row e it) (patch_col e it) = false.
Proof.
  intros Hws Hsq Hit. destruct (grid_position e it Hws Hsq Hit) as [Hr Hc].
  destruct Hws as (Hb & Hb' & HNx & HNy & _).
  apply out_of_frame_false; lia.
Qed.

(** What the body of the loop over the patches does to the estimator. *)
Lemma estimate_patch_inv (fuel : nat) (f1 f2 f3 : Z) (k : nat) (it : Z)
    (e e' : MotionEstimator) :
  estimate_patch fuel f1 f2 f3 k it e = Done e' ->
  exists y x,
    search_patch (Nx e) (Ny e) (blockSize e) (motionWindow e) (patch_cost e f1 f2 it)
      (patch_row e it) (patch_col e it) fuel (motions e 0 it f3) (motions e 1 it f3)
    = Done (y, x) /\
    e' = Estimator (A e) (Nx e) (Ny e) (blockSize e) (motionWindow e)
           (icube_set (icube_set (patches e) 0 it f2 y) 1 it f2 x)
           (icube_set (icube_set (motions e) 0 it f3 (y - patch_row e it)) 1 it f3
              (x - patch_col e it)).
Proof.
  unfold estimate_patch.
  change (fun ver hor => block_cost (A e) (blockSize e) (patch_row e it) (patch_col e it)
                           f1 ver hor f2) with (patch_cost e f1 f2 it).
  destruct (search_patch _ _ _ _ _ _ _ _ _ _) as [[y x]| |] eqn:Hs; simpl; try discriminate.
  intros [= <-]. exists y, x. auto.
Qed.

Lemma patch_cost_below (e : MotionEstimator) (f1 f2 it ver hor : Z) :
  1 <= blockSize e -> normalised (A e) -> (patch_cost e f1 f2 it ver hor < costsScale)%Q.
Proof. intros Hb Hn. unfold patch_cost. now apply block_cost_range. Qed.

Lemma same_setup_position (e0 e : MotionEstimator) (it : Z) :
  same_setup e0 e -> patch_row e it = patch_row e0 it /\ patch_col e it = patch_col e0 it /\
                     vecSize e = vecSize e0 /\ patch_cost e = patch_cost e0.
Proof.
  intros (HA & HNx & HNy & HB & HW).
  unfold patch_row, patch_col, vecSize, nxMbs, nyMbs, patch_cost, patch_row, patch_col, nxMbs, nyMbs.
  rewrite HA, HNx, HNy, HB. auto.
Qed.

(** The effect of one patch's search on the record, for square frames of
    a normalised window. *)
Lemma estimate_patch_val (fuel : nat) (f1 f2 f3 : Z) (k : nat) (it : Z)
    (e0 e e' : MotionEstimator) :
  well_sized e0 -> Nx e0 = Ny e0 -> normalised (A e0) ->
  same_setup e0 e -> 0 <= it < vecSize e0 ->
  estimate_patch fuel f1 f2 f3 k it e = Done e' ->
  same_setup e0 e' /\
  recorded_in_box e0 e' f2 f3 it /\ recorded_in_frame e0 e' f2 it /\
  (patch_cost e0 f1 f2 it (patches e' 0%Z it f2) (patches e' 1%Z it f2)
     <= patch_cost e0 f1 f2 it (patch_row e0 it) (patch_col e0 it))%Q /\
  (forall c it' f, c <> 0 /\ c <> 1 \/ it' <> it \/ f <> f3 ->
     motions e' c it' f = motions e c it' f) /\
  (forall c it' f, c <> 0 /\ c <> 1 \/ it' <> it \/ f <> f2 ->
     patches e' c it' f = patches e c it' f).
Proof.
  intros Hws Hsq Hn Hsame Hit Hrun.
  destruct (same_setup_position e0 e it Hsame) as (Hrow & Hcol & Hvec & Hcost).
  pose proof Hsame as (HA & HNx & HNy & HB & HW).
  apply estimate_patch_inv in Hrun as (y & x & Hs & ->).
  rewrite Hrow, Hcol, Hcost, HNx, HNy, HB, HW in Hs.
  destruct (patch_position e0 it Hws Hit) as [Hr Hc].
  pose proof (grid_in_frame e0 it Hws Hsq Hit) as Hg.
  pose proof Hws as (Hb & Hb' & HNx' & HNy' & Hmw).
  assert (Hbox := Hs). apply search_patch_in_box in Hbox; [|lia..].
  apply search_patch_val in Hs as (Hf & Hle & _); [|lia | lia | lia | | exact Hg].
  2:{ intros ver hor. apply patch_cost_below; [lia | exact Hn]. }
  apply out_of_frame_false in Hf; [|lia..].
  split; [unfold same_setup; simpl; auto|].
  assert (P0 : forall c, icube_set (icube_set c 0 it f2 y) 1 it f2 x 0 it f2 = y).
  { intros c. rewrite (icube_set_other _ 1 it f2) by lia. apply icube_set_same. }
  assert (M0 : forall c v w, icube_set (icube_set c 0 it f3 v) 1 it f3 w 0 it f3 = v).
  { intros c v w. rewrite (icube_set_other _ 1 it f3) by lia. apply icube_set_same. }
  split; [|split; [|split; [|split]]].
  - unfold recorded_in_box; simpl. rewrite Hrow, Hcol, P0, M0, !icube_set_same. lia.
  - unfold recorded_in_frame; simpl. rewrite P0, !icube_set_same. lia.
  - simpl. rewrite P0, !icube_set_same. exact Hle.
  - intros c it' f Hne. simpl. rewrite !icube_set_other by lia. reflexivity.
  - intros c it' f Hne. simpl. rewrite !icube_set_other by lia. reflexivity.
Qed.

(** The search of one patch completes when the search half-width is at
    least the initial step and the stored motion lies in the box. *)
Lemma estimate_patch_total (fuel : nat) (f1 f2 f3 : Z) (k : nat) (it : Z)
    (e0 e : MotionEstimator) :
  well_sized e0 -> normalised (A e0) -> 2 <= motionWindow e0 ->
  same_setup e0 e -> 0 <= it < vecSize e0 ->
  Z.abs (motions e 0 it f3) <= motionWindow e0 ->
  Z.abs (motions e 1 it f3) <= motionWindow e0 ->
  (Z.to_nat ((2 * motionWindow e0 + 1) * (2 * motionWindow e0 + 1)) <= fuel)%nat ->
  exists e', estimate_patch fuel f1 f2 f3 k it e = Done e'.
Proof.
  intros Hws Hn Hw Hsame Hit Hm0 Hm1 Hfuel.
  destruct (same_setup_position e0 e it Hsame) as (Hrow & Hcol & Hvec & Hcost).
  pose proof Hsame as (HA & HNx & HNy & HB & HW).
  destruct (patch_position e0 it Hws Hit) as [Hr Hc].
  pose proof Hws as (Hb & Hb' & HNx' & HNy' & Hmw).
  destruct (search_patch_total_aux (Nx e0) (Ny e0) (blockSize e0) (motionWindow e0)
              (patch_cost e0 f1 f2 it) (patch_row e0 it) (patch_col e0 it) fuel
              (motions e 0 it f3) (motions e 1 it f3)) as (y & x & Hs); try lia.
  { intros ver hor. apply patch_cost_below; [lia | exact Hn]. }
  unfold estimate_patch.
  change (fun ver hor => block_cost (A e) (blockSize e) (patch_row e it) (patch_col e it)
                           f1 ver hor f2) with (patch_cost e f1 f2 it).
  rewrite Hrow, Hcol, Hcost, HNx, HNy, HB, HW, Hs. simpl. eauto.
Qed.

(** One call: what it records for every patch and what it leaves alone. *)
Lemma ARPS_call_val (fuel : nat) (cf f1 f2 f3 : Z) (e e' : MotionEstimator) :
  well_sized e -> Nx e = Ny e -> normalised (A e) ->
  ARPSMotionEstimation fuel cf f1 f2 f3 e = Done e' ->
  same_setup e e' /\
  (forall it, 0 <= it < vecSize e ->
     recorded_in_box e e' f2 f3 it /\ recorded_in_frame e e' f2 it /\
     (patch_cost e f1 f2 it (patches e' 0%Z it f2) (patches e' 1%Z it f2)
        <= patch_cost e f1 f2 it (patch_row e it) (patch_col e it))%Q) /\
  (forall c it f, ~ written_by_call e f3 c it f -> motions e' c it f = motions e c it f) /\
  (forall c it f, ~ written_by_call e f2 c it f -> patches e' c it f = patches e c it f).
Proof.
  intros Hws Hsq Hn Hrun. unfold ARPSMotionEstimation in Hrun.
  apply (for_rows_inv _
           (fun n ec =>
              same_setup e ec /\
              (forall it, 0 <= it < Z.of_nat n ->
                 recorded_in_box e ec f2 f3 it /\ recorded_in_frame e ec f2 it /\
                 (patch_cost e f1 f2 it (patches ec 0%Z it f2) (patches ec 1%Z it f2)
                    <= patch_cost e f1 f2 it (patch_row e it) (patch_col e it))%Q) /\
              (forall c it f, ~ ((c = 0 \/ c = 1) /\ 0 <= it < Z.of_nat n /\ f = f3) ->
                 motions ec c it f = motions e c it f) /\
              (forall c it f, ~ ((c = 0 \/ c = 1) /\ 0 <= it < Z.of_nat n /\ f = f2) ->
                 patches ec c it f = patches e c it f))
           _ 0 0) in Hrun.
  - destruct Hrun as (Hs & Hall & Hm & Hp). rewrite length_seqZ in *. simpl in *.
    assert (Hv : 0 <= vecSize e) by (unfold vecSize, u32; apply Z.mod_pos_bound; lia).
    rewrite Z2Nat.id in * by lia. unfold written_by_call. auto.
  - intros k it ec ec' Hk (Hsame & Hall & Hm & Hp) Hstep. simpl in *.
    apply lookup_seqZ in Hk as [-> Hk].
    destruct (estimate_patch_val fuel f1 f2 f3 k (0 + Z.of_nat k) e ec ec')
      as (Hsame' & Hbox & Hfr & Hle & Hm' & Hp'); auto; [lia|].
    split; [exact Hsame'|]. split; [|split].
    + intros it Hit. destruct (decide (it = 0 + Z.of_nat k)) as [-> | Hne]; [auto|].
      destruct (Hall it ltac:(lia)) as (Hb1 & Hf1 & Hl1).
      unfold recorded_in_box, recorded_in_frame in *.
      rewrite !Hm', !Hp' by lia. auto.
    + intros c it f Hnot. rewrite Hm' by lia. apply Hm. lia.
    + intros c it f Hnot. rewrite Hp' by lia. apply Hp. lia.
  - split; [unfold same_setup; auto|]. split; [intros it Hit; simpl in Hit; lia|]. auto.
Qed.

Lemma ARPS_call_total (fuel : nat) (cf f1 f2 f3 : Z) (e : MotionEstimator) :
  well_sized e -> normalised (A e) -> 2 <= motionWindow e ->
  motions_in_box e f3 ->
  (Z.to_nat ((2 * motionWindow e + 1) * (2 * motionWindow e + 1)) <= fuel)%nat ->
  exists e', ARPSMotionEstimation fuel cf f1 f2 f3 e = Done e'.
Proof.
  intros Hws Hn Hw Hbox Hfuel. unfold ARPSMotionEstimation.
  destruct (for_rows_total (estimate_patch fuel f1 f2 f3)
              (fun ec => same_setup e ec /\
                         forall it, 0 <= it < vecSize e ->
                           Z.abs (motions ec 0 it f3) <= motionWindow e /\
                           Z.abs (motions ec 1 it f3) <= motionWindow e)
              (seqZ 0 (vecSize e)) 0 e) as (e' & He' & _).
  - intros k it ec Hk [Hsame Hin]. simpl. apply lookup_seqZ in Hk as [-> Hk].
    destruct (Hin (0 + Z.of_nat k) ltac:(lia)) as [H0 H1].
    destruct (estimate_patch_total fuel f1 f2 f3 k (0 + Z.of_nat k) e ec) as (ec' & Hec');
      auto; [lia|].
    exists ec'. split; [exact Hec'|].
    destruct (estimate_patch_Done fuel f1 f2 f3 k (0 + Z.of_nat k) e ec ec')
      as (Hsame' & Hrec & Hother); auto; [lia|].
    split; [exact Hsame'|]. intros it Hit.
    destruct (decide (it = 0 + Z.of_nat k)) as [-> | Hne].
    + destruct Hrec as (? & ? & _). auto.
    + destruct (Hother it Hne) as [Hm _]. rewrite !Hm. auto.
  - split; [unfold same_setup; auto | exact Hbox].
  - eauto.
Qed.

(** X7: for a square, normalised window, every location a completed call
    records keeps the block inside the frame, and the block found there
    matches the reference block at least as well as the co-located one. *)
Theorem ARPS_located_in_frame (fuel : nat) (curFrame iARPS1 iARPS2 iARPS3 : Z)
    (e e' : MotionEstimator) :
  well_sized e -> Nx e = Ny e -> normalised (A e) ->
  ARPSMotionEstimation fuel curFrame iARPS1 iARPS2 iARPS3 e = Done e' ->
  forall it, 0 <= it < vecSize e ->
    recorded_in_frame e e' iARPS2 it /\
    (patch_cost e iARPS1 iARPS2 it (patches e' 0%Z it iARPS2) (patches e' 1%Z it iARPS2)
       <= patch_cost e iARPS1 iARPS2 it (patch_row e it) (patch_col e it))%Q.
Proof.
  intros Hws Hsq Hn Hrun it Hit.
  destruct (ARPS_call_val fuel curFrame iARPS1 iARPS2 iARPS3 e e' Hws Hsq Hn Hrun)
    as (_ & Hall & _).
  destruct (Hall it Hit) as (_ & Hf & Hle). auto.
Qed.

(** X8: with a search half-width of at least 2, stored motions inside the
    box and enough passes allowed, a call on a square, normalised window
    runs to completion, no element access being out of range, and every
    location it records lies in the search box and keeps its block inside
    the frame. *)
Theorem ARPSMotionEstimation_completes (fuel : nat) (curFrame iARPS1 iARPS2 iARPS3 : Z)
    (e : MotionEstimator) :
  well_sized e -> Nx e = Ny e -> normalised (A e) -> 2 <= motionWindow e ->
  motions_in_box e iARPS3 ->
  (Z.to_nat ((2 * motionWindow e + 1) * (2 * motionWindow e + 1)) <= fuel)%nat ->
  exists e', ARPSMotionEstimation fuel curFrame iARPS1 iARPS2 iARPS3 e = Done e' /\
             forall it, 0 <= it < vecSize e ->
               recorded_in_box e e' iARPS2 iARPS3 it /\ recorded_in_frame e e' iARPS2 it.
Proof.
  intros Hws Hsq Hn Hw Hbox Hfuel.
  destruct (ARPS_call_total fuel curFrame iARPS1 iARPS2 iARPS3 e Hws Hn Hw Hbox Hfuel)
    as (e' & Hrun).
  exists e'. split; [exact Hrun|]. intros it Hit.
  destruct (ARPS_call_val fuel curFrame iARPS1 iARPS2 iARPS3 e e' Hws Hsq Hn Hrun)
    as (_ & Hall & _).
  destruct (Hall it Hit) as (Hb & Hf & _). auto.
Qed.

Lemma binary_frames_normalised : normalised binary_frames.
Proof.
  intros r c f. unfold binary_frames.
  pose proof (Z.mod_pos_bound (r + 2 * c + f * r) 2 ltac:(lia)) as H.
  split; [change 0%Q with (inject_Z 0) | change 1%Q with (inject_Z 1)];
    rewrite <- Zle_Qle; lia.
Qed.

Lemma ARPS_located_in_frame_witness :
  exists e', ARPSMotionEstimation 25 0 0 1 0 binary_estimator = Done e' /\
    forall it, 0 <= it < vecSize binary_estimator ->
      recorded_in_frame binary_estimator e' 1 it /\
      (patch_cost binary_estimator 0%Z 1%Z it (patches e' 0%Z it 1%Z) (patches e' 1%Z it 1%Z)
         <= patch_cost binary_estimator 0%Z 1%Z it (patch_row binary_estimator it)
              (patch_col binary_estimator it))%Q.
Proof.
  destruct (ARPSMotionEstimation 25 0 0 1 0 binary_estimator) as [e'| |] eqn:Hrun.
  - exists e'. split; [reflexivity|].
    apply (ARPS_located_in_frame 25 0 0 1 0 binary_estimator e');
      [unfold well_sized; simpl; lia | reflexivity | exact binary_frames_normalised | exact Hrun].
  - vm_compute in Hrun. discriminate.
  - vm_compute in Hrun. discriminate.
Defined.

Lemma ARPSMotionEstimation_completes_witness :
  exists e', ARPSMotionEstimation 25 0 0 1 0 binary_estimator = Done e' /\
             forall it, 0 <= it < vecSize binary_estimator ->
               recorded_in_box binary_estimator e' 1 0 it /\
               recorded_in_frame binary_estimator e' 1 it.
Proof.
  apply (ARPSMotionEstimation_completes 25 0 0 1 0 binary_estimator).
  - unfold well_sized; simpl; lia.
  - reflexivity.
  - exact binary_frames_normalised.
  - simpl; lia.
  - intros it _. simpl. lia.
  - vm_compute. lia.
Defined.

(** *** Degenerate searches *)

Lemma for_rows_cons {S E : Type} (body : nat -> E -> S -> outcome S)
    (k : nat) (e : E) (rest : list E) (s : S) :
  for_rows body k (e :: rest) s = (s' ← body k e s; for_rows body (Datatypes.S k) rest s').
Proof. reflexivity. Qed.

Lemma out_of_frame_negative (Nx Ny blockSize ver hor : Z) :
  ver < 0 \/ hor < 0 -> out_of_frame Nx Ny blockSize ver hor = true.
Proof.
  intros H. unfold out_of_frame. rewrite !orb_true_iff, !Z.ltb_lt. lia.
Qed.

(** X9: a search half-width of 0 or 1 is too small for the fixed step of
    2 used in the first column: on a frame at least two pixels wider than
    a block, the first patch's large diamond marks a cell outside
    [checkMat] and the whole call aborts on the checked access. *)
Theorem ARPS_small_window_aborts (fuel : nat) (curFrame iARPS1 iARPS2 iARPS3 : Z)
    (e : MotionEstimator) :
  well_sized e -> motionWindow e <= 1 -> blockSize e + 2 <= Ny e ->
  ARPSMotionEstimation fuel curFrame iARPS1 iARPS2 iARPS3 e = OutOfBounds.
Proof.
  intros Hws Hw Hwide. destruct (vecSize_small e Hws) as (Hx & Hy & Hv & _).
  pose proof Hws as (Hb & Hb' & HNx & HNy & Hmw).
  unfold ARPSMotionEstimation.
  assert (Hpos : 0 < vecSize e) by (rewrite Hv; nia).
  rewrite seqZ_cons by lia. rewrite for_rows_cons.
  assert (Hpatch : estimate_patch fuel iARPS1 iARPS2 iARPS3 0 0 e = OutOfBounds);
    [|rewrite Hpatch; reflexivity].
  unfold estimate_patch.
  assert (Hrow : patch_row e 0 = 0) by (unfold patch_row; rewrite Z.mod_0_l; [reflexivity | rewrite u32_small; lia]).
  assert (Hcol : patch_col e 0 = 0) by (unfold patch_col; rewrite Z.div_0_l; [reflexivity | rewrite u32_small; lia]).
  rewrite Hrow, Hcol.
  set (cost := fun ver hor : Z => block_cost _ _ _ _ _ ver hor _).
  assert (Hs : search_patch (Nx e) (Ny e) (blockSize e) (motionWindow e) cost 0 0 fuel
                 (motions e 0 0 iARPS3) (motions e 1 0 iARPS3) = OutOfBounds);
    [|rewrite Hs; reflexivity].
  unfold search_patch.
  assert (Hl : LDSP_stage (Nx e) (Ny e) (blockSize e) (motionWindow e) cost 0 0
                 (motions e 0 0 iARPS3) (motions e 1 0 iARPS3) = OutOfBounds);
    [|rewrite Hl; reflexivity].
  unfold LDSP_stage. rewrite (u32_small (2 * motionWindow e + 1)) by lia.
  set (side := 2 * motionWindow e + 1).
  assert (Hb0 : in_bounds (umat_zeros side side) (motionWindow e) (motionWindow e) = true).
  { apply in_bounds_spec; simpl. unfold side. lia. }
  unfold umat_set at 1. rewrite Hb0. cbn [mbind outcome_bind].
  set (cm0 := Umat _ _ _).
  change (step_size 0 (motions e 0 0 iARPS3) (motions e 1 0 iARPS3)) with (2, 5%nat, (0, 0)).
  cbn iota beta.
  change (take 5 (LDSP 2 (0, 0))) with [(0, -2); (-2, 0); (0, 0); (2, 0); (0, 2)].
  assert (H0 : eval_LDSP (Nx e) (Ny e) (blockSize e) (motionWindow e) cost 2 0 0 0 (0, -2)
                 (reset_costs (cost 0 0), cm0) = Done (reset_costs (cost 0 0), cm0)).
  { unfold eval_LDSP. cbn [fst snd]. rewrite out_of_frame_negative by lia. reflexivity. }
  rewrite for_rows_cons, H0. cbn [mbind outcome_bind].
  assert (H1 : eval_LDSP (Nx e) (Ny e) (blockSize e) (motionWindow e) cost 2 0 0 1 (-2, 0)
                 (reset_costs (cost 0 0), cm0) = Done (reset_costs (cost 0 0), cm0)).
  { unfold eval_LDSP. cbn [fst snd]. rewrite out_of_frame_negative by lia. reflexivity. }
  rewrite for_rows_cons, H1. cbn [mbind outcome_bind].
  assert (H2 : eval_LDSP (Nx e) (Ny e) (blockSize e) (motionWindow e) cost 2 0 0 2 (0, 0)
                 (reset_costs (cost 0 0), cm0) = Done (reset_costs (cost 0 0), cm0)).
  { unfold eval_LDSP. cbn [fst snd]. destruct (out_of_frame _ _ _ _ _); reflexivity. }
  rewrite for_rows_cons, H2. cbn [mbind outcome_bind].
  assert (H3 : eval_LDSP (Nx e) (Ny e) (blockSize e) (motionWindow e) cost 2 0 0 3 (2, 0)
                 (reset_costs (cost 0 0), cm0) = OutOfBounds).
  { unfold eval_LDSP. cbn [fst snd].
    assert (Hf : out_of_frame (Nx e) (Ny e) (blockSize e) (0 + 0) (0 + 2) = false)
      by (apply out_of_frame_false; lia).
    rewrite Hf. cbn [Nat.eqb orb Z.eqb].
    assert (Hout : in_bounds cm0 (0 + motionWindow e) (2 + motionWindow e) = false).
    { apply not_true_iff_false. rewrite in_bounds_spec. unfold cm0, side. simpl. lia. }
    unfold umat_set. rewrite Hout. reflexivity. }
  rewrite for_rows_cons, H3. reflexivity.
Qed.

Lemma ARPS_small_window_aborts_witness :
  ARPSMotionEstimation 25 0 0 1 0 narrow_estimator = OutOfBounds.
Proof.
  apply (ARPS_small_window_aborts 25 0 0 1 0 narrow_estimator);
    [unfold well_sized; simpl; lia | simpl; lia | simpl; lia].
Defined.

Lemma eval_LDSP_still (Nx Ny blockSize motionWindow : Z) (cost : Z -> Z -> Q)
    (x y : Z) (k : nat) (off : Z * Z) (st : list Q * umat) :
  eval_LDSP Nx Ny blockSize motionWindow cost 0 x y k off st = Done st.
Proof.
  unfold eval_LDSP. destruct st as [costs cm].
  destruct (out_of_frame _ _ _ _ _); [reflexivity|].
  rewrite Z.eqb_refl, orb_true_r. reflexivity.
Qed.

Lemma for_rows_still {S E : Type} (body : nat -> E -> S -> outcome S) (rows : list E) :
  (forall k e s, body k e s = Done s) -> forall k s, for_rows body k rows s = Done s.
Proof.
  intros Hb. induction rows as [|e rows IH]; intros k s; [reflexivity|].
  rewrite for_rows_cons, Hb. apply IH.
Qed.

(** X10: a patch outside the first column whose stored motion is zero
    gets a step size of 0, so the large-diamond stage evaluates no
    candidate at all: it hands the grid position over with only the centre
    of [checkMat] marked. *)
Theorem LDSP_stage_zero_motion (Nx Ny blockSize motionWindow : Z) (cost : Z -> Z -> Q)
    (i j : Z) :
  j <> 0 -> 0 <= motionWindow < 2 ^ 31 ->
  exists s,
    LDSP_stage Nx Ny blockSize motionWindow cost i j 0 0 = Done s /\
    sx s = j /\ sy s = i /\
    umat_set (umat_zeros (2 * motionWindow + 1) (2 * motionWindow + 1))
      motionWindow motionWindow 1 = Done (schecked s) /\
    ((cost i j <= costsScale)%Q -> scost s == cost i j).
Proof.
  intros Hj Hw. unfold LDSP_stage. rewrite (u32_small (2 * motionWindow + 1)) by lia.
  set (side := 2 * motionWindow + 1).
  assert (Hb0 : in_bounds (umat_zeros side side) motionWindow motionWindow = true).
  { apply in_bounds_spec; simpl. unfold side. lia. }
  unfold umat_set. rewrite Hb0. cbn [mbind outcome_bind].
  set (cm0 := Umat _ _ _).
  assert (Hstep : step_size j 0 0 = (0, 5%nat, (0, 0))).
  { unfold step_size. destruct (j =? 0) eqn:E; [apply Z.eqb_eq in E; contradiction | reflexivity]. }
  rewrite Hstep. cbn iota beta.
  rewrite for_rows_still by (intros; apply eval_LDSP_still).
  cbn [mbind outcome_bind].
  destruct (argmin_is_Some (reset_costs (cost i j))) as [point Hpt]; [discriminate|].
  rewrite Hpt. cbn [checked mbind outcome_bind].
  apply argmin_Some in Hpt as (v & Hv & Hmin & _).
  assert (Hoff : LDSP 0 (0, 0) !! point = Some (0, 0)).
  { apply lookup_lt_Some in Hv. simpl in Hv.
    do 6 (destruct point as [|point]; [reflexivity|]). lia. }
  rewrite Hoff. cbn [checked mbind outcome_bind].
  eexists. split; [reflexivity|]. cbn [sx sy scost schecked fst snd].
  rewrite !Z.add_0_r. split; [reflexivity|]. split; [reflexivity|]. split; [reflexivity|].
  intros Hle. apply Qle_antisym.
  - apply vec_min_le. apply (list_elem_of_lookup_2 _ 2%nat). reflexivity.
  - destruct (vec_min_attained (reset_costs (cost i j))) as (w & Hw' & ->); [discriminate|].
    apply list_elem_of_lookup_1 in Hw' as [k Hk].
    apply reset_costs_entry in Hk as [[_ ->] | [_ ->]]; [apply Qle_refl | exact Hle].
Qed.

Lemma LDSP_stage_zero_motion_witness :
  exists s,
    LDSP_stage 6 6 2 2 cost_example 1 1 0 0 = Done s /\
    sx s = 1 /\ sy s = 1 /\
    umat_set (umat_zeros (2 * 2 + 1) (2 * 2 + 1)) 2 2 1 = Done (schecked s) /\
    ((cost_example 1 1 <= costsScale)%Q -> scost s == cost_example 1 1).
Proof. apply (LDSP_stage_zero_motion 6 6 2 2 cost_example 1 1); lia. Defined.

(** *** The schedule of a window *)

Lemma inc_small (i : Z) : 0 <= i < 2 ^ 31 - 1 -> inc i = - (i + 1).
Proof. intros H. unfold inc. rewrite i32_small; lia. Qed.

Lemma forwards_plain (ref n : Z) :
  0 <= ref -> ref + n < 2 ^ 31 -> forwards ref n = forward_call ref <$> seqZ 0 n.
Proof.
  intros Hr Hn. unfold forwards. apply list_fmap_ext. intros k i Hk.
  apply lookup_seqZ in Hk as [-> Hk]. unfold forward_call.
  rewrite !i32_small by lia. reflexivity.
Qed.

Lemma backwards_plain (timeWindow ref n : Z) :
  0 <= n <= ref -> ref < 2 ^ 31 - 1 -> ref <> 2 * timeWindow \/ n = 0 ->
  backwards ref n = backward_call timeWindow ref <$> seqZ 0 n.
Proof.
  intros Hn Hr Hne. unfold backwards. apply list_fmap_ext. intros k i Hk.
  apply lookup_seqZ in Hk as [-> Hk]. unfold backward_call.
  rewrite inc_small by lia.
  rewrite (u32_small (ref + _)) by lia. rewrite u32_small by lia.
  rewrite !i32_small by lia.
  destruct (ref =? 2 * timeWindow) eqn:E; [apply Z.eqb_eq in E; lia|].
  f_equal; lia.
Qed.

Lemma backwards_end_plain (timeWindow ref : Z) :
  0 <= timeWindow -> 0 <= ref < 2 ^ 31 - 1 -> 2 * timeWindow < 2 ^ 31 ->
  backwards_end timeWindow ref = backward_call timeWindow ref <$> seqZ 0 ref.
Proof.
  intros Hw Hr Ht. unfold backwards_end. apply list_fmap_ext. intros k i Hk.
  apply lookup_seqZ in Hk as [-> Hk]. unfold backward_call.
  rewrite inc_small by lia.
  rewrite (u32_small (2 * _)) by lia.
  rewrite (u32_small (ref + _)) by lia. rewrite u32_small by lia.
  rewrite !i32_small by lia.
  rewrite (Z.eqb_sym (2 * timeWindow) ref).
  destruct (ref =? 2 * timeWindow); f_equal; lia.
Qed.

(** The three branches of [Estimate] make the same calls: from the
    reference frame to the end of the window, then back to its start. *)
Lemma schedule_plain (timeIter timeWindow nImages T : Z) :
  window_sized timeIter timeWindow nImages T ->
  exists ref, 0 <= ref <= 2 * timeWindow /\
    schedule timeIter timeWindow nImages T = (ref, plain_schedule timeWindow ref) /\
    ref = (if timeIter <? timeWindow then timeIter
           else if nImages - timeWindow <=? timeIter then timeIter - (nImages - T)
           else timeWindow).
Proof.
  intros (Hw & HT & HN & Hi). unfold schedule, plain_schedule.
  destruct (timeIter <? timeWindow) eqn:E1.
  - apply Z.ltb_lt in E1. exists timeIter. split; [lia|]. split; [|reflexivity].
    rewrite (u32_small (T - _ - 1)) by lia.
    rewrite forwards_plain by lia.
    rewrite (backwards_plain timeWindow) by lia.
    replace (T - timeIter - 1) with (2 * timeWindow - timeIter) by lia. reflexivity.
  - apply Z.ltb_ge in E1. rewrite (u32_small (nImages - timeWindow)) by lia.
    destruct (nImages - timeWindow <=? timeIter) eqn:E2.
    + apply Z.leb_le in E2. rewrite (u32_small (nImages - T)) by lia.
      rewrite (u32_small (timeIter - _)) by lia.
      exists (timeIter - (nImages - T)). split; [lia|]. split; [|reflexivity].
      rewrite (u32_small (2 * _)) by lia. rewrite u32_small by lia.
      rewrite forwards_plain by lia. rewrite backwards_end_plain by lia. reflexivity.
    + apply Z.leb_gt in E2. exists timeWindow. split; [lia|]. split; [|reflexivity].
      rewrite forwards_plain by lia.
      rewrite (backwards_plain timeWindow) by lia.
      replace (2 * timeWindow - timeWindow) with timeWindow by lia. reflexivity.
Qed.

Lemma plain_schedule_elem (timeWindow ref : Z) (c : call) :
  c ∈ plain_schedule timeWindow ref <->
  (exists i, 0 <= i < 2 * timeWindow - ref /\ c = forward_call ref i) \/
  (exists i, 0 <= i < ref /\ c = backward_call timeWindow ref i).
Proof.
  unfold plain_schedule. rewrite elem_of_app, !list_elem_of_fmap.
  split; (intros [(i & H1 & H2) | (i & H1 & H2)]; [left | right]; exists i).
  - apply elem_of_seqZ in H2. split; [lia | exact H1].
  - apply elem_of_seqZ in H2. split; [lia | exact H1].
  - split; [exact H2 | apply elem_of_seqZ; lia].
  - split; [exact H2 | apply elem_of_seqZ; lia].
Qed.

(** X11: every call [Estimate] makes for a window of [2 * timeWindow + 1]
    frames addresses frames of the window and a slice of [motions] that
    exists, and the reference coordinates go to a frame of the window. *)
Theorem schedule_in_range (timeIter timeWindow nImages T : Z) (c : call) :
  window_sized timeIter timeWindow nImages T ->
  c ∈ (schedule timeIter timeWindow nImages T).2 ->
  0 <= (schedule timeIter timeWindow nImages T).1 < T /\
  0 <= iARPS1 c < T /\ 0 <= iARPS2 c < T /\ 0 <= iARPS3 c < 2 * timeWindow.
Proof.
  intros Hws Hc. pose proof Hws as (Hw & HT & HN & Hi).
  destruct (schedule_plain _ _ _ _ Hws) as (ref & Hr & Hs & _). rewrite Hs in *. simpl in *.
  split; [lia|].
  apply plain_schedule_elem in Hc as [(i & Hi' & ->) | (i & Hi' & ->)]; simpl; [lia|].
  destruct (ref =? 2 * timeWindow) eqn:E;
    [apply Z.eqb_eq in E | apply Z.eqb_neq in E]; lia.
Qed.

Lemma schedule_in_range_witness :
  0 <= (schedule 8 7 25 15).1 < 15 /\
  0 <= iARPS1 (Call (-1) 7 6 7) < 15 /\ 0 <= iARPS2 (Call (-1) 7 6 7) < 15 /\
  0 <= iARPS3 (Call (-1) 7 6 7) < 2 * 7.
Proof.
  apply (schedule_in_range 8 7 25 15 (Call (-1) 7 6 7)).
  - unfold window_sized. lia.
  - vm_compute. do 7 right. left.
Defined.

Lemma plain_targets (timeWindow ref : Z) :
  iARPS2 <$> plain_schedule timeWindow ref =
  ((fun i => ref + i + 1) <$> seqZ 0 (2 * timeWindow - ref)) ++
  ((fun i => ref - i - 1) <$> seqZ 0 ref).
Proof.
  unfold plain_schedule. rewrite fmap_app, <- !list_fmap_compose. reflexivity.
Qed.

(** X12: the calls of a window locate every frame but the reference frame
    exactly once, each against its neighbour on the side of the reference
    frame. *)
Theorem schedule_targets (timeIter timeWindow nImages T : Z) :
  window_sized timeIter timeWindow nImages T ->
  let ref := (schedule timeIter timeWindow nImages T).1 in
  let calls := (schedule timeIter timeWindow nImages T).2 in
  NoDup (iARPS2 <$> calls) /\
  (forall k, k ∈ iARPS2 <$> calls <-> 0 <= k < T /\ k <> ref) /\
  (forall c, c ∈ calls ->
     iARPS1 c = if ref <? iARPS2 c then iARPS2 c - 1 else iARPS2 c + 1).
Proof.
  intros Hws. pose proof Hws as (Hw & HT & HN & Hi).
  destruct (schedule_plain _ _ _ _ Hws) as (ref & Hr & -> & _). simpl.
  rewrite plain_targets. split; [|split].
  - apply NoDup_app. split; [|split].
    + apply NoDup_fmap_2_strong; [intros; lia | apply NoDup_seqZ].
    + intros k Hk Hk'. apply list_elem_of_fmap in Hk as (a & -> & Ha).
      apply list_elem_of_fmap in Hk' as (b & Hb & Hb').
      apply elem_of_seqZ in Ha, Hb'. lia.
    + apply NoDup_fmap_2_strong; [intros; lia | apply NoDup_seqZ].
  - intros k. rewrite elem_of_app, !list_elem_of_fmap. split.
    + intros [(a & -> & Ha) | (a & -> & Ha)]; apply elem_of_seqZ in Ha; lia.
    + intros [Hk Hne]. destruct (Z_lt_le_dec ref k).
      * left. exists (k - ref - 1). split; [lia | apply elem_of_seqZ; lia].
      * right. exists (ref - k - 1). split; [lia | apply elem_of_seqZ; lia].
  - intros c Hc.
    apply plain_schedule_elem in Hc as [(i & Hi' & ->) | (i & Hi' & ->)]; simpl.
    + destruct (ref <? ref + i + 1) eqn:E; [lia | apply Z.ltb_ge in E; lia].
    + destruct (ref <? ref - i - 1) eqn:E; [apply Z.ltb_lt in E; lia | lia].
Qed.

Lemma schedule_targets_witness :
  let ref := (schedule 8 7 25 15).1 in
  let calls := (schedule 8 7 25 15).2 in
  NoDup (iARPS2 <$> calls) /\
  (forall k, k ∈ iARPS2 <$> calls <-> 0 <= k < 15 /\ k <> ref) /\
  (forall c, c ∈ calls ->
     iARPS1 c = if ref <? iARPS2 c then iARPS2 c - 1 else iARPS2 c + 1).
Proof. apply (schedule_targets 8 7 25 15). unfold window_sized. lia. Defined.

(** *** What a call leaves alone *)

Lemma ARPS_call_frame (fuel : nat) (cf f1 f2 f3 : Z) (e e' : MotionEstimator) :
  ARPSMotionEstimation fuel cf f1 f2 f3 e = Done e' ->
  same_setup e e' /\
  (forall c it f, ~ written_by_call e f3 c it f -> motions e' c it f = motions e c it f) /\
  (forall c it f, ~ written_by_call e f2 c it f -> patches e' c it f = patches e c it f).
Proof.
  intros Hrun. unfold ARPSMotionEstimation in Hrun.
  apply (for_rows_inv _
           (fun n ec =>
              same_setup e ec /\
              (forall c it f, ~ ((c = 0 \/ c = 1) /\ 0 <= it < Z.of_nat n /\ f = f3) ->
                 motions ec c it f = motions e c it f) /\
              (forall c it f, ~ ((c = 0 \/ c = 1) /\ 0 <= it < Z.of_nat n /\ f = f2) ->
                 patches ec c it f = patches e c it f))
           _ 0 0) in Hrun.
  - destruct Hrun as (Hs & Hm & Hp). rewrite length_seqZ in *. simpl in *.
    assert (Hv : 0 <= vecSize e) by (unfold vecSize, u32; apply Z.mod_pos_bound; lia).
    rewrite Z2Nat.id in * by lia. unfold written_by_call. auto.
  - intros k it ec ec' Hk (Hsame & Hm & Hp) Hstep. simpl in *.
    apply lookup_seqZ in Hk as [-> Hk].
    apply estimate_patch_inv in Hstep as (y & x & _ & ->). simpl.
    destruct Hsame as (HA & HNx & HNy & HB & HW).
    split; [unfold same_setup; simpl; auto|]. split.
    + intros c it f Hnot. rewrite !icube_set_other by lia. apply Hm. lia.
    + intros c it f Hnot. rewrite !icube_set_other by lia. apply Hp. lia.
  - split; [unfold same_setup; auto|]. auto.
Qed.

Lemma same_setup_trans (e1 e2 e3 : MotionEstimator) :
  same_setup e1 e2 -> same_setup e2 e3 -> same_setup e1 e3.
Proof.
  intros (H1 & H2 & H3 & H4 & H5) (G1 & G2 & G3 & G4 & G5).
  unfold same_setup. repeat split; congruence.
Qed.

(** *** The reference coordinates *)

Lemma populate_fold (ref ny nx : Z) (p : icube) (n : nat) (c it f : Z) :
  foldl (fun p i => icube_set (icube_set p 0 i ref (i mod ny)) 1 i ref (i / nx))
        p (seqZ 0 (Z.of_nat n)) c it f =
  if decide ((c = 0 \/ c = 1) /\ 0 <= it < Z.of_nat n /\ f = ref)
  then (if c =? 0 then it mod ny else it / nx)
  else p c it f.
Proof.
  induction n as [|n IH].
  - rewrite decide_False by lia. reflexivity.
  - rewrite seqZ_S, foldl_snoc, Z.add_0_l.
    destruct (decide (it = Z.of_nat n /\ f = ref /\ (c = 0 \/ c = 1))) as [(-> & -> & Hc) | Hne].
    + rewrite decide_True by (split; [exact Hc | split; [lia | reflexivity]]).
      destruct Hc as [-> | ->].
      * rewrite icube_set_other by lia. rewrite icube_set_same. reflexivity.
      * rewrite icube_set_same. reflexivity.
    + rewrite !icube_set_other by lia. rewrite IH.
      destruct (decide ((c = 0 \/ c = 1) /\ 0 <= it < Z.of_nat n /\ f = ref)) as [H | H].
      * rewrite decide_True by lia. reflexivity.
      * rewrite decide_False; [reflexivity|]. intros (Hc & Hi & Hf). apply H.
        split; [exact Hc | split; [|exact Hf]].
        destruct (decide (it = Z.of_nat n)) as [E | E]; [exfalso; apply Hne; auto | lia].
Qed.

Lemma populate_patches (ref : Z) (e : MotionEstimator) (c it f : Z) :
  patches (populate ref e) c it f =
  if decide (written_by_call e ref c it f)
  then reference_patches (Nx e) (Ny e) (blockSize e) c it f
  else patches e c it f.
Proof.
  unfold populate; simpl.
  assert (Hv : 0 <= vecSize e) by (unfold vecSize, u32; apply Z.mod_pos_bound; lia).
  rewrite <- (Z2Nat.id (vecSize e)) at 1 by lia. rewrite populate_fold.
  rewrite Z2Nat.id by lia. unfold reference_patches, nyMbs, nxMbs.
  destruct (decide (written_by_call e ref c it f)) as [H | H]; unfold written_by_call in H.
  - rewrite decide_True by exact H. reflexivity.
  - rewrite decide_False by exact H. reflexivity.
Qed.

Lemma populate_setup (ref : Z) (e : MotionEstimator) :
  same_setup e (populate ref e) /\ motions (populate ref e) = motions e.
Proof. unfold populate, same_setup; simpl. repeat split; reflexivity. Qed.

Lemma same_setup_vecSize (e e' : MotionEstimator) : same_setup e e' -> vecSize e' = vecSize e.
Proof.
  intros (HA & HNx & HNy & HB & HW). unfold vecSize, nxMbs, nyMbs. now rewrite HNx, HNy, HB.
Qed.

Lemma written_same_setup (e e' : MotionEstimator) (s c it f : Z) :
  same_setup e e' -> written_by_call e' s c it f <-> written_by_call e s c it f.
Proof. intros H. unfold written_by_call. now rewrite (same_setup_vecSize e e' H). Qed.

Lemma Estimate_reference_aux (timeIter timeWindow nImages T : Z) (fuel : nat)
    (e e' : MotionEstimator) :
  window_sized timeIter timeWindow nImages T ->
  for_rows (run_call fuel) 0 (schedule timeIter timeWindow nImages T).2
    (populate (schedule timeIter timeWindow nImages T).1 e) = Done e' ->
  let ref := (schedule timeIter timeWindow nImages T).1 in
  forall c it, c = 0 \/ c = 1 -> 0 <= it < vecSize e ->
    patches e' c it ref = reference_patches (Nx e) (Ny e) (blockSize e) c it ref.
Proof.
  intros Hws Hrun ref c it Hc Hit. fold ref in Hrun.
  destruct (schedule_targets _ _ _ _ Hws) as (_ & Htargets & _). fold ref in Htargets.
  set (calls := (schedule timeIter timeWindow nImages T).2) in *.
  apply (for_rows_inv _
           (fun _ ec => same_setup e ec /\
                        forall c it, patches ec c it ref = patches (populate ref e) c it ref)
           _ 0 0) in Hrun.
  - destruct Hrun as [_ Hp]. rewrite Hp, populate_patches.
    rewrite decide_True; [reflexivity|]. unfold written_by_call. auto.
  - intros k ck ec ec' Hk [Hsame Hp] Hstep. unfold run_call in Hstep.
    apply ARPS_call_frame in Hstep as (Hsame' & _ & Hp').
    split; [eapply same_setup_trans; eauto|].
    intros c0 it0. rewrite Hp'; [apply Hp|].
    intros (_ & _ & Heq).
    assert (Hin : iARPS2 ck ∈ iARPS2 <$> calls).
    { apply list_elem_of_fmap. exists ck. split; [reflexivity|].
      eapply list_elem_of_lookup_2; eauto. }
    apply Htargets in Hin. lia.
  - split; [apply populate_setup | reflexivity].
Qed.
(** X13: when [Estimate] has run, the slice of the reference frame still
    holds the grid coordinates it wrote first: no call locates the
    reference frame. *)
Theorem Estimate_reference_slice (timeIter timeWindow nImages T : Z) (fuel : nat)
    (e e' : MotionEstimator) :
  window_sized timeIter timeWindow nImages T ->
  Estimate timeIter timeWindow nImages T fuel e = Done e' ->
  let ref := (schedule timeIter timeWindow nImages T).1 in
  forall c it, c = 0 \/ c = 1 -> 0 <= it < vecSize e ->
    patches e' c it ref = reference_patches (Nx e) (Ny e) (blockSize e) c it ref.
Proof.
  intros Hws Hrun. unfold Estimate in Hrun.
  exact (Estimate_reference_aux timeIter timeWindow nImages T fuel e e' Hws Hrun).
Qed.

Lemma Estimate_reference_slice_witness :
  exists e', Estimate 1 1 3 3 25 binary_estimator = Done e' /\
    let ref := (schedule 1 1 3 3).1 in
    forall c it, c = 0 \/ c = 1 -> 0 <= it < vecSize binary_estimator ->
      patches e' c it ref = reference_patches (Nx binary_estimator) (Ny binary_estimator)
                              (blockSize binary_estimator) c it ref.
Proof.
  destruct (Estimate 1 1 3 3 25 binary_estimator) as [e'| |] eqn:Hrun.
  - exists e'. split; [reflexivity|].
    apply (Estimate_reference_slice 1 1 3 3 25 binary_estimator e');
      [unfold window_sized; lia | exact Hrun].
  - vm_compute in Hrun. discriminate.
  - vm_compute in Hrun. discriminate.
Defined.

(** *** The stored motion a call starts from *)

Lemma plain_schedule_lookup (timeWindow ref : Z) (n : nat) (c : call) :
  0 <= ref <= 2 * timeWindow ->
  plain_schedule timeWindow ref !! n = Some c <->
  (Z.of_nat n < 2 * timeWindow - ref /\ c = forward_call ref (Z.of_nat n)) \/
  (2 * timeWindow - ref <= Z.of_nat n < 2 * timeWindow /\
   c = backward_call timeWindow ref (Z.of_nat n - (2 * timeWindow - ref))).
Proof.
  intros Hr. unfold plain_schedule.
  rewrite lookup_app_Some, !list_lookup_fmap_Some, length_fmap, length_seqZ. split.
  - intros [(i & -> & Hi) | (Hn & i & -> & Hi)]; apply lookup_seqZ in Hi as [-> Hi].
    + left. split; [lia | f_equal; lia].
    + right. split; [lia | f_equal; lia].
  - intros [[Hn ->] | [Hn ->]].
    + left. eexists. split; [reflexivity|]. apply lookup_seqZ. lia.
    + right. split; [lia|]. eexists. split; [reflexivity|]. apply lookup_seqZ. lia.
Qed.

(** No earlier call of the schedule has written the motion slice a call
    reads, the first backward call apart. *)
Lemma plain_schedule_fresh (timeWindow ref : Z) (n m : nat) (c c' : call) :
  0 <= ref <= 2 * timeWindow ->
  plain_schedule timeWindow ref !! n = Some c ->
  plain_schedule timeWindow ref !! m = Some c' -> (m < n)%nat ->
  curFrame c <> -1 \/ ref = 2 * timeWindow ->
  iARPS3 c' <> iARPS3 c.
Proof.
  intros Hr Hc Hc' Hlt Hcond.
  apply plain_schedule_lookup in Hc, Hc'; try assumption.
  unfold forward_call, backward_call in *.
  destruct (ref =? 2 * timeWindow) eqn:E; [apply Z.eqb_eq in E | apply Z.eqb_neq in E];
    destruct Hc as [[Hn ->] | [Hn ->]]; destruct Hc' as [[Hm ->] | [Hm ->]];
    simpl in *; lia.
Qed.

(** X14: each call starts from the motion stored in its slice of
    [motions].  When [Estimate] runs on a newly built estimator, that slice
    still holds the constructor's zeros for every call but the first
    backward one, which reads what the first forward call wrote. *)
Theorem Estimate_stored_motion_zero (timeIter timeWindow nImages T : Z) (fuel : nat)
    (A : cube) (Nx Ny blockSize motionWindow : Z) (n : nat) (c : call)
    (e : MotionEstimator) :
  window_sized timeIter timeWindow nImages T ->
  let ref := (schedule timeIter timeWindow nImages T).1 in
  let calls := (schedule timeIter timeWindow nImages T).2 in
  calls !! n = Some c ->
  for_rows (run_call fuel) 0 (take n calls)
    (populate ref (fresh A Nx Ny blockSize motionWindow)) = Done e ->
  (curFrame c <> -1 \/ ref = 2 * timeWindow ->
     forall a it, motions e a it (iARPS3 c) = 0) /\
  (curFrame c = -1 -> ref <> 2 * timeWindow ->
     calls !! 0%nat = Some (Call 0 ref (ref + 1) ref) /\ iARPS3 c = ref).
Proof.
  intros Hws ref calls Hc Hrun.
  destruct (schedule_plain _ _ _ _ Hws) as (r & Hr & Hs & _).
  unfold ref, calls in *. rewrite Hs in *. simpl in *. clear ref calls. split.
  - intros Hcond a it.
    pose proof (for_rows_inv (run_call fuel)
             (fun m ec => forall a it f,
                (forall k ck, (k < m)%nat -> plain_schedule timeWindow r !! k = Some ck ->
                              iARPS3 ck <> f) ->
                motions ec a it f = 0)
             (take n (plain_schedule timeWindow r)) 0 0
             (populate r (fresh A Nx Ny blockSize motionWindow)) e) as Hinv.
    cbv beta in Hinv. apply Hinv; [| |exact Hrun|]; clear Hinv.
    + intros k ck ec ec' Hk Hinv Hstep a0 it0 f Hf. simpl in *.
      apply lookup_take_Some in Hk as [Hk _].
      unfold run_call in Hstep. apply ARPS_call_frame in Hstep as (_ & Hm & _).
      rewrite Hm.
      * apply Hinv. intros k' ck' Hk' Hck'. apply (Hf k' ck'); [lia | exact Hck'].
      * intros (_ & _ & ->). apply (Hf k ck); [lia | exact Hk | reflexivity].
    + intros a0 it0 f _. reflexivity.
    + intros k ck Hk Hck. simpl in Hk. rewrite length_take in Hk.
      eapply plain_schedule_fresh; eauto. lia.
  - intros Hcf Hne. apply plain_schedule_lookup in Hc; [|exact Hr].
    unfold forward_call, backward_call in Hc.
    destruct (r =? 2 * timeWindow) eqn:E; [apply Z.eqb_eq in E; contradiction|].
    destruct Hc as [[Hn ->] | [Hn ->]]; simpl in Hcf; [lia|]. simpl.
    split; [|lia].
    apply plain_schedule_lookup; [exact Hr|]. left. split; [simpl; lia|].
    unfold forward_call. simpl. f_equal; lia.
Qed.

Lemma Estimate_stored_motion_zero_witness :
  exists e,
    for_rows (run_call 25) 0 (take 1 (schedule 1 1 3 3).2)
      (populate (schedule 1 1 3 3).1 (fresh binary_frames 4 4 2 2)) = Done e /\
    (curFrame (Call (-1) 1 0 1) <> -1 \/ (schedule 1 1 3 3).1 = 2 * 1 ->
       forall a it, motions e a it (iARPS3 (Call (-1) 1 0 1)) = 0) /\
    (curFrame (Call (-1) 1 0 1) = -1 -> (schedule 1 1 3 3).1 <> 2 * 1 ->
       (schedule 1 1 3 3).2 !! 0%nat
         = Some (Call 0 (schedule 1 1 3 3).1 ((schedule 1 1 3 3).1 + 1) (schedule 1 1 3 3).1) /\
       iARPS3 (Call (-1) 1 0 1) = (schedule 1 1 3 3).1).
Proof.
  destruct (for_rows (run_call 25) 0 (take 1 (schedule 1 1 3 3).2)
              (populate (schedule 1 1 3 3).1 (fresh binary_frames 4 4 2 2)))
    as [e| |] eqn:Hrun.
  - exists e. split; [reflexivity|].
    apply (Estimate_stored_motion_zero 1 1 3 3 25 binary_frames 4 4 2 2 1 (Call (-1) 1 0 1) e);
      [unfold window_sized; lia | reflexivity | exact Hrun].
  - vm_compute in Hrun. discriminate.
  - vm_compute in Hrun. discriminate.
Defined.

(** *** A whole window *)

Lemma well_sized_same_setup (e e' : MotionEstimator) :
  same_setup e e' -> well_sized e -> well_sized e'.
Proof.
  intros (HA & HNx & HNy & HB & HW). unfold well_sized. now rewrite HNx, HNy, HB, HW.
Qed.

Lemma located_recorded (e0 ec ec' : MotionEstimator) (f2 f3 : Z) :
  same_setup e0 ec ->
  (forall it, 0 <= it < vecSize ec ->
     recorded_in_box ec ec' f2 f3 it /\ recorded_in_frame ec ec' f2 it) ->
  located e0 ec' f2.
Proof.
  intros Hsame Hall it Hit.
  destruct (same_setup_position e0 ec it Hsame) as (Hrow & Hcol & Hvec & _).
  destruct Hsame as (HA & HNx & HNy & HB & HW).
  destruct (Hall it ltac:(lia)) as [(_ & _ & Hb1 & Hb2) (Hf1 & Hf2 & Hf3 & Hf4)].
  rewrite Hrow, Hcol, HW in *. rewrite HB, HNx in Hf2. rewrite HB, HNy in Hf4. auto 10.
Qed.

(** The calls of a schedule all complete, on a square normalised window. *)
Lemma run_calls_total (fuel : nat) (calls : list call) (e0 e1 : MotionEstimator) :
  well_sized e0 -> Nx e0 = Ny e0 -> normalised (A e0) -> 2 <= motionWindow e0 ->
  (Z.to_nat ((2 * motionWindow e0 + 1) * (2 * motionWindow e0 + 1)) <= fuel)%nat ->
  same_setup e0 e1 -> (forall f, motions_in_box e1 f) ->
  exists e', for_rows (run_call fuel) 0 calls e1 = Done e'.
Proof.
  intros Hws Hsq Hn Hw Hfuel Hsame Hbox.
  destruct (for_rows_total (run_call fuel)
              (fun ec => same_setup e0 ec /\ forall f, motions_in_box ec f)
              calls 0 e1) as (e' & He' & _); [| auto | eauto].
  intros k c ec _ [Hs Hb]. simpl. unfold run_call.
  pose proof (well_sized_same_setup e0 ec Hs Hws) as Hws'.
  pose proof Hs as (HA & HNx & HNy & HB & HW).
  assert (Hn' : normalised (A ec)) by (rewrite HA; exact Hn).
  assert (Hw' : 2 <= motionWindow ec) by (rewrite HW; exact Hw).
  assert (Hsq' : Nx ec = Ny ec) by congruence.
  assert (Hfuel' : (Z.to_nat ((2 * motionWindow ec + 1) * (2 * motionWindow ec + 1)) <= fuel)%nat)
    by (rewrite HW; exact Hfuel).
  destruct (ARPS_call_total fuel (curFrame c) (iARPS1 c) (iARPS2 c) (iARPS3 c) ec
              Hws' Hn' Hw' (Hb _) Hfuel') as (ec' & Hrun).
  exists ec'. split; [exact Hrun|].
  destruct (ARPS_call_val fuel (curFrame c) (iARPS1 c) (iARPS2 c) (iARPS3 c) ec ec'
              Hws' Hsq' Hn' Hrun) as (Hs' & Hall & Hm & _).
  split; [eapply same_setup_trans; eauto|].
  intros f it Hit. rewrite (same_setup_vecSize ec ec' Hs') in Hit.
  destruct Hs' as (_ & _ & _ & _ & HW').
  destruct (decide (f = iARPS3 c)) as [-> | Hne].
  - destruct (Hall it Hit) as [(H0 & H1 & _) _]. rewrite HW'. auto.
  - rewrite !Hm by (unfold written_by_call; lia). rewrite HW'. now apply Hb.
Qed.

(** What a completed schedule has recorded for the frames it located. *)
Lemma run_calls_located (fuel : nat) (calls : list call) (e0 e1 e' : MotionEstimator) :
  well_sized e0 -> Nx e0 = Ny e0 -> normalised (A e0) ->
  same_setup e0 e1 ->
  for_rows (run_call fuel) 0 calls e1 = Done e' ->
  forall c, c ∈ calls -> located e0 e' (iARPS2 c).
Proof.
  intros Hws Hsq Hn Hsame Hrun.
  pose proof (for_rows_inv (run_call fuel)
           (fun n ec => same_setup e0 ec /\
                        forall m cm, (m < n)%nat -> calls !! m = Some cm ->
                                     located e0 ec (iARPS2 cm))
           calls 0 0 e1 e') as Hinv.
  cbv beta in Hinv. destruct Hinv as [_ Hall]; [| |exact Hrun|].
  - intros k c ec ec' Hk [Hs Hloc] Hstep. simpl in *. unfold run_call in Hstep.
    pose proof (well_sized_same_setup e0 ec Hs Hws) as Hws'.
    pose proof Hs as (HA & HNx & HNy & HB & HW).
    assert (Hn' : normalised (A ec)) by (rewrite HA; exact Hn).
    assert (Hsq' : Nx ec = Ny ec) by congruence.
    destruct (ARPS_call_val fuel (curFrame c) (iARPS1 c) (iARPS2 c) (iARPS3 c) ec ec'
                Hws' Hsq' Hn' Hstep) as (Hs' & Hall & _ & Hp).
    split; [eapply same_setup_trans; eauto|].
    assert (Hnew : located e0 ec' (iARPS2 c)).
    { apply (located_recorded e0 ec ec' (iARPS2 c) (iARPS3 c) Hs).
      intros it Hit. destruct (Hall it Hit) as (? & ? & _). auto. }
    intros m cm Hm Hcm.
    destruct (decide (m = k)) as [-> | Hne].
    + assert (cm = c) by congruence. subst cm. exact Hnew.
    + destruct (decide (iARPS2 cm = iARPS2 c)) as [E | E]; [rewrite E; exact Hnew|].
      intros it Hit. specialize (Hloc m cm ltac:(lia) Hcm it Hit).
      rewrite !Hp by (unfold written_by_call; lia). exact Hloc.
  - split; [exact Hsame | intros m cm Hm; lia].
  - intros c Hc. apply list_elem_of_lookup_1 in Hc as [m Hm].
    apply (Hall m c); [|exact Hm]. apply lookup_lt_Some in Hm. lia.
Qed.

(** Where a completed [Estimate] has put the patches. *)
Lemma Estimate_located (timeIter timeWindow nImages T : Z) (fuel : nat)
    (A : cube) (N blockSize motionWindow : Z) (e' : MotionEstimator) :
  window_sized timeIter timeWindow nImages T ->
  1 <= blockSize <= N -> N < 2 ^ 15 -> 0 <= motionWindow < 2 ^ 30 ->
  normalised A ->
  for_rows (run_call fuel) 0 (schedule timeIter timeWindow nImages T).2
    (populate (schedule timeIter timeWindow nImages T).1
       (fresh A N N blockSize motionWindow)) = Done e' ->
  forall k, 0 <= k < T -> located (fresh A N N blockSize motionWindow) e' k.
Proof.
  intros Hwin Hb HN Hw Hn Hrun.
  set (e := fresh A N N blockSize motionWindow) in *.
  assert (Hws : well_sized e) by (unfold well_sized, e; simpl; lia).
  destruct (schedule_targets _ _ _ _ Hwin) as (_ & Htargets & _).
  set (ref := (schedule timeIter timeWindow nImages T).1) in *.
  set (calls := (schedule timeIter timeWindow nImages T).2) in *.
  destruct (populate_setup ref e) as [Hsame Hmot].
  intros k Hk.
  destruct (decide (k = ref)) as [-> | Hne].
  - intros it Hit.
    assert (Hp : forall c, c = 0 \/ c = 1 ->
              patches e' c it ref = reference_patches N N blockSize c it ref).
    { intros c Hc.
      apply (Estimate_reference_aux timeIter timeWindow nImages T fuel e e' Hwin Hrun c it Hc Hit). }
    rewrite (Hp 0), (Hp 1) by auto.
    destruct (grid_position e it Hws eq_refl Hit) as [Hr Hc].
    assert (Hrow : reference_patches N N blockSize 0 it ref = patch_row e it).
    { unfold reference_patches, patch_row, nxMbs. simpl.
      unfold patch_row, nxMbs in Hr. simpl in Hr.
      destruct (vecSize_small e Hws) as (Hx & _). unfold nxMbs in Hx. simpl in Hx.
      rewrite Hx in *. rewrite (u32_small (1 + _)) in * by lia.
      rewrite i32_small; [reflexivity|].
      pose proof (Z.mod_pos_bound it (1 + (N - blockSize)) ltac:(lia)). lia. }
    assert (Hcol : reference_patches N N blockSize 1 it ref = patch_col e it).
    { unfold reference_patches, patch_col, nyMbs. simpl.
      destruct (vecSize_small e Hws) as (Hx & _ & Hv & _). unfold nxMbs, nyMbs in *. simpl in *.
      rewrite Hx in *. rewrite (u32_small (1 + _)) in * by lia.
      rewrite i32_small; [reflexivity|].
      split; [transitivity 0; [lia | apply Z.div_pos; lia]|].
      apply Z.lt_le_trans with (1 + (N - blockSize)); [|lia].
      apply Z.div_lt_upper_bound; nia. }
    rewrite Hrow, Hcol. simpl. rewrite !Z.sub_diag. simpl in *. lia.
  - assert (Hin : k ∈ iARPS2 <$> calls) by (apply Htargets; lia).
    apply list_elem_of_fmap in Hin as (c & -> & Hc).
    apply (run_calls_located fuel calls e (populate ref e) e' Hws eq_refl Hn Hsame Hrun c Hc).
Qed.

(** X15: on a newly built estimator for a square, normalised window, with
    a search half-width of at least 2, [Estimate] runs to completion, and
    what [GetEstimate] then returns places every patch, in every frame of
    the window, inside the search box round its grid position with its
    block inside the frame. *)
Theorem Estimate_locates_every_frame (timeIter timeWindow nImages T : Z) (fuel : nat)
    (A : cube) (N blockSize motionWindow : Z) :
  window_sized timeIter timeWindow nImages T ->
  1 <= blockSize <= N -> N < 2 ^ 15 -> 2 <= motionWindow < 2 ^ 30 ->
  normalised A ->
  (Z.to_nat ((2 * motionWindow + 1) * (2 * motionWindow + 1)) <= fuel)%nat ->
  exists e',
    Estimate timeIter timeWindow nImages T fuel (fresh A N N blockSize motionWindow) = Done e' /\
    forall k, 0 <= k < T -> located (fresh A N N blockSize motionWindow) e' k.
Proof.
  intros Hwin Hb HN Hw Hn Hfuel.
  set (e := fresh A N N blockSize motionWindow).
  assert (Hws : well_sized e) by (unfold well_sized, e; simpl; lia).
  unfold Estimate.
  destruct (populate_setup (schedule timeIter timeWindow nImages T).1 e) as [Hsame Hmot].
  assert (Hbox : forall f,
            motions_in_box (populate (schedule timeIter timeWindow nImages T).1 e) f).
  { intros f it _. rewrite Hmot. simpl. lia. }
  destruct (run_calls_total fuel (schedule timeIter timeWindow nImages T).2 e
              (populate (schedule timeIter timeWindow nImages T).1 e)
              Hws eq_refl Hn ltac:(simpl; lia) Hfuel Hsame Hbox) as (e' & Hrun).
  exists e'. split; [exact Hrun|].
  apply (Estimate_located timeIter timeWindow nImages T fuel A N blockSize motionWindow e');
    auto; lia.
Qed.

Lemma Estimate_locates_every_frame_witness :
  exists e',
    Estimate 1 1 3 3 25 (fresh binary_frames 4 4 2 2) = Done e' /\
    forall k, 0 <= k < 3 -> located (fresh binary_frames 4 4 2 2) e' k.
Proof.
  apply (Estimate_locates_every_frame 1 1 3 3 25 binary_frames 4 2 2);
    [unfold window_sized; lia | lia | lia | lia | exact binary_frames_normalised
    | vm_compute; lia].
Defined.

(** X28: the reference coordinates [Estimate] writes are the grid
    positions the search starts from for every patch exactly when the
    frame is square: the two places divide the patch number by different
    sides of the grid. *)
Theorem reference_grid_square (A : cube) (Nx Ny blockSize motionWindow k : Z) :
  1 <= blockSize -> blockSize <= Nx < 2 ^ 15 -> blockSize <= Ny < 2 ^ 15 ->
  let e := fresh A Nx Ny blockSize motionWindow in
  (forall it, 0 <= it < vecSize e ->
     reference_patches Nx Ny blockSize 0 it k = patch_row e it /\
     reference_patches Nx Ny blockSize 1 it k = patch_col e it) <->
  Nx = Ny.
Proof.
  intros Hb Hx Hy e.
  assert (Hnx : nxMbs e = Nx - blockSize) by (unfold nxMbs; simpl; rewrite u32_small; lia).
  assert (Hny : nyMbs e = Ny - blockSize) by (unfold nyMbs; simpl; rewrite u32_small; lia).
  assert (Hv : vecSize e = (1 + (Nx - blockSize)) * (1 + (Ny - blockSize))).
  { unfold vecSize. rewrite Hnx, Hny. rewrite u32_small; [reflexivity | nia]. }
  assert (Hrow : forall it, 0 <= it -> patch_row e it = it mod (1 + (Nx - blockSize))).
  { intros it Hit. unfold patch_row. rewrite Hnx, u32_small by lia.
    pose proof (Z.mod_pos_bound it (1 + (Nx - blockSize)) ltac:(lia)).
    rewrite i32_small; [reflexivity | lia]. }
  assert (Href : forall it, reference_patches Nx Ny blockSize 0 it k
                            = it mod (1 + (Ny - blockSize))).
  { intros it. unfold reference_patches. simpl.
    rewrite (u32_small (Ny - blockSize)) by lia. rewrite u32_small by lia. reflexivity. }
  split.
  - intros Hall. destruct (Z.lt_trichotomy Nx Ny) as [H | [H | H]]; [exfalso | exact H | exfalso].
    + destruct (Hall (1 + (Nx - blockSize))) as [Hr _]; [rewrite Hv; nia|].
      rewrite Href, Hrow in Hr by lia.
      rewrite Z.mod_small in Hr by lia. rewrite Z.mod_same in Hr by lia. lia.
    + destruct (Hall (1 + (Ny - blockSize))) as [Hr _]; [rewrite Hv; nia|].
      rewrite Href, Hrow in Hr by lia.
      rewrite Z.mod_same in Hr by lia. rewrite Z.mod_small in Hr by lia. lia.
  - intros <- it Hit. split.
    + rewrite Href, Hrow by lia. reflexivity.
    + unfold reference_patches, patch_col. simpl. rewrite Hny.
      rewrite (u32_small (Nx - blockSize)) by lia. rewrite u32_small by lia.
      rewrite i32_small; [reflexivity|].
      split; [transitivity 0; [lia | apply Z.div_pos; lia]|].
      apply Z.lt_le_trans with (1 + (Nx - blockSize)); [|lia].
      apply Z.div_lt_upper_bound; [lia|]. rewrite Hv in Hit. nia.
Qed.

Lemma reference_grid_square_witness :
  let e := fresh binary_frames 4 4 2 2 in
  (forall it, 0 <= it < vecSize e ->
     reference_patches 4 4 2 0 it 0 = patch_row e it /\
     reference_patches 4 4 2 1 it 0 = patch_col e it) <->
  4 = 4.
Proof. apply (reference_grid_square binary_frames 4 4 2 2 0); lia. Defined.

End ARPSFacts.

(** ** The SVT engine *)

Module SVTFacts.
Import SVT.

(** *** Finite sums of reals *)

Section Sums.
#[local] Open Scope R_scope.

Lemma sumZ_sum_over (n : Z) (f : Z -> R) : sumZ n f = sum_over (seqZ 0 n) f.
Proof. reflexivity. Qed.

Lemma sum_over_nil (f : Z -> R) : sum_over [] f = 0.
Proof. reflexivity. Qed.

Lemma sum_over_cons (a : Z) (l : list Z) (f : Z -> R) :
  sum_over (a :: l) f = f a + sum_over l f.
Proof. reflexivity. Qed.

Lemma sum_over_ext (l : list Z) (f g : Z -> R) :
  (forall i, i ∈ l -> f i = g i) -> sum_over l f = sum_over l g.
Proof.
  induction l as [|a l IH]; intros H; [reflexivity|].
  rewrite !sum_over_cons, (H a) by left. rewrite IH; [reflexivity|].
  intros i Hi. apply H. now right.
Qed.

Lemma sum_over_scal (l : list Z) (c : R) (f : Z -> R) :
  sum_over l (fun i => c * f i) = c * sum_over l f.
Proof.
  induction l as [|a l IH]; [rewrite !sum_over_nil; lra|].
  rewrite !sum_over_cons, IH. lra.
Qed.

Lemma sum_over_plus (l : list Z) (f g : Z -> R) :
  sum_over l (fun i => f i + g i) = sum_over l f + sum_over l g.
Proof.
  induction l as [|a l IH]; [rewrite !sum_over_nil; lra|].
  rewrite !sum_over_cons, IH. lra.
Qed.

Lemma sum_over_zero (l : list Z) : sum_over l (fun _ => 0) = 0.
Proof.
  induction l as [|a l IH]; [reflexivity|]. rewrite sum_over_cons, IH. lra.
Qed.

Lemma sum_over_swap (l l' : list Z) (f : Z -> Z -> R) :
  sum_over l (fun i => sum_over l' (fun j => f i j)) =
  sum_over l' (fun j => sum_over l (fun i => f i j)).
Proof.
  induction l as [|a l IH].
  - rewrite sum_over_nil. symmetry. apply sum_over_zero.
  - rewrite sum_over_cons, IH, <- sum_over_plus. reflexivity.
Qed.

Lemma sum_over_le (l : list Z) (f g : Z -> R) :
  (forall i, i ∈ l -> f i <= g i) -> sum_over l f <= sum_over l g.
Proof.
  induction l as [|a l IH]; intros H; [rewrite !sum_over_nil; lra|].
  rewrite !sum_over_cons.
  assert (f a <= g a) by (apply H; left).
  assert (sum_over l f <= sum_over l g) by (apply IH; intros; apply H; now right).
  lra.
Qed.

Lemma sum_over_mult (l l' : list Z) (f g : Z -> R) :
  sum_over l f * sum_over l' g = sum_over l (fun i => sum_over l' (fun j => f i * g j)).
Proof.
  rewrite Rmult_comm, <- sum_over_scal. apply sum_over_ext. intros i _.
  rewrite sum_over_scal. lra.
Qed.

(** Summing against the Kronecker delta picks one term. *)
Lemma sum_over_delta (l : list Z) (i0 : Z) (f : Z -> R) :
  NoDup l -> i0 ∈ l ->
  sum_over l (fun i => f i * (if decide (i0 = i) then 1 else 0)) = f i0.
Proof.
  induction l as [|a l IH]; intros Hnd Hin; [inversion Hin|].
  apply NoDup_cons in Hnd as [Ha Hnd]. rewrite sum_over_cons.
  destruct (decide (i0 = a)) as [-> | Hne].
  - rewrite (sum_over_ext l _ (fun _ => 0)); [rewrite sum_over_zero; lra|].
    intros i Hi. destruct (decide (a = i)) as [-> | _]; [contradiction | lra].
  - apply elem_of_cons in Hin as [? | Hin]; [contradiction|].
    rewrite IH by assumption. lra.
Qed.

Lemma gram_sum (rows n : Z) (a : Z -> R) (V : rmat) :
  orthonormal_columns rows n V ->
  sumZ rows (fun k => sumZ n (fun i => a i * V k i) * sumZ n (fun i => a i * V k i)) =
  sumZ n (fun i => a i * a i).
Proof.
  intros Hon. rewrite !sumZ_sum_over.
  rewrite (sum_over_ext _ _
             (fun k => sum_over (seqZ 0 n) (fun i => sum_over (seqZ 0 n)
                         (fun j => (a i * a j) * (V k i * V k j))))).
  2:{ intros k _. rewrite !sumZ_sum_over, sum_over_mult. apply sum_over_ext. intros i _.
      apply sum_over_ext. intros j _. lra. }
  rewrite sum_over_swap. apply sum_over_ext. intros i Hi.
  rewrite sum_over_swap.
  rewrite (sum_over_ext _ _ (fun j => (a i * a j) * (if decide (i = j) then 1 else 0))).
  2:{ intros j Hj. rewrite sum_over_scal. f_equal.
      apply elem_of_seqZ in Hi, Hj. rewrite <- (Hon i j) by lia. reflexivity. }
  rewrite (sum_over_delta _ i (fun j => a i * a j)); [reflexivity | apply NoDup_seqZ | exact Hi].
Qed.

(** [|| U diag(s) V^t ||_F ^ 2 = sum_i s_i ^ 2] for orthonormal columns. *)
Lemma frobenius_sq (rows n : Z) (U V : rmat) (sv : rvec) :
  orthonormal_columns rows n U -> orthonormal_columns n n V ->
  sumZ rows (fun p => sumZ n (fun k =>
    sumZ n (fun i => U p i * sv i * V k i) * sumZ n (fun i => U p i * sv i * V k i))) =
  sumZ n (fun i => sv i * sv i).
Proof.
  intros HU HV.
  transitivity (sum_over (seqZ 0 rows)
                  (fun p => sum_over (seqZ 0 n) (fun i => (sv i * sv i) * (U p i * U p i)))).
  { apply sum_over_ext. intros p _.
    etransitivity; [apply (gram_sum n n (fun i => U p i * sv i) V HV)|].
    apply sum_over_ext. intros i _. lra. }
  rewrite sum_over_swap. apply sum_over_ext. intros i Hi.
  rewrite sum_over_scal. apply elem_of_seqZ in Hi.
  change (sum_over (seqZ 0 rows) (fun p => U p i * U p i)) with (sumZ rows (fun p => U p i * U p i)).
  rewrite (HU i i) by lia. destruct (decide (i = i)); [lra | contradiction].
Qed.
End Sums.

(** *** Soft thresholding of a non-negative value *)

Section Soft.
#[local] Open Scope R_scope.

Lemma sign_pos (x : R) : 0 < x -> sign x = 1.
Proof. intros H. unfold sign. destruct (Rlt_dec 0 x); [reflexivity | contradiction]. Qed.

Lemma sign_zero : sign 0 = 0.
Proof. unfold sign. destruct (Rlt_dec 0 0); [lra|]. destruct (Rlt_dec 0 0); [lra | reflexivity]. Qed.

(** On a non-negative entry the rule is [max(x - thresh, 0)], or zero
    when the entry is zero. *)
Lemma SoftThreshold_nonneg_entry (v thresh : rvec) (i : Z) :
  0 <= v i ->
  SoftThreshold v zvec thresh i = (if Rlt_dec 0 (v i) then Rmax (v i - thresh i) 0 else 0).
Proof.
  intros Hv. unfold SoftThreshold, zvec. destruct (Rlt_dec 0 (v i)) as [Hp | Hz].
  - rewrite sign_pos, Rabs_pos_eq by lra. lra.
  - replace (v i) with 0 by lra. rewrite sign_zero. lra.
Qed.

Lemma SoftThreshold_nonneg (v thresh : rvec) (i : Z) :
  0 <= v i -> 0 <= SoftThreshold v zvec thresh i.
Proof.
  intros Hv. rewrite SoftThreshold_nonneg_entry by assumption.
  destruct (Rlt_dec 0 (v i)); [apply Rmax_r | lra].
Qed.

Lemma SoftThreshold_zero (v : rvec) (i : Z) :
  0 <= v i -> SoftThreshold v zvec (fun _ => 0) i = v i.
Proof.
  intros Hv. rewrite SoftThreshold_nonneg_entry by assumption.
  destruct (Rlt_dec 0 (v i)); [rewrite Rmax_left; lra | lra].
Qed.

Lemma SoftThreshold_antitone (v : rvec) (l1 l2 : R) (i : Z) :
  0 <= v i -> l1 <= l2 ->
  SoftThreshold v zvec (fun _ => l2) i <= SoftThreshold v zvec (fun _ => l1) i.
Proof.
  intros Hv Hl. rewrite !SoftThreshold_nonneg_entry by assumption.
  destruct (Rlt_dec 0 (v i)); [|lra].
  apply Rmax_case_strong; intros H; [|apply Rmax_r].
  eapply Rle_trans; [|apply Rmax_l]. lra.
Qed.

Lemma SoftThreshold_above (v thresh : rvec) (i : Z) :
  0 <= v i <= thresh i -> SoftThreshold v zvec thresh i = 0.
Proof.
  intros Hv. rewrite SoftThreshold_nonneg_entry by lra.
  destruct (Rlt_dec 0 (v i)); [rewrite Rmax_right; lra | reflexivity].
Qed.

Lemma foldr_Rmax_init (x : R) (l : list R) : x <= foldr Rmax x l.
Proof.
  induction l as [|a l IH]; simpl; [lra|]. eapply Rle_trans; [exact IH | apply Rmax_r].
Qed.

Lemma foldr_Rmax_elem (x y : R) (l : list R) : y ∈ l -> y <= foldr Rmax x l.
Proof.
  induction l as [|a l IH]; intros Hy; [inversion Hy|]. simpl.
  apply elem_of_cons in Hy as [-> | Hy]; [apply Rmax_l|].
  eapply Rle_trans; [apply IH, Hy | apply Rmax_r].
Qed.

Lemma vec_max_ge (S : rvec) (n i : Z) : (0 <= i < n)%Z -> S i <= vec_max S n.
Proof.
  intros Hi. unfold vec_max. destruct (decide (i = 0%Z)) as [-> | Hne].
  - apply foldr_Rmax_init.
  - apply foldr_Rmax_elem. apply list_elem_of_fmap. exists i. split; [reflexivity|].
    apply elem_of_seqZ. lia.
Qed.
End Soft.

Lemma Decompose_indices (svd_econ : rmat -> svd_triple) (s : SVT) (u : rcube) :
  (Decompose svd_econ s u).*1 = actualPatches s.
Proof.
  unfold Decompose. rewrite <- list_fmap_compose. apply list_fmap_id.
Qed.

Section EngineFacts.
#[local] Open Scope R_scope.
Variable s : SVT.

Lemma threshold_scalar (t : svd_triple) (lambda : R) :
  expWeighting s = false ->
  threshold s t lambda = SoftThreshold (Sblock t) zvec (fun _ => lambda).
Proof. intros H. unfold threshold. now rewrite H. Qed.

Lemma threshold_weighted (t : svd_triple) (lambda : R) :
  expWeighting s = true ->
  threshold s t lambda = SoftThreshold (Sblock t) zvec (wvec s t lambda).
Proof. intros H. unfold threshold. now rewrite H. Qed.

(** For non-negative singular values the absolute value in [wvec] changes
    nothing. *)
Lemma wvec_value (t : svd_triple) (lambda : R) (i : Z) :
  (forall i, (0 <= i < Nt s)%Z -> 0 <= Sblock t i) ->
  (0 <= i < Nt s)%Z ->
  wvec s t lambda i =
    vec_max (Sblock t) (Nt s) * exp (- (1 / 2) * lambda * (Sblock t i * Sblock t i)) /\
  0 <= wvec s t lambda i.
Proof.
  intros Hpos Hi.
  assert (Hmax : 0 <= vec_max (Sblock t) (Nt s)).
  { eapply Rle_trans; [apply (Hpos 0%Z); lia | apply vec_max_ge; lia]. }
  assert (H : 0 <= vec_max (Sblock t) (Nt s)
                   * exp (- (1 / 2) * lambda * (Sblock t i * Sblock t i))).
  { apply Rmult_le_pos; [exact Hmax | left; apply exp_pos]. }
  unfold wvec. rewrite Rabs_pos_eq by exact H. split; [reflexivity | exact H].
Qed.

(** The rule applied to each singular value when weighting is on. *)
Lemma threshold_weighted_rule (t : svd_triple) (lambda : R) (i : Z) :
  expWeighting s = true ->
  (forall i, (0 <= i < Nt s)%Z -> 0 <= Sblock t i) ->
  (0 <= i < Nt s)%Z ->
  threshold s t lambda i =
    Rmax (Sblock t i - vec_max (Sblock t) (Nt s)
                       * exp (- (1 / 2) * lambda * (Sblock t i * Sblock t i))) 0.
Proof.
  intros Hmode Hpos Hi. rewrite threshold_weighted by assumption.
  destruct (wvec_value t lambda i Hpos Hi) as [Hw Hw0].
  rewrite SoftThreshold_nonneg_entry by (apply Hpos, Hi). rewrite Hw in *.
  destruct (Rlt_dec 0 (Sblock t i)) as [Hp | Hz]; [reflexivity|].
  pose proof (Hpos i Hi) as H0. rewrite Rmax_right; lra.
Qed.

(** Squared Frobenius norm of a rebuilt patch. *)
Lemma reconstruct_block_sq (M : rmat) (t : svd_triple) (lambda : R) :
  svd_contract (blockSize s * blockSize s) (Nt s) M t ->
  sumZ (blockSize s * blockSize s) (fun p => sumZ (Nt s) (fun k =>
    reconstruct_block s t lambda p k * reconstruct_block s t lambda p k)) =
  sumZ (Nt s) (fun i => threshold s t lambda i * threshold s t lambda i).
Proof.
  intros (_ & _ & HU & HV). unfold reconstruct_block.
  apply (frobenius_sq _ _ (Ublock t) (Vblock t) (threshold s t lambda) HU HV).
Qed.

(** With no threshold the block is the Casorati matrix again. *)
Lemma reconstruct_block_zero (M : rmat) (t : svd_triple) (p k : Z) :
  expWeighting s = false ->
  svd_contract (blockSize s * blockSize s) (Nt s) M t ->
  (0 <= p < blockSize s * blockSize s)%Z -> (0 <= k < Nt s)%Z ->
  reconstruct_block s t 0 p k = M p k.
Proof.
  intros Hmode (Hrec & Hpos & _ & _) Hp Hk. rewrite <- (Hrec p k Hp Hk).
  unfold reconstruct_block. apply sum_over_ext. intros i Hi. apply elem_of_seqZ in Hi.
  rewrite threshold_scalar by assumption.
  rewrite SoftThreshold_zero by (apply Hpos; lia). reflexivity.
Qed.
End EngineFacts.

Section Blend.
#[local] Open Scope R_scope.
Variable svd_econ : rmat -> svd_triple.
Variable s : SVT.
Variable u : rcube.

#[local] Abbreviation decomposed l :=
  ((fun idx => (idx, svd_econ (extract_block s u idx))) <$> l).

Lemma weights_cons (idx : Z) (t : svd_triple) (dec : list (Z * svd_triple)) (r c k : Z) :
  weights s ((idx, t) :: dec) r c k =
  ((if covers s idx r c k then 1 else 0) + weights s dec r c k)%Z.
Proof.
  unfold weights. rewrite fmap_cons, filter_cons. simpl.
  destruct (covers s idx r c k); simpl.
  - destruct (decide (true = true)); [|contradiction]. simpl length. lia.
  - destruct (decide (false = true)); [discriminate|]. lia.
Qed.

Lemma weights_nonneg (dec : list (Z * svd_triple)) (r c k : Z) : (0 <= weights s dec r c k)%Z.
Proof. unfold weights. lia. Qed.

Lemma accumulated_cons (idx : Z) (t : svd_triple) (dec : list (Z * svd_triple))
    (lambda : R) (r c k : Z) :
  accumulated s ((idx, t) :: dec) lambda r c k =
  (if covers s idx r c k
   then reconstruct_block s t lambda
          ((r - newY s idx k) + (c - newX s idx k) * blockSize s)%Z k
   else 0) + accumulated s dec lambda r c k.
Proof. reflexivity. Qed.

(** A covered pixel sits at the expected entry of the Casorati matrix. *)
Lemma covered_entry (idx r c k : Z) :
  covers s idx r c k = true ->
  let p := ((r - newY s idx k) + (c - newX s idx k) * blockSize s)%Z in
  (0 <= p < blockSize s * blockSize s)%Z /\ extract_block s u idx p k = u r c k.
Proof.
  unfold covers. rewrite !andb_true_iff, !Z.leb_le. intros [[[H1 H2] H3] H4]. simpl.
  set (dy := (r - newY s idx k)%Z). set (dx := (c - newX s idx k)%Z).
  assert (Hdy : (0 <= dy < blockSize s)%Z) by (unfold dy; lia).
  assert (Hdx : (0 <= dx < blockSize s)%Z) by (unfold dx; lia).
  split; [nia|]. unfold extract_block.
  rewrite Z.mod_add by lia. rewrite Z.div_add by lia.
  rewrite Z.mod_small by lia. rewrite Z.div_small by lia.
  assert (Er : (newY s idx k + dy)%Z = r) by (unfold dy; lia).
  assert (Ec : (newX s idx k + (0 + dx))%Z = c) by (unfold dx; lia).
  now rewrite Er, Ec.
Qed.

(** With [lambda = 0] and no weighting the accumulator holds the input
    sample once per covering patch. *)
Lemma accumulated_zero_lambda (l : list Z) (r c k : Z) :
  expWeighting s = false ->
  (forall idx, idx ∈ l ->
     svd_contract (blockSize s * blockSize s) (Nt s) (extract_block s u idx)
                  (svd_econ (extract_block s u idx))) ->
  (0 <= k < Nt s)%Z ->
  accumulated s (decomposed l) 0 r c k = IZR (weights s (decomposed l) r c k) * u r c k.
Proof.
  intros Hmode Hsvd Hk. induction l as [|idx l IH].
  - change (0 = IZR 0 * u r c k). lra.
  - rewrite fmap_cons, accumulated_cons, weights_cons, plus_IZR.
    rewrite IH by (intros i Hi; apply Hsvd; now right).
    destruct (covers s idx r c k) eqn:Hcov; [|lra].
    destruct (covered_entry idx r c k Hcov) as [Hp Hu].
    rewrite (reconstruct_block_zero s (extract_block s u idx)); auto; [|apply Hsvd; left].
    rewrite Hu. lra.
Qed.

(** With weighting switched on, [lambda = 0] removes every singular value. *)
Lemma threshold_weighted_zero (t : svd_triple) (i : Z) :
  expWeighting s = true ->
  (forall i, (0 <= i < Nt s)%Z -> 0 <= Sblock t i) ->
  (0 <= i < Nt s)%Z ->
  threshold s t 0 i = 0.
Proof.
  intros Hmode Hpos Hi. rewrite threshold_weighted by assumption.
  apply SoftThreshold_above. split; [apply Hpos, Hi|].
  unfold wvec. replace (- (1 / 2) * 0 * (Sblock t i * Sblock t i)) with 0 by lra.
  rewrite exp_0, Rmult_1_r.
  eapply Rle_trans; [apply (vec_max_ge (Sblock t) (Nt s) i Hi) | apply Rle_abs].
Qed.

Lemma accumulated_weighted_zero (l : list Z) (r c k : Z) :
  expWeighting s = true ->
  (forall idx i, idx ∈ l -> (0 <= i < Nt s)%Z ->
     0 <= Sblock (svd_econ (extract_block s u idx)) i) ->
  accumulated s (decomposed l) 0 r c k = 0.
Proof.
  intros Hmode Hpos. induction l as [|idx l IH].
  - reflexivity.
  - rewrite fmap_cons, accumulated_cons.
    rewrite IH by (intros j i Hj; apply Hpos; now right).
    destruct (covers s idx r c k); [|lra].
    unfold reconstruct_block. rewrite sumZ_sum_over.
    rewrite (sum_over_ext _ _ (fun _ => 0)); [rewrite sum_over_zero; lra|].
    intros i Hi. apply elem_of_seqZ in Hi.
    rewrite threshold_weighted_zero; auto; [lra|].
    intros i' Hi'. apply Hpos; [left | exact Hi'].
Qed.

(** The accumulator is the sum of the rebuilt blocks' entries over the
    patches that cover the pixel. *)
Lemma accumulated_covering (l : list Z) (lambda : R) (r c k : Z) :
  accumulated s (decomposed l) lambda r c k =
  sum_over (filter (fun idx => covers s idx r c k = true) l)
    (fun idx => reconstruct_block s (svd_econ (extract_block s u idx)) lambda
                  ((r - newY s idx k) + (c - newX s idx k) * blockSize s)%Z k).
Proof.
  induction l as [|idx l IH]; [reflexivity|].
  rewrite fmap_cons, accumulated_cons, IH, filter_cons. cbv beta.
  destruct (covers s idx r c k) eqn:E.
  - rewrite decide_True by reflexivity. rewrite sum_over_cons. reflexivity.
  - rewrite decide_False by discriminate. lra.
Qed.
End Blend.

Lemma sumZ_1 (f : Z -> R) : sumZ 1 f = (f 0%Z + 0)%R.
Proof. reflexivity. Qed.

Lemma sumZ_4 (f : Z -> R) : sumZ 4 f = (f 0%Z + (f 1%Z + (f 2%Z + (f 3%Z + 0))))%R.
Proof. reflexivity. Qed.

Lemma example_patches (weighting : bool) :
  actualPatches (engine_example weighting) = [0; 1; 2; 3].
Proof. reflexivity. Qed.

Lemma example_contract (weighting : bool) (idx : Z) :
  svd_contract 4 1 (extract_block (engine_example weighting) window_example idx)
               (svd_example (extract_block (engine_example weighting) window_example idx)).
Proof.
  unfold svd_contract, svd_example, orthonormal_columns; simpl.
  split; [|split; [|split]].
  - intros p k _ _. rewrite sumZ_1. unfold extract_block, window_example. lra.
  - intros i _. lra.
  - intros i j Hi Hj. rewrite sumZ_4. destruct (decide (i = j)); [lra | lia].
  - intros i j Hi Hj. rewrite sumZ_1. destruct (decide (i = j)); [lra | lia].
Qed.

(** On a 10 x 10 frame with [blockSize = 4] and [blockOverlap = 4] the
    decomposed patches are those of indices 0, 4, 6, 24, 28, 34, 42, 46;
    none of them has its corner at (6, 6), so in the reference frame the
    weight accumulator is zero at pixel (9, 9) and the reconstruction is
    zero filled there. *)
Example coverage_gap_at_corner (svd_econ : rmat -> svd_triple) (u : rcube) (lambda : R) :
  let s := Engine (ARPS.reference_patches 10 10 4) 10 10 3 4 4 true in
  actualPatches s = [0; 4; 6; 24; 28; 34; 42; 46] /\
  weights s (Decompose svd_econ s u) 9 9 1 = 0 /\
  Reconstruct s (Decompose svd_econ s u) lambda 9 9 1 = 0%R.
Proof.
  intros s.
  assert (Hw : weights s (Decompose svd_econ s u) 9 9 1 = 0).
  { unfold weights. rewrite Decompose_indices. reflexivity. }
  split; [reflexivity|]. split; [exact Hw|].
  unfold Reconstruct. now rewrite Hw.
Qed.

(** C2 (as amended): without exponential weighting, [Reconstruct(0)]
    returns the input sample at every pixel that at least one decomposed
    patch covers, whenever the decomposition meets the contract of
    [svd_econ]. *)
Theorem Reconstruct_zero_lambda (svd_econ : rmat -> svd_triple) (s : SVT) (u : rcube)
    (r c k : Z) :
  expWeighting s = false ->
  (forall idx, idx ∈ actualPatches s ->
     svd_contract (blockSize s * blockSize s) (Nt s) (extract_block s u idx)
                  (svd_econ (extract_block s u idx))) ->
  0 <= k < Nt s ->
  1 <= weights s (Decompose svd_econ s u) r c k ->
  Reconstruct s (Decompose svd_econ s u) 0 r c k = u r c k.
Proof.
  intros Hmode Hsvd Hk Hw. unfold Reconstruct.
  destruct (weights s (Decompose svd_econ s u) r c k =? 0) eqn:E; [apply Z.eqb_eq in E; lia|].
  unfold Decompose in *. rewrite (accumulated_zero_lambda svd_econ s u) by assumption.
  field. apply not_0_IZR. lia.
Qed.

Lemma Reconstruct_zero_lambda_witness :
  Reconstruct (engine_example false)
    (Decompose svd_example (engine_example false) window_example) 0 1 1 0 =
  window_example 1 1 0.
Proof.
  apply (Reconstruct_zero_lambda svd_example (engine_example false) window_example 1 1 0).
  - reflexivity.
  - intros idx _. apply (example_contract false idx).
  - simpl. lia.
  - unfold weights. rewrite Decompose_indices. vm_compute. discriminate.
Defined.

(** C2 (counterexample): with exponential weighting the same window,
    decomposed by the same routine, is rebuilt as zero at the centre pixel,
    which four patches cover and whose input sample is 1. *)
Lemma Reconstruct_zero_lambda_weighted :
  (forall idx, svd_contract 4 1 (extract_block (engine_example true) window_example idx)
                 (svd_example (extract_block (engine_example true) window_example idx))) /\
  weights (engine_example true)
    (Decompose svd_example (engine_example true) window_example) 1 1 0 = 4 /\
  Reconstruct (engine_example true)
    (Decompose svd_example (engine_example true) window_example) 0 1 1 0 = 0%R /\
  window_example 1 1 0 = 1%R.
Proof.
  split; [apply (example_contract true)|].
  assert (Hw : weights (engine_example true)
                 (Decompose svd_example (engine_example true) window_example) 1 1 0 = 4).
  { unfold weights. rewrite Decompose_indices. reflexivity. }
  split; [exact Hw|]. split; [|reflexivity].
  unfold Reconstruct. rewrite Hw. simpl.
  unfold Decompose. rewrite (accumulated_weighted_zero svd_example (engine_example true)).
  - lra.
  - reflexivity.
  - intros idx i _ _. simpl. lra.
Qed.

(** C6: in scalar mode, for thresholds [0 <= lambda1 <= lambda2] the
    patch rebuilt at [lambda2] has Frobenius norm at most that of the patch
    rebuilt at [lambda1], and no thresholded singular value is negative. *)
Theorem threshold_monotone (svd_econ : rmat -> svd_triple) (s : SVT) (u : rcube)
    (idx : Z) (t : svd_triple) (lambda1 lambda2 : R) :
  expWeighting s = false ->
  (idx, t) ∈ Decompose svd_econ s u ->
  svd_contract (blockSize s * blockSize s) (Nt s) (extract_block s u idx) t ->
  (0 <= lambda1 <= lambda2)%R ->
  (frobenius (blockSize s * blockSize s) (Nt s) (reconstruct_block s t lambda2) <=
   frobenius (blockSize s * blockSize s) (Nt s) (reconstruct_block s t lambda1))%R /\
  (forall lambda i, 0 <= i < Nt s -> (0 <= threshold s t lambda i)%R).
Proof.
  intros Hmode _ Hsvd Hl.
  assert (Hpos : forall lambda i, 0 <= i < Nt s -> (0 <= threshold s t lambda i)%R).
  { intros lambda i Hi. rewrite threshold_scalar by assumption.
    apply SoftThreshold_nonneg. destruct Hsvd as (_ & HS & _). now apply HS. }
  split; [|exact Hpos].
  unfold frobenius. rewrite !(reconstruct_block_sq s _ t _ Hsvd).
  apply sqrt_le_1_alt. apply sum_over_le. intros i Hi. apply elem_of_seqZ in Hi.
  assert (H2 := Hpos lambda2 i ltac:(lia)).
  assert (Hle : (threshold s t lambda2 i <= threshold s t lambda1 i)%R).
  { rewrite !threshold_scalar by assumption. apply SoftThreshold_antitone; [|lra].
    destruct Hsvd as (_ & HS & _). apply HS. lia. }
  apply Rmult_le_compat; lra.
Qed.

Lemma threshold_monotone_witness :
  (frobenius 4 1 (reconstruct_block (engine_example false)
                    (svd_example (extract_block (engine_example false) window_example 0)) 3) <=
   frobenius 4 1 (reconstruct_block (engine_example false)
                    (svd_example (extract_block (engine_example false) window_example 0)) 1))%R /\
  (forall lambda i, 0 <= i < 1 ->
     (0 <= threshold (engine_example false)
             (svd_example (extract_block (engine_example false) window_example 0)) lambda i)%R).
Proof.
  apply (threshold_monotone svd_example (engine_example false) window_example 0
           (svd_example (extract_block (engine_example false) window_example 0)) 1 3).
  - reflexivity.
  - unfold Decompose. rewrite example_patches. left.
  - apply (example_contract false 0).
  - lra.
Defined.

(** C7: with exponential weighting, [Reconstruct(lambda)] thresholds the
    singular values of every patch with the vector
    [w[i] = max(S) * exp(-0.5 * lambda * S[i]^2)] in place of the scalar
    [lambda]: singular value [S[i]] becomes [max(S[i] - w[i], 0)], each
    rebuilt block is [U * diag(max(S - w, 0)) * V^t], and the value
    returned at a covered pixel is the mean of these blocks' entries over
    the patches that cover it.  At [lambda = 0] every [w[i]] is [max(S)],
    every singular value is removed and the value returned is 0. *)
Theorem weighted_threshold_vector (svd_econ : rmat -> svd_triple) (s : SVT) (u : rcube)
    (lambda : R) (r c k : Z) :
  expWeighting s = true ->
  (forall idx i, idx ∈ actualPatches s -> 0 <= i < Nt s ->
     (0 <= Sblock (svd_econ (extract_block s u idx)) i)%R) ->
  1 <= weights s (Decompose svd_econ s u) r c k ->
  let w := fun (t : svd_triple) (l : R) (i : Z) =>
    (vec_max (Sblock t) (Nt s) * exp (- (1 / 2) * l * (Sblock t i * Sblock t i)))%R in
  let block := fun (t : svd_triple) (l : R) (p k' : Z) =>
    sumZ (Nt s) (fun i => (Ublock t p i * Rmax (Sblock t i - w t l i) 0 * Vblock t k' i)%R) in
  let covering := filter (fun idx => covers s idx r c k = true) (actualPatches s) in
  (forall idx t, (idx, t) ∈ Decompose svd_econ s u ->
     threshold s t lambda = SoftThreshold (Sblock t) zvec (wvec s t lambda) /\
     (forall i, 0 <= i < Nt s ->
        wvec s t lambda i = w t lambda i /\
        wvec s t 0 i = vec_max (Sblock t) (Nt s) /\
        threshold s t lambda i = Rmax (Sblock t i - w t lambda i) 0 /\
        threshold s t 0 i = 0%R) /\
     (forall p k', reconstruct_block s t lambda p k' = block t lambda p k')) /\
  weights s (Decompose svd_econ s u) r c k = Z.of_nat (length covering) /\
  Reconstruct s (Decompose svd_econ s u) lambda r c k =
    (sum_over covering
       (fun idx => block (svd_econ (extract_block s u idx)) lambda
                     ((r - newY s idx k) + (c - newX s idx k) * blockSize s)%Z k)
     / IZR (Z.of_nat (length covering)))%R /\
  Reconstruct s (Decompose svd_econ s u) 0 r c k = 0%R.
Proof.
  intros Hmode Hpos Hcov w block covering.
  assert (Hblock : forall idx, idx ∈ actualPatches s -> forall l p k',
            reconstruct_block s (svd_econ (extract_block s u idx)) l p k' =
            block (svd_econ (extract_block s u idx)) l p k').
  { intros idx Hidx l p k'. unfold reconstruct_block, block. apply sum_over_ext.
    intros i Hi. apply elem_of_seqZ in Hi.
    rewrite (threshold_weighted_rule s _ l i Hmode) by (try apply Hpos; auto; lia).
    reflexivity. }
  assert (Hw : weights s (Decompose svd_econ s u) r c k = Z.of_nat (length covering)).
  { unfold weights. now rewrite Decompose_indices. }
  split; [|split; [exact Hw|split]].
  - intros idx t Ht. unfold Decompose in Ht.
    apply list_elem_of_fmap in Ht as (idx' & [= -> ->] & Hidx).
    split; [now apply threshold_weighted|]. split; [|intros p k'; now apply Hblock].
    intros i Hi.
    destruct (wvec_value s _ lambda i (fun i' => Hpos idx' i' Hidx) Hi) as [Hl _].
    destruct (wvec_value s _ 0 i (fun i' => Hpos idx' i' Hidx) Hi) as [H0 _].
    split; [exact Hl|]. split.
    + rewrite H0. unfold Rdiv.
      replace (- (1 * / 2) * 0 * (Sblock (svd_econ (extract_block s u idx')) i
                                  * Sblock (svd_econ (extract_block s u idx')) i))%R
        with 0%R by lra.
      now rewrite exp_0, Rmult_1_r.
    + split.
      * apply threshold_weighted_rule; [exact Hmode | intros i'; now apply Hpos | exact Hi].
      * apply (threshold_weighted_zero s); [exact Hmode | intros i'; now apply Hpos | exact Hi].
  - unfold Reconstruct. rewrite Hw in *.
    destruct (Z.of_nat (length covering) =? 0) eqn:E; [apply Z.eqb_eq in E; lia|].
    unfold Decompose. rewrite (accumulated_covering svd_econ s u). f_equal.
    apply sum_over_ext. intros idx Hidx. apply Hblock.
    apply list_elem_of_filter in Hidx as [_ Hidx]. exact Hidx.
  - unfold Reconstruct. destruct (_ =? 0); [reflexivity|].
    unfold Decompose. rewrite (accumulated_weighted_zero svd_econ s u) by auto.
    unfold Rdiv. apply Rmult_0_l.
Qed.

Lemma weighted_threshold_vector_witness :
  Reconstruct (engine_example true)
    (Decompose svd_example (engine_example true) window_example) 5 1 1 0 = (1 - exp (- 10))%R /\
  Reconstruct (engine_example true)
    (Decompose svd_example (engine_example true) window_example) 0 1 1 0 = 0%R.
Proof.
  destruct (weighted_threshold_vector svd_example (engine_example true) window_example
              5 1 1 0) as (_ & _ & Hmean & Hzero).
  - reflexivity.
  - intros idx i _ _. simpl. lra.
  - unfold weights. rewrite Decompose_indices. vm_compute. discriminate.
  - split; [|exact Hzero]. rewrite Hmean.
    change (filter (fun idx => covers (engine_example true) idx 1 1 0 = true)
              (actualPatches (engine_example true))) with [0; 1; 2; 3].
    unfold sum_over. cbn [fmap list_fmap foldr length Nt engine_example]. rewrite !sumZ_1.
    cbn [svd_example Ublock Sblock Vblock vec_max Nt engine_example].
    change (vec_max (fun _ : Z => 2%R) 1) with 2%R.
    replace (- (1 / 2) * 5 * (2 * 2))%R with (- 10)%R by lra.
    assert (He : (exp (- 10) < 1)%R).
    { rewrite <- exp_0. apply exp_increasing. lra. }
    rewrite Rmax_left by lra. change (IZR (Z.of_nat 4)) with 4%R. lra.
Defined.

(** *** The patch grid *)

Lemma strided_elem (fuel : nat) (i limit step x : Z) :
  0 <= step -> x ∈ strided fuel i limit step ->
  exists q, 0 <= q /\ x = i + q * step /\ x < limit.
Proof.
  intros Hstep. revert i. induction fuel as [|fuel IH]; intros i; simpl; [intros H; inversion H|].
  destruct (i <? limit) eqn:E; [|intros H; inversion H]. apply Z.ltb_lt in E.
  intros H. apply elem_of_cons in H as [-> | H].
  - exists 0. lia.
  - destruct (IH _ H) as (q & Hq & -> & Hlt). exists (q + 1). lia.
Qed.

Lemma stride_loop_elem (limit step x : Z) :
  0 < step -> x ∈ stride_loop limit step -> 0 <= x < limit /\ x mod step = 0.
Proof.
  intros Hstep H. apply strided_elem in H as (q & Hq & -> & Hlt); [|lia].
  split; [nia|]. rewrite Z.add_0_l. apply Z.mod_mul. lia.
Qed.

Lemma insert_unique_elem (x y : Z) (l : list Z) : y ∈ insert_unique x l -> y = x \/ y ∈ l.
Proof.
  induction l as [|a l IH]; simpl.
  - intros H. apply list_elem_of_singleton in H. now left.
  - destruct (x <? a); [intros H; apply elem_of_cons in H as [-> | H]; auto|].
    destruct (x =? a); [auto|].
    intros H. apply elem_of_cons in H as [-> | H]; [right; left|].
    destruct (IH H) as [-> | H']; [now left | right; now right].
Qed.

Lemma sort_unique_elem (y : Z) (l : list Z) : y ∈ sort_unique l -> y ∈ l.
Proof.
  induction l as [|a l IH]; simpl; [auto|].
  intros H. apply insert_unique_elem in H as [-> | H]; [left | right; auto].
Qed.

Lemma weights_none (s : SVT) (dec : list (Z * svd_triple)) (r c k : Z) :
  (forall idx, idx ∈ dec.*1 -> covers s idx r c k = false) -> weights s dec r c k = 0.
Proof.
  unfold weights. induction (dec.*1) as [|idx l IH]; intros H; [reflexivity|].
  rewrite filter_cons. rewrite (H idx) by left.
  destruct (decide (false = true)); [discriminate|]. apply IH. intros i Hi. apply H. now right.
Qed.

(** X1 (the case C1 leaves out): on a square frame whose free margin
    [N - blockSize] is not a multiple of [blockOverlap], no decomposed
    patch has its corner at [(N - blockSize, N - blockSize)]: the strided
    grid stops short of it and the forced edge patches are only taken at
    multiples of [blockOverlap].  In the reference frame the last pixel of
    the frame is then covered by no patch, its weight is zero and the
    reconstruction is zero filled there. *)
Theorem corner_uncovered (svd_econ : rmat -> svd_triple) (u : rcube) (lambda : R)
    (N frames size overlap k : Z) (weighting : bool) :
  0 < overlap -> 0 < size < N -> N < 2 ^ 15 -> (N - size) mod overlap <> 0 ->
  let s := Engine (ARPS.reference_patches N N size) N N frames size overlap weighting in
  weights s (Decompose svd_econ s u) (N - 1) (N - 1) k = 0 /\
  Reconstruct s (Decompose svd_econ s u) lambda (N - 1) (N - 1) k = 0%R.
Proof.
  intros Hov Hsize HN Hmod s.
  assert (Hw : weights s (Decompose svd_econ s u) (N - 1) (N - 1) k = 0).
  { apply weights_none. rewrite Decompose_indices. intros idx Hidx.
    apply sort_unique_elem in Hidx. unfold joinPatches in Hidx.
    set (n := N - size) in *.
    assert (Hnpos : 0 < n < 2 ^ 15) by (unfold n; lia).
    assert (Hn : nxMbs s = n /\ nyMbs s = n).
    { unfold nxMbs, nyMbs; simpl. fold n. rewrite u32_small by lia. auto. }
    destruct Hn as [Hnx Hny].
    assert (Hn1 : u32 (1 + n) = n + 1) by (rewrite u32_small; lia).
    assert (Hn2 : u32 (n + 1) = n + 1) by (rewrite u32_small; lia).
    assert (Hcov : covers s idx (N - 1) (N - 1) k = true ->
                   n <= idx mod (n + 1) /\ n <= idx / (n + 1)).
    { unfold covers, newY, newX; simpl. unfold ARPS.reference_patches; simpl. fold n.
      rewrite (u32_small n) by lia. rewrite Hn1.
      rewrite !andb_true_iff, !Z.leb_le. unfold n. lia. }
    destruct (covers s idx (N - 1) (N - 1) k) eqn:E; [exfalso | reflexivity].
    destruct (Hcov eq_refl) as [Hy Hx]. clear Hcov E.
    assert (Hm : 0 <= idx mod (n + 1) < n + 1) by (apply Z.mod_pos_bound; lia).
    pose proof (Z.div_mod idx (n + 1) ltac:(lia)) as Hdm.
    rewrite !elem_of_app in Hidx. destruct Hidx as [H | [H | H]].
    - unfold firstPatches in H. rewrite Hnx, Hny, Hn1 in H. simpl in H.
      apply list_elem_of_bind in H as (i & H & Hi).
      apply list_elem_of_bind in H as (j & H & Hj).
      apply list_elem_of_singleton in H.
      apply stride_loop_elem in Hi as [Hi _]; [|lia].
      apply stride_loop_elem in Hj as [Hj _]; [|lia].
      assert (i * n <= n * n) by nia.
      assert ((n + 1) * n <= (n + 1) * (idx / (n + 1))) by nia. lia.
    - unfold patchesRightEdge in H. rewrite Hnx, Hny, Hn1, Hn2 in H. simpl in H.
      rewrite (u32_small ((n + 1) * n)) in H by nia.
      apply list_elem_of_fmap in H as (i & -> & Hi).
      apply stride_loop_elem in Hi as [Hi Him]; [|lia].
      assert (i = n) by nia. subst i. unfold n in Him. contradiction.
    - unfold patchesBottomEdge in H. rewrite Hnx, Hny, Hn1, Hn2 in H. simpl in H.
      apply list_elem_of_fmap in H as (i & -> & Hi).
      apply stride_loop_elem in Hi as [Hi Him]; [|lia].
      assert (i = n) by nia. subst i. unfold n in Him. contradiction. }
  split; [exact Hw|]. unfold Reconstruct. now rewrite Hw.
Qed.

Lemma corner_uncovered_witness :
  weights (Engine (ARPS.reference_patches 10 10 4) 10 10 3 4 4 true)
    (Decompose svd_example (Engine (ARPS.reference_patches 10 10 4) 10 10 3 4 4 true)
       window_example) 9 9 1 = 0 /\
  Reconstruct (Engine (ARPS.reference_patches 10 10 4) 10 10 3 4 4 true)
    (Decompose svd_example (Engine (ARPS.reference_patches 10 10 4) 10 10 3 4 4 true)
       window_example) 0 9 9 1 = 0%R.
Proof.
  apply (corner_uncovered svd_example window_example 0%R 10 3 4 4 1 true); try lia.
  vm_compute. discriminate.
Defined.

Lemma strided_complete (q : nat) :
  forall (fuel : nat) (i limit step : Z),
    0 <= step -> (q < fuel)%nat -> i + Z.of_nat q * step < limit ->
    i + Z.of_nat q * step ∈ strided fuel i limit step.
Proof.
  induction q as [|q IH]; intros fuel i limit step Hstep Hfuel Hlt;
    (destruct fuel as [|fuel]; [lia|]); simpl.
  - replace (i + Z.of_nat 0 * step) with i in * by lia.
    rewrite (proj2 (Z.ltb_lt _ _)) by lia. left.
  - rewrite (proj2 (Z.ltb_lt i limit)) by nia. right.
    replace (i + Z.of_nat (S q) * step) with ((i + step) + Z.of_nat q * step) in * by lia.
    apply IH; [lia | lia | lia].
Qed.

Lemma stride_loop_complete (limit step q : Z) :
  0 < step -> 0 <= q -> q * step < limit -> q * step ∈ stride_loop limit step.
Proof.
  intros Hstep Hq Hlt. unfold stride_loop.
  replace (q * step) with (0 + Z.of_nat (Z.to_nat q) * step) by lia.
  apply strided_complete; [lia | nia | lia].
Qed.

Lemma insert_unique_complete (x y : Z) (l : list Z) : y = x \/ y ∈ l -> y ∈ insert_unique x l.
Proof.
  induction l as [|a l IH]; simpl; intros H.
  - destruct H as [-> | H]; [left | inversion H].
  - destruct (x <? a) eqn:E1; [destruct H as [-> | H]; [left | now right]|].
    destruct (x =? a) eqn:E2.
    + apply Z.eqb_eq in E2. subst a. destruct H as [-> | H]; [left | exact H].
    + destruct H as [-> | H]; [right; apply IH; now left|].
      apply elem_of_cons in H as [-> | H]; [left | right; apply IH; now right].
Qed.

Lemma sort_unique_complete (y : Z) (l : list Z) : y ∈ l -> y ∈ sort_unique l.
Proof.
  induction l as [|a l IH]; simpl; intros H; [inversion H|].
  apply insert_unique_complete. apply elem_of_cons in H as [-> | H]; auto.
Qed.

Lemma weights_some (s : SVT) (dec : list (Z * svd_triple)) (idx r c k : Z) :
  idx ∈ dec.*1 -> covers s idx r c k = true -> 1 <= weights s dec r c k.
Proof.
  unfold weights. induction (dec.*1) as [|a l IH]; intros Hin Hcov; [inversion Hin|].
  rewrite filter_cons. destruct (decide (covers s a r c k = true)) as [Ha | Ha].
  - simpl length. lia.
  - apply elem_of_cons in Hin as [-> | Hin]; [contradiction | auto].
Qed.

(** Index [x * (n + 1) + y] names the patch with corner at row [y], column [x]. *)
Lemma patch_index (n y x : Z) :
  0 <= y <= n -> (x * (n + 1) + y) mod (n + 1) = y /\ (x * (n + 1) + y) / (n + 1) = x.
Proof.
  intros Hy. split.
  - rewrite Z.add_comm, Z.mod_add by lia. apply Z.mod_small. lia.
  - rewrite Z.add_comm, Z.div_add by lia. rewrite Z.div_small by lia. lia.
Qed.

Section Grid.
(** A square frame of side [N], blocks of side [size] laid out every
  [overlap] pixels, with [N - size = m * overlap]. *)
Variables (N frames size overlap m : Z) (weighting : bool) (layout : icube).
Hypothesis overlap_range : 1 <= overlap <= size.
Hypothesis size_range : size <= N < 2 ^ 15.
Hypothesis margin : N - size = m * overlap.

#[local] Abbreviation n := (N - size).
#[local] Abbreviation engine := (Engine layout N N frames size overlap weighting).

Lemma m_nonneg : 0 <= m.
Proof. nia. Qed.

Lemma grid_sizes :
nxMbs engine = n /\ nyMbs engine = n /\ u32 (1 + n) = n + 1 /\ u32 (n + 1) = n + 1 /\
u32 ((n + 1) * n) = (n + 1) * n.
Proof.
unfold nxMbs, nyMbs; simpl. rewrite !u32_small by nia. repeat split; lia.
Qed.

Lemma first_patch_mem (a b : Z) :
0 <= a <= m -> 0 <= b <= m -> (a * overlap) * n + b * overlap ∈ joinPatches engine.
Proof.
intros Ha Hb. destruct grid_sizes as (Hx & Hy & H1 & _).
unfold joinPatches. apply elem_of_app. left.
unfold firstPatches. rewrite Hx, Hy, H1. simpl.
apply list_elem_of_bind. exists (a * overlap). split.
- apply list_elem_of_bind. exists (b * overlap). split; [left|].
  apply stride_loop_complete; [lia | lia | nia].
- apply stride_loop_complete; [lia | lia | nia].
Qed.

Lemma right_patch_mem (b : Z) :
0 <= b <= m -> n * (n + 1) + b * overlap ∈ joinPatches engine.
Proof.
intros Hb. destruct grid_sizes as (Hx & Hy & H1 & H2 & H3).
unfold joinPatches. apply elem_of_app. right. apply elem_of_app. left.
unfold patchesRightEdge. rewrite Hx, Hy, H1, H2, H3. simpl.
apply list_elem_of_fmap. exists (b * overlap). split; [lia|].
apply stride_loop_complete; [lia | lia | nia].
Qed.

Lemma bottom_patch_mem (a : Z) :
0 <= a <= m -> (a * overlap) * (n + 1) + n ∈ joinPatches engine.
Proof.
intros Ha. destruct grid_sizes as (Hx & Hy & H1 & H2 & _).
unfold joinPatches. apply elem_of_app. right. apply elem_of_app. right.
unfold patchesBottomEdge. rewrite Hx, Hy, H1, H2. simpl.
apply list_elem_of_fmap. exists (a * overlap). split; [lia|].
apply stride_loop_complete; [lia | lia | nia].
Qed.

(** Some decomposed patch has its corner [(y, x)] within [size] of any
  pixel [(r, c)]. *)
Lemma grid_reaches (r c : Z) :
0 <= r < N -> 0 <= c < N ->
exists y x, 0 <= y <= n /\ x * (n + 1) + y ∈ joinPatches engine /\
            y <= r <= y + size - 1 /\ x <= c <= x + size - 1.
Proof.
intros Hr Hc. pose proof m_nonneg as Hm.
assert (Hrd : r = overlap * (r / overlap) + r mod overlap) by (apply Z.div_mod; lia).
assert (Hrm : 0 <= r mod overlap < overlap) by (apply Z.mod_pos_bound; lia).
assert (Hcd : c = overlap * (c / overlap) + c mod overlap) by (apply Z.div_mod; lia).
assert (Hcm : 0 <= c mod overlap < overlap) by (apply Z.mod_pos_bound; lia).
set (d := r / overlap) in *. set (rr := r mod overlap) in *.
set (a := c / overlap) in *. set (cr := c mod overlap) in *.
assert (Hd0 : 0 <= d) by nia. assert (Ha0 : 0 <= a) by nia.
destruct (Z_le_gt_dec n c) as [Hcn | Hcn].
{ (* the right edge *)
  set (b := Z.min d m). exists (b * overlap), n.
  assert (Hb : 0 <= b <= m) by lia.
  split; [nia|]. split; [apply right_patch_mem; lia|].
  split; [|lia]. destruct (Z_le_gt_dec d m); [replace b with d by lia; nia|].
  replace b with m by lia. nia. }
assert (Ham : a <= m - 1) by nia.
destruct (Z_le_gt_dec n r) as [Hrn | Hrn].
{ (* the bottom edge *)
  exists n, (a * overlap). split; [lia|]. split; [apply bottom_patch_mem; lia|].
  split; [lia | nia]. }
assert (Hdm : d <= m - 1) by nia.
destruct (Z_le_gt_dec (a + d) m) as [Hsum | Hsum].
{ (* a patch of the strided grid that kept its column *)
  exists (d * overlap), (a * overlap). split; [nia|]. split.
  - replace (a * overlap * (n + 1) + d * overlap)
      with ((a * overlap) * n + (a + d) * overlap) by lia.
    apply first_patch_mem; lia.
  - split; nia. }
(* a patch of the strided grid shifted by the row stride *)
set (A := if cr =? overlap - 1 then a + 1 else a).
set (D := if rr =? 0 then d - 1 else d).
assert (HA : a <= A <= m /\ A * overlap - 1 <= c <= A * overlap - 1 + size - 1).
{ unfold A. destruct (cr =? overlap - 1) eqn:E.
  - apply Z.eqb_eq in E. split; [lia | nia].
  - apply Z.eqb_neq in E. split; [lia | nia]. }
assert (HD : m - a <= D <= m - 1 /\ D * overlap + 1 <= r <= D * overlap + 1 + size - 1).
{ unfold D. destruct (rr =? 0) eqn:E.
  - apply Z.eqb_eq in E. split; [lia | nia].
  - apply Z.eqb_neq in E. split; [lia | nia]. }
destruct HA as [HA1 HA2]. destruct HD as [HD1 HD2].
exists (D * overlap + 1), (A * overlap - 1). split; [nia|]. split.
- replace ((A * overlap - 1) * (n + 1) + (D * overlap + 1))
    with ((A * overlap) * n + (D - m + A) * overlap) by nia.
  apply first_patch_mem; lia.
- split; lia.
Qed.
End Grid.

(** C1 (as amended): on a square frame whose free margin [N - blockSize]
    is a multiple of [blockOverlap], with [1 <= blockOverlap <= blockSize],
    the decomposed patches, at the locations they have in the reference
    frame, cover every pixel: the weight accumulator is at least 1 at every
    pixel of the reference frame. *)
Theorem reference_frame_covered (svd_econ : rmat -> svd_triple) (u : rcube)
    (N frames size overlap kref : Z) (weighting : bool) (layout : icube) (r c : Z) :
  1 <= overlap <= size -> size <= N < 2 ^ 15 -> (N - size) mod overlap = 0 ->
  (forall a idx, layout a idx kref = ARPS.reference_patches N N size a idx kref) ->
  0 <= r < N -> 0 <= c < N ->
  1 <= weights (Engine layout N N frames size overlap weighting)
         (Decompose svd_econ (Engine layout N N frames size overlap weighting) u) r c kref.
Proof.
  intros Hov Hsize Hmod Hlayout Hr Hc.
  assert (Hmargin : N - size = (N - size) / overlap * overlap).
  { rewrite Z.mul_comm. apply Z.div_exact; [lia | exact Hmod]. }
  destruct (grid_reaches N frames size overlap ((N - size) / overlap) weighting layout
              Hov Hsize Hmargin r c Hr Hc) as (y & x & Hy & Hin & Hrow & Hcol).
  apply (weights_some _ _ (x * (N - size + 1) + y)).
  - rewrite Decompose_indices. now apply sort_unique_complete.
  - unfold covers, newY, newX. simpl. rewrite !Hlayout. unfold ARPS.reference_patches. simpl.
    rewrite (u32_small (N - size)) by lia. rewrite (u32_small (1 + (N - size))) by lia.
    replace (1 + (N - size)) with (N - size + 1) by lia.
    destruct (patch_index (N - size) y x Hy) as [-> ->].
    rewrite !andb_true_iff, !Z.leb_le. lia.
Qed.

Lemma reference_frame_covered_witness :
  1 <= weights (engine_example true)
         (Decompose svd_example (engine_example true) window_example) 2 2 0.
Proof.
  apply (reference_frame_covered svd_example window_example 3 1 2 1 0 true
           (ARPS.reference_patches 3 3 2) 2 2); try lia; reflexivity.
Defined.

(** C1 (counterexample): with [blockOverlap = 1 <= blockSize = 2], the
    search from frame 0 to frame 1 of a static scene moves all four
    patches to the corner (0, 0), ties going to the first candidate; in
    frame 1 no patch covers pixel (2, 2) and its weight is zero. *)
Lemma static_scene_uncovered :
  exists e,
    ARPS.ARPSMotionEstimation 25 0 0 1 0 static_estimator = Done e /\
    (forall it, it ∈ [0; 1; 2; 3] -> ARPS.patches e 0 it 1 = 0 /\ ARPS.patches e 1 it 1 = 0) /\
    actualPatches (Engine (ARPS.patches e) 3 3 2 2 1 true) = [0; 1; 2; 3] /\
    weights (Engine (ARPS.patches e) 3 3 2 2 1 true)
      (Decompose svd_example (Engine (ARPS.patches e) 3 3 2 2 1 true) window_example)
      2 2 1 = 0.
Proof.
  eexists. split; [vm_compute; reflexivity|]. split; [|split].
  - intros it Hit. repeat (apply elem_of_cons in Hit as [-> | Hit]; [split; reflexivity|]).
    inversion Hit.
  - reflexivity.
  - unfold weights. rewrite Decompose_indices. reflexivity.
Qed.

(** *** The index vectors of [Decompose] *)







(** *** Sorting and removing duplicates *)






Lemma patch_indices_bound (layout : icube) (N frames size overlap : Z)
    (weighting : bool) (idx : Z) :
  1 <= overlap -> 1 <= size <= N -> N < 2 ^ 15 ->
  idx ∈ actualPatches (Engine layout N N frames size overlap weighting) ->
  0 <= idx < (N - size + 1) * (N - size + 1).
Proof.
  intros Hov Hsize HN Hidx. set (s := Engine _ _ _ _ _ _ _) in *.
  apply sort_unique_elem in Hidx. unfold joinPatches in Hidx.
  set (n := N - size) in *.
  assert (Hnpos : 0 <= n < 2 ^ 15) by (unfold n; lia).
  assert (Hnx : nxMbs s = n) by (unfold nxMbs; simpl; fold n; rewrite u32_small; lia).
  assert (Hny : nyMbs s = n) by (unfold nyMbs; simpl; fold n; rewrite u32_small; lia).
  assert (Hn1 : u32 (1 + n) = n + 1) by (rewrite u32_small; lia).
  assert (Hn2 : u32 (n + 1) = n + 1) by (rewrite u32_small; lia).
  rewrite !elem_of_app in Hidx. destruct Hidx as [H | [H | H]].
  - unfold firstPatches in H. rewrite Hnx, Hny, Hn1 in H. simpl in H.
    apply list_elem_of_bind in H as (i & H & Hi).
    apply list_elem_of_bind in H as (j & H & Hj).
    apply list_elem_of_singleton in H. subst idx.
    apply stride_loop_elem in Hi as [Hi _]; [|lia].
    apply stride_loop_elem in Hj as [Hj _]; [|lia]. nia.
  - unfold patchesRightEdge in H. rewrite Hnx, Hny, Hn1, Hn2 in H. simpl in H.
    rewrite (u32_small ((n + 1) * n)) in H by nia.
    apply list_elem_of_fmap in H as (i & -> & Hi).
    apply stride_loop_elem in Hi as [Hi _]; [|lia]. nia.
  - unfold patchesBottomEdge in H. rewrite Hnx, Hny, Hn1, Hn2 in H. simpl in H.
    apply list_elem_of_fmap in H as (i & -> & Hi).
    apply stride_loop_elem in Hi as [Hi _]; [|lia]. nia.
Qed.

(** X18: on a square frame every index [Decompose] uses names a column
    of the coordinate cube the block matcher returns, which has
    [(N - blockSize + 1)^2] of them. *)
Theorem patch_indices_in_range (layout : icube) (N frames size overlap : Z)
    (weighting : bool) (idx : Z) :
  1 <= overlap -> 1 <= size <= N -> N < 2 ^ 15 ->
  idx ∈ actualPatches (Engine layout N N frames size overlap weighting) ->
  0 <= idx < (N - size + 1) * (N - size + 1).
Proof. apply patch_indices_bound. Qed.

Lemma patch_indices_in_range_witness : 0 <= 3 < (3 - 2 + 1) * (3 - 2 + 1).
Proof.
  apply (patch_indices_in_range (ARPS.reference_patches 3 3 2) 3 1 2 1 true 3); try lia.
  vm_compute. do 3 right. left.
Defined.

(** *** Blending *)




End SVTFacts.

(** ** The driver *)

Module DriverFacts.
Import Driver.

Lemma bind_Continue {A B : Type} (m : exit A) (f : A -> exit B) (b : B) :
  m ≫= f = Continue b -> exists a, m = Continue a /\ f a = Continue b.
Proof. destruct m as [a| |]; simpl; [eauto | discriminate..]. Qed.

Section MainFacts.
Variable stoi : string -> option Z.
Variable stod : string -> option Q.
Variable extract_double : string -> Q.
Variable indeterminate : Q.

#[local] Abbreviation extract := (extract_parameters stoi stod extract_double indeterminate).
#[local] Abbreviation set_up := (setup stoi stod extract_double indeterminate).

(** [std::stoi] on a string that holds an [int]. *)
Lemma std_stoi_inv (v : string) (n : Z) :
  std_stoi stoi v = Some n -> stoi v = Some n /\ - 2 ^ 31 <= n < 2 ^ 31.
Proof.
  unfold std_stoi. destruct (stoi v) as [m|]; [|discriminate].
  destruct (_ && _) eqn:E; [|discriminate]. intros [= <-].
  apply andb_true_iff in E as [E1 E2]. apply Z.leb_le in E1. apply Z.ltb_lt in E2. auto.
Qed.

Lemma int_option_range (programOptions : gmap string string) (key : string) (dflt n : Z) :
  - 2 ^ 31 <= dflt < 2 ^ 31 ->
  int_option stoi programOptions key dflt = Continue n -> - 2 ^ 31 <= n < 2 ^ 31.
Proof.
  intros Hd. unfold int_option. destruct (programOptions !! key) as [v|].
  - destruct (std_stoi stoi v) as [m|] eqn:E; simpl; [|discriminate].
    intros [= <-]. now apply std_stoi_inv in E.
  - intros [= <-]. exact Hd.
Qed.

Lemma int_at_range (programOptions : gmap string string) (key : string) (n : Z) :
  int_at stoi programOptions key = Continue n -> - 2 ^ 31 <= n < 2 ^ 31.
Proof.
  unfold int_at. destruct (programOptions !! key) as [v|]; simpl; [|discriminate].
  destruct (std_stoi stoi v) as [m|] eqn:E; simpl; [|discriminate].
  intros [= <-]. now apply std_stoi_inv in E.
Qed.

(** What an accepted parameter file determines. *)
Lemma extract_parameters_Continue (programOptions : gmap string string) (p : params) :
extract programOptions = Continue p ->
exists T0,
  int_option stoi programOptions "patch_size" 4 = Continue (Bs p) /\
  int_option stoi programOptions "trajectory_length" 15 = Continue T0 /\
  T p = (if i32 (Bs p * Bs p) <? T0 then i32 (i32 (Bs p * Bs p) - 1) else T0) /\
  int_option stoi programOptions "patch_overlap" 1 = Continue (Bo p) /\
  tol p = (1 # 10000000)%Q /\
  (pgureOpt p = true -> lambda p = indeterminate) /\
  (pgureOpt p = false ->
     exists v, programOptions !! "lambda" = Some v /\ stod v = Some (lambda p)).
Proof.
unfold extract_parameters. cbv zeta.
destruct (_ || _); [discriminate|]. intros H.
apply bind_Continue in H as (startimg & _ & H).
apply bind_Continue in H as (endimg & _ & H).
apply bind_Continue in H as (bs & Hbs & H).
apply bind_Continue in H as (T0 & HT & H).
apply bind_Continue in H as (al & _ & H).
apply bind_Continue in H as (m & _ & H).
apply bind_Continue in H as (sg & _ & H).
apply bind_Continue in H as (lam & Hlam & H).
apply bind_Continue in H as (mp & _ & H).
apply bind_Continue in H as (ms & _ & H).
apply bind_Continue in H as (bo & Hbo & H).
apply bind_Continue in H as (nm & _ & H).
apply bind_Continue in H as (hp & _ & H).
injection H as <-. simpl. exists T0. repeat split; auto.
- intros Hp. rewrite Hp in Hlam. simpl in Hlam. congruence.
- intros Hp. rewrite Hp in Hlam. simpl in Hlam.
  destruct (programOptions !! "lambda") as [v|]; [|discriminate].
  exists v. split; [reflexivity|]. destruct (stod v); simpl in Hlam; congruence.
Qed.

Lemma setup_Continue (argc : Z) (programOptions : gmap string string) (f : tiff) (p : params) :
set_up argc programOptions f = Continue p ->
argc = 2 /\ extract programOptions = Continue p /\ check_input p f = Continue tt.
Proof.
unfold setup. destruct (argc =? 2) eqn:E; [|discriminate]. apply Z.eqb_eq in E.
cbn [negb]. intros H. apply bind_Continue in H as (p0 & Hp & H).
apply bind_Continue in H as ([] & Hc & H). injection H as <-. auto.
Qed.

Variable Optimize : Z -> Q -> Q -> Q -> Q -> Q.
Variable window_mean : Z -> Q.
Variable window_max : Z -> Q.

#[local] Abbreviation window := (func Optimize window_mean window_max).

(** C4 (what the code does): with optimisation on, the first window is
  seeded with its mean intensity, but every later window is seeded with
  the closure's copy of the outer [lambda], which [main] never assigns in
  that mode, whatever the optimiser returned for the window before; with
  optimisation off, [Reconstruct] gets the configured [lambda]. *)
Theorem window_lambda (argc : Z) (programOptions : gmap string string) (f : tiff)
  (p : params) :
set_up argc programOptions f = Continue p ->
(pgureOpt p = true ->
   optimizer_seed (window p (lambda p) 0) = Some (window_mean 0) /\
   forall timeiter, timeiter <> 0 ->
     optimizer_seed (window p (lambda p) timeiter) = Some indeterminate) /\
(pgureOpt p = false ->
   exists v, programOptions !! "lambda" = Some v /\
     forall timeiter, Some (reconstruct_lambda (window p (lambda p) timeiter)) = stod v).
Proof.
intros H. apply setup_Continue in H as (_ & H & _).
apply extract_parameters_Continue in H as (T0 & _ & _ & _ & _ & _ & Hon & Hoff).
split.
- intros Hp. unfold func. rewrite Hp. split; [reflexivity|].
  intros timeiter Ht. apply Z.eqb_neq in Ht. rewrite Ht. simpl. now rewrite Hon.
- intros Hp. destruct (Hoff Hp) as (v & Hv & Hs). exists v. split; [exact Hv|].
  intros timeiter. unfold func. rewrite Hp. simpl. now rewrite Hs.
Qed.

(** C8 (what the code does): whatever the parameter file says about
  [tolerance], the value handed to [Optimize] is the built-in 1E-7. *)
Theorem tolerance_option_unused (argc : Z) (programOptions : gmap string string) (f : tiff)
  (p : params) :
set_up argc programOptions f = Continue p ->
tol p = (1 # 10000000)%Q /\
(pgureOpt p = true ->
 forall lambda_ timeiter,
   optimizer_tolerance (window p lambda_ timeiter) = Some (1 # 10000000)%Q).
Proof.
intros H. apply setup_Continue in H as (_ & H & _).
apply extract_parameters_Continue in H as (T0 & _ & _ & _ & _ & Htol & _).
split; [exact Htol|]. intros Hp lambda_ timeiter. unfold func. rewrite Hp. simpl.
now rewrite Htol.
Qed.
End MainFacts.

Lemma with_geometry_other (ps po tl : string) (programOptions : gmap string string) (key : string) :
  key <> "patch_size" -> key <> "patch_overlap" -> key <> "trajectory_length" ->
  with_geometry ps po tl programOptions !! key = programOptions !! key.
Proof.
  intros H1 H2 H3. unfold with_geometry. now rewrite !lookup_insert_ne by congruence.
Qed.

Lemma with_geometry_patch_size (ps po tl : string) (programOptions : gmap string string) :
  with_geometry ps po tl programOptions !! "patch_size" = Some ps.
Proof. unfold with_geometry. apply lookup_insert_eq. Qed.

Lemma with_geometry_patch_overlap (ps po tl : string) (programOptions : gmap string string) :
  with_geometry ps po tl programOptions !! "patch_overlap" = Some po.
Proof.
  unfold with_geometry. rewrite lookup_insert_ne by discriminate. apply lookup_insert_eq.
Qed.

Lemma with_geometry_trajectory_length (ps po tl : string) (programOptions : gmap string string) :
  with_geometry ps po tl programOptions !! "trajectory_length" = Some tl.
Proof.
  unfold with_geometry. rewrite !lookup_insert_ne by discriminate. apply lookup_insert_eq.
Qed.

Section Geometry.
Variable stoi : string -> option Z.
Variable stod : string -> option Q.
Variable extract_double : string -> Q.
Variable indeterminate : Q.

#[local] Abbreviation extract := (extract_parameters stoi stod extract_double indeterminate).
#[local] Abbreviation set_up := (setup stoi stod extract_double indeterminate).

Lemma extract_with_geometry (ps po tl : string) (vps vpo vtl : Z)
  (programOptions : gmap string string) (p : params) :
std_stoi stoi ps = Some vps -> std_stoi stoi po = Some vpo -> std_stoi stoi tl = Some vtl ->
extract programOptions = Continue p ->
extract (with_geometry ps po tl programOptions) =
Continue (Params (startimg p) (endimg p) (num_images p) vps
                 (if i32 (vps * vps) <? vtl then i32 (i32 (vps * vps) - 1) else vtl)
                 (alpha p) (mu p) (sigma p) (pgureOpt p) (lambda p)
                 (MotionP p) (MedianSize p) (tol p) vpo (NoiseMethod p)
                 (hotpixelthreshold p)).
Proof.
intros Hps Hpo Htl. unfold extract_parameters. cbv zeta.
unfold has, int_at, int_option, double_option.
rewrite with_geometry_patch_size, with_geometry_patch_overlap,
  with_geometry_trajectory_length, Hps, Hpo, Htl.
rewrite !(with_geometry_other _ _ _ _ "filename"), !(with_geometry_other _ _ _ _ "start_image"),
  !(with_geometry_other _ _ _ _ "end_image"), !(with_geometry_other _ _ _ _ "alpha"),
  !(with_geometry_other _ _ _ _ "mu"), !(with_geometry_other _ _ _ _ "sigma"),
  !(with_geometry_other _ _ _ _ "pgure"), !(with_geometry_other _ _ _ _ "lambda"),
  !(with_geometry_other _ _ _ _ "motion_neighbourhood"),
  !(with_geometry_other _ _ _ _ "median_filter"),
  !(with_geometry_other _ _ _ _ "noise_method"), !(with_geometry_other _ _ _ _ "hot_pixel")
  by discriminate.
destruct (_ || _); [discriminate|]. intros H.
apply bind_Continue in H as (startimg & -> & H).
apply bind_Continue in H as (endimg & -> & H).
apply bind_Continue in H as (bs & _ & H).
apply bind_Continue in H as (T0 & _ & H).
apply bind_Continue in H as (al & -> & H).
apply bind_Continue in H as (m & -> & H).
apply bind_Continue in H as (sg & -> & H).
apply bind_Continue in H as (lam & -> & H).
apply bind_Continue in H as (mp & -> & H).
apply bind_Continue in H as (ms & -> & H).
apply bind_Continue in H as (bo & _ & H).
apply bind_Continue in H as (nm & -> & H).
apply bind_Continue in H as (hp & -> & H).
injection H as <-. reflexivity.
Qed.

(** C5 (as amended): no value of the block size, the overlap or the
  trajectory length makes [main] refuse to process.  A parameter file
  that is accepted stays accepted when these three entries are replaced
  by any integers that [std::stoi] returns, that is, any [int]s; the
  block size and overlap are used as given, and a trajectory length above
  [patch_size^2], the square taken in 32-bit [int] arithmetic, is
  replaced by that square less one: by [patch_size^2 - 1] whenever
  [patch_size^2] fits an [int]. *)
Theorem geometry_never_refused (ps po tl : string) (vps vpo vtl : Z) (argc : Z)
  (programOptions : gmap string string) (f : tiff) (p : params) :
std_stoi stoi ps = Some vps -> std_stoi stoi po = Some vpo -> std_stoi stoi tl = Some vtl ->
set_up argc programOptions f = Continue p ->
exists p',
  set_up argc (with_geometry ps po tl programOptions) f = Continue p' /\
  Bs p' = vps /\ Bo p' = vpo /\
  T p' = (if i32 (vps * vps) <? vtl then i32 (i32 (vps * vps) - 1) else vtl) /\
  (vps * vps < 2 ^ 31 -> T p' = (if vps * vps <? vtl then vps * vps - 1 else vtl)).
Proof.
intros Hps Hpo Htl H. apply setup_Continue in H as (Hargc & Hext & Hchk).
pose proof (extract_with_geometry ps po tl vps vpo vtl programOptions p Hps Hpo Htl Hext) as Hg.
eexists. split.
- unfold setup. rewrite Hargc. cbn [Z.eqb Pos.eqb negb]. rewrite Hg. cbn [mbind exit_bind].
  unfold check_input, n_slices in *. simpl.
  destruct (negb (present f)); [discriminate|].
  destruct (negb (tiffWidth f =? tiffHeight f)); [discriminate|].
  destruct (_ && _); [discriminate|].
  destruct (_ <? _); [discriminate|]. reflexivity.
- cbn [Bs Bo T]. split; [reflexivity|]. split; [reflexivity|]. split; [reflexivity|].
  intros Hsq. apply std_stoi_inv in Htl as [_ Htl].
  assert (Hs : i32 (vps * vps) = vps * vps) by (apply i32_small; nia).
  rewrite Hs. destruct (vps * vps <? vtl) eqn:E; [|reflexivity].
  apply Z.ltb_lt in E. apply i32_small. nia.
Qed.
End Geometry.

Lemma geometry_never_refused_witness :
  exists p',
    setup stoi_decimal stod_decimal extract_double_example 7 2
          (with_geometry "3" "2" "5" options_example) tiff_example = Continue p' /\
    Bs p' = 3 /\ Bo p' = 2 /\
    T p' = (if i32 (3 * 3) <? 5 then i32 (i32 (3 * 3) - 1) else 5) /\
    (3 * 3 < 2 ^ 31 -> T p' = (if 3 * 3 <? 5 then 3 * 3 - 1 else 5)).
Proof.
  destruct (setup stoi_decimal stod_decimal extract_double_example 7 2
              options_example tiff_example) as [p| |] eqn:Hp; [|vm_compute in Hp; discriminate..].
  apply (geometry_never_refused stoi_decimal stod_decimal extract_double_example 7
           "3" "2" "5" 3 2 5 2 options_example tiff_example p); [reflexivity.. | exact Hp].
Defined.

(** A block size of 65536 squares to 0 in an [int]: with the default
    trajectory length the clamp applies and leaves [T = -1], and the file is
    accepted. *)
Example clamp_wraps_around :
  exists p,
    setup stoi_decimal stod_decimal extract_double_example 7 2
          (<["patch_size" := "65536"%string]> options_example) tiff_example = Continue p /\
    Bs p = 65536 /\ T p = -1.
Proof. eexists. split; [vm_compute; reflexivity | split; reflexivity]. Qed.

(** C5 (counterexample): a trajectory length of 15 with 2 x 2 blocks and an
    overlap of 0 is accepted, the trajectory length silently becoming 3;
    and 100 x 100 blocks are accepted for 64 x 64 frames. *)
Lemma invalid_geometry_accepted :
  (exists p,
     setup stoi_decimal stod_decimal extract_double_example 7 2
           (with_geometry "2" "0" "15" options_example) tiff_example = Continue p /\
     Bs p = 2 /\ Bo p = 0 /\ T p = 3) /\
  (exists p,
     setup stoi_decimal stod_decimal extract_double_example 7 2
           (with_geometry "100" "-1" "15" options_example) tiff_example = Continue p /\
     Bs p = 100 /\ Bo p = -1 /\ tiffWidth tiff_example = 64).
Proof.
  split; eexists; (split; [vm_compute; reflexivity | repeat split]).
Qed.

Lemma window_lambda_witness :
  exists p,
    setup stoi_decimal stod_decimal extract_double_example 7 2 options_example tiff_example
      = Continue p /\
    pgureOpt p = true /\
    optimizer_seed (func optimizer_example mean_example max_example p (lambda p) 0)
      = Some (1 # 2)%Q /\
    reconstruct_lambda (func optimizer_example mean_example max_example p (lambda p) 0)
      = ((1 # 2) + 1)%Q /\
    optimizer_seed (func optimizer_example mean_example max_example p (lambda p) 1)
      = Some 7%Q.
Proof.
  destruct (setup stoi_decimal stod_decimal extract_double_example 7 2
              options_example tiff_example) as [p| |] eqn:Hp; [|vm_compute in Hp; discriminate..].
  exists p. split; [reflexivity|].
  assert (Hon : pgureOpt p = true) by (vm_compute in Hp; injection Hp as <-; reflexivity).
  split; [exact Hon|].
  destruct (window_lambda stoi_decimal stod_decimal extract_double_example 7
              optimizer_example mean_example max_example
              2 options_example tiff_example p Hp) as [Hseed _].
  destruct (Hseed Hon) as [H0 H1].
  split; [exact H0|]. split; [unfold func; rewrite Hon; reflexivity|].
  apply H1. discriminate.
Defined.

Lemma tolerance_option_unused_witness :
  options_example !! "tolerance" = Some "0.001" /\
  extract_double_example "0.001" = (1 # 1000)%Q /\
  exists p,
    setup stoi_decimal stod_decimal extract_double_example 7 2 options_example tiff_example
      = Continue p /\
    tol p = (1 # 10000000)%Q /\
    optimizer_tolerance (func optimizer_example mean_example max_example p (lambda p) 0)
      = Some (1 # 10000000)%Q.
Proof.
  split; [reflexivity|]. split; [reflexivity|].
  destruct (setup stoi_decimal stod_decimal extract_double_example 7 2
              options_example tiff_example) as [p| |] eqn:Hp; [|vm_compute in Hp; discriminate..].
  exists p. split; [reflexivity|].
  assert (Hon : pgureOpt p = true) by (vm_compute in Hp; injection Hp as <-; reflexivity).
  destruct (tolerance_option_unused stoi_decimal stod_decimal extract_double_example 7
              optimizer_example mean_example max_example
              2 options_example tiff_example p Hp) as [Htol Hopt].
  split; [exact Htol | apply (Hopt Hon)].
Defined.

(** *** Maximum of the output sequence *)











(** *** File names *)

Lemma last_position_app (c : ascii) (s ext : string) :
  last_position c ext = None ->
  last_position c (String.append s (String c ext)) = Some (String.length s).
Proof.
  intros Hext. induction s as [|a s IH]; simpl.
  - rewrite Hext, Ascii.eqb_refl. reflexivity.
  - rewrite IH. reflexivity.
Qed.

Lemma substring_prefix (s t : string) :
  substring 0 (String.length s) (String.append s t) = s.
Proof.
  induction s as [|a s IH]; simpl.
  - destruct t; reflexivity.
  - now rewrite IH.
Qed.

Lemma substring_all (s : string) : substring 0 (String.length s) s = s.
Proof. induction s as [|a s IH]; simpl; [reflexivity | now rewrite IH]. Qed.

Lemma length_append (s t : string) :
  String.length (String.append s t) = (String.length s + String.length t)%nat.
Proof. induction s as [|a s IH]; simpl; [reflexivity | now rewrite IH]. Qed.

(** X20: the part of the file name after its last dot is dropped, so the
    input is always read from [stem.tif] and the result written to
    [stem-CLEANED.tif], whatever extension the parameter file gives; a
    name without a dot is taken whole. *)
Theorem file_names (stem ext : string) :
  last_position "." ext = None ->
  Z.of_nat (String.length stem + String.length ext) < 2 ^ 31 ->
  filestem (String.append stem (String "." ext)) = stem /\
  infilename (String.append stem (String "." ext)) = String.append stem ".tif" /\
  outfilename (String.append stem (String "." ext)) = String.append stem "-CLEANED.tif" /\
  filestem ext = ext.
Proof.
  intros Hext Hlen.
  assert (Hstem : filestem (String.append stem (String "." ext)) = stem).
  { unfold filestem, find_last_of. rewrite (last_position_app _ _ _ Hext).
    rewrite i32_small by lia. rewrite Z.mod_small by lia.
    unfold substr. rewrite length_append. rewrite Z.min_l by lia.
    rewrite Nat2Z.id. apply substring_prefix. }
  split; [exact Hstem|]. unfold infilename, outfilename. rewrite Hstem.
  split; [reflexivity|]. split; [reflexivity|].
  unfold filestem, find_last_of. rewrite Hext.
  change (i32 npos) with (-1). change (-1 mod 2 ^ 64) with (2 ^ 64 - 1).
  unfold substr. destruct (Z.min_spec (2 ^ 64 - 1) (Z.of_nat (String.length ext))) as [[H ->] | [H ->]].
  - exfalso. clear -H Hlen. lia.
  - rewrite Nat2Z.id. apply substring_all.
Qed.

Lemma file_names_witness :
  filestem (String.append "./run.1/seq" (String "." "tiff")) = "./run.1/seq"%string /\
  infilename (String.append "./run.1/seq" (String "." "tiff"))
    = String.append "./run.1/seq" ".tif" /\
  outfilename (String.append "./run.1/seq" (String "." "tiff"))
    = String.append "./run.1/seq" "-CLEANED.tif" /\
  filestem "tiff" = "tiff"%string.
Proof.
  apply (file_names "./run.1/seq" "tiff"); [reflexivity | vm_compute; reflexivity].
Defined.

(** *** Leaving the set-up *)

Lemma bind_Return {A B : Type} (m : exit A) (f : A -> exit B) (code : Z) :
  m ≫= f = Return code -> m = Return code \/ exists a, m = Continue a /\ f a = Return code.
Proof. destruct m as [a| |]; simpl; [eauto | intros [= ->]; now left | discriminate]. Qed.

Lemma throwing_not_Return {A : Type} (o : option A) (code : Z) : throwing o <> Return code.
Proof. destruct o; discriminate. Qed.

Lemma strToBool_false (v : string) : strToBool v = false <-> v = "0"%string.
Proof.
  unfold strToBool. rewrite negb_false_iff. apply String.eqb_eq.
Qed.

Section SetupFacts.
Variable stoi : string -> option Z.
Variable stod : string -> option Q.
Variable extract_double : string -> Q.
Variable indeterminate : Q.

#[local] Abbreviation extract := (extract_parameters stoi stod extract_double indeterminate).
#[local] Abbreviation set_up := (setup stoi stod extract_double indeterminate).

Lemma int_option_not_Return (o : gmap string string) (key : string) (dflt code : Z) :
  int_option stoi o key dflt <> Return code.
Proof. unfold int_option. destruct (o !! key); [apply throwing_not_Return | discriminate]. Qed.

Lemma double_option_not_Return (o : gmap string string) (key : string) (dflt : Q) (code : Z) :
  double_option stod o key dflt <> Return code.
Proof. unfold double_option. destruct (o !! key); [apply throwing_not_Return | discriminate]. Qed.

Lemma int_at_not_Return (o : gmap string string) (key : string) (code : Z) :
  int_at stoi o key <> Return code.
Proof.
  unfold int_at. destruct (o !! key); simpl; [apply throwing_not_Return | discriminate].
Qed.

(** Why the extraction of the parameters returns from [main]. *)
Lemma extract_parameters_Return (o : gmap string string) (code : Z) :
  extract o = Return code ->
  code = -1 /\
  (has o "filename" = false \/ has o "start_image" = false \/ has o "end_image" = false \/
   (o !! "pgure" = Some "0"%string /\ o !! "lambda" = None)).
Proof.
  unfold extract_parameters. cbv zeta.
  destruct (has o "filename") eqn:E1; [|intros [= <-]; auto].
  destruct (has o "start_image") eqn:E2; [|intros [= <-]; auto].
  destruct (has o "end_image") eqn:E3; [|intros [= <-]; auto].
  simpl. intros H.
  apply bind_Return in H as [H | (startimg & _ & H)]; [exfalso; eapply int_at_not_Return; eauto|].
  apply bind_Return in H as [H | (endimg & _ & H)]; [exfalso; eapply int_at_not_Return; eauto|].
  apply bind_Return in H as [H | (bs & _ & H)]; [exfalso; eapply int_option_not_Return; eauto|].
  apply bind_Return in H as [H | (T0 & _ & H)]; [exfalso; eapply int_option_not_Return; eauto|].
  apply bind_Return in H as [H | (al & _ & H)]; [exfalso; eapply double_option_not_Return; eauto|].
  apply bind_Return in H as [H | (m & _ & H)]; [exfalso; eapply double_option_not_Return; eauto|].
  apply bind_Return in H as [H | (sg & _ & H)]; [exfalso; eapply double_option_not_Return; eauto|].
  apply bind_Return in H as [H | (lam & _ & H)].
  - destruct (o !! "pgure") as [v|] eqn:Ev; simpl in H; [|discriminate].
    destruct (strToBool v) eqn:Eb; simpl in H; [discriminate|].
    apply strToBool_false in Eb. subst v.
    destruct (o !! "lambda") as [w|]; [exfalso; eapply throwing_not_Return; eauto|].
    injection H as <-. auto 10.
  - apply bind_Return in H as [H | (mp & _ & H)]; [exfalso; eapply int_option_not_Return; eauto|].
    apply bind_Return in H as [H | (ms & _ & H)]; [exfalso; eapply int_option_not_Return; eauto|].
    apply bind_Return in H as [H | (bo & _ & H)]; [exfalso; eapply int_option_not_Return; eauto|].
    apply bind_Return in H as [H | (nm & _ & H)]; [exfalso; eapply int_option_not_Return; eauto|].
    apply bind_Return in H as [H | (hp & _ & H)]; [exfalso; eapply int_option_not_Return; eauto|].
    discriminate.
Qed.

(** X21: [main] returns before processing only with code -1 and only for
    one of these reasons: it was not started with exactly one argument, a
    required entry is missing, optimisation is switched off without a
    [lambda], the file is missing, the frames are not square, the depth is
    neither 8 nor 16 bits, or the file holds fewer frames than the range
    asks for. *)
Theorem setup_refusals (argc : Z) (o : gmap string string) (f : tiff) (code : Z) :
  set_up argc o f = Return code ->
  code = -1 /\
  (argc <> 2 \/
   has o "filename" = false \/ has o "start_image" = false \/ has o "end_image" = false \/
   (o !! "pgure" = Some "0"%string /\ o !! "lambda" = None) \/
   exists p, extract o = Continue p /\
     (present f = false \/ tiffWidth f <> tiffHeight f \/
      (tiffDepth f <> 8 /\ tiffDepth f <> 16) \/ n_slices p f < num_images p)).
Proof.
  unfold setup. destruct (argc =? 2) eqn:Eargc; cbn [negb];
    [|apply Z.eqb_neq in Eargc; intros [= <-]; auto].
  intros H.
  apply bind_Return in H as [H | (p & Hp & H)].
  - apply extract_parameters_Return in H as [-> H]. split; [reflexivity|].
    destruct H as [? | [? | [? | ?]]]; auto 6.
  - apply bind_Return in H as [H | ([] & _ & H)]; [|discriminate].
    unfold check_input in H.
    assert (Hcode : code = -1).
    { destruct (negb (present f)); [congruence|].
      destruct (negb (tiffWidth f =? tiffHeight f)); [congruence|].
      destruct (_ && _); [congruence|].
      destruct (n_slices p f <? num_images p); [congruence | discriminate]. }
    split; [exact Hcode|]. do 5 right. exists p. split; [exact Hp|].
    destruct (present f) eqn:E1; simpl in H; [|auto].
    destruct (tiffWidth f =? tiffHeight f) eqn:E2; simpl in H;
      [|apply Z.eqb_neq in E2; auto].
    destruct (tiffDepth f =? 8) eqn:E3; simpl in H.
    + destruct (n_slices p f <? num_images p) eqn:E5; [|discriminate].
      apply Z.ltb_lt in E5. auto.
    + destruct (tiffDepth f =? 16) eqn:E4; simpl in H.
      * destruct (n_slices p f <? num_images p) eqn:E5; [|discriminate].
        apply Z.ltb_lt in E5. auto.
      * apply Z.eqb_neq in E3, E4. auto.
Qed.

(** What an accepted parameter file says about the frames and the switch. *)
Lemma extract_parameters_frames (o : gmap string string) (p : params) :
  extract o = Continue p ->
  num_images p = i32 (i32 (endimg p - startimg p) + 1) /\
  pgureOpt p = match o !! "pgure" with Some v => strToBool v | None => true end /\
  (exists z, hotpixelthreshold p = inject_Z z) /\
  - 2 ^ 31 <= startimg p < 2 ^ 31 /\ - 2 ^ 31 <= endimg p < 2 ^ 31.
Proof.
  unfold extract_parameters. cbv zeta.
  destruct (_ || _); [discriminate|]. intros H.
  apply bind_Continue in H as (startimg & Hs & H). apply int_at_range in Hs.
  apply bind_Continue in H as (endimg & He & H). apply int_at_range in He.
  apply bind_Continue in H as (bs & Hbs & H).
  apply bind_Continue in H as (T0 & HT & H).
  apply bind_Continue in H as (al & _ & H).
  apply bind_Continue in H as (m & _ & H).
  apply bind_Continue in H as (sg & _ & H).
  apply bind_Continue in H as (lam & Hlam & H).
  apply bind_Continue in H as (mp & _ & H).
  apply bind_Continue in H as (ms & _ & H).
  apply bind_Continue in H as (bo & Hbo & H).
  apply bind_Continue in H as (nm & _ & H).
  apply bind_Continue in H as (hp & _ & H).
  injection H as <-. simpl. split; [reflexivity|]. split; [reflexivity|]. eauto.
Qed.

(** When the frame count is positive and the range is not empty, the
    count is the length of the range: nothing wrapped. *)
Lemma num_images_plain (s e : Z) :
  - 2 ^ 31 <= s < 2 ^ 31 -> - 2 ^ 31 <= e < 2 ^ 31 ->
  s <= e -> 1 <= i32 (i32 (e - s) + 1) -> i32 (i32 (e - s) + 1) = e - s + 1.
Proof.
  intros Hs He Hle Hn.
  destruct (Z_lt_le_dec (e - s) (2 ^ 31 - 1)) as [Hlt | Hge].
  - rewrite (i32_small (e - s)) by lia. rewrite i32_small by lia. reflexivity.
  - exfalso. destruct (Z.eq_dec (e - s) (2 ^ 31 - 1)) as [E | E].
    + rewrite E in Hn. vm_compute in Hn. apply Hn. reflexivity.
    + assert (E1 : i32 (e - s) = e - s - 2 ^ 32).
      { unfold i32. replace (e - s + 2 ^ 31) with (e - s - 2 ^ 31 + 1 * 2 ^ 32) by lia.
        rewrite Z.mod_add by lia. rewrite Z.mod_small by lia. lia. }
      rewrite E1 in Hn. rewrite i32_small in Hn by lia. lia.
Qed.

(** X22: optimisation is switched off by the entry [pgure : 0] and by
    nothing else; any other value, [false] included, leaves it on, and
    then the [lambda] entry is not read at all. *)
Theorem pgure_switch (o : gmap string string) (p : params) :
  extract o = Continue p ->
  (pgureOpt p = false <-> o !! "pgure" = Some "0"%string) /\
  (pgureOpt p = true -> lambda p = indeterminate) /\
  (pgureOpt p = false -> exists v, o !! "lambda" = Some v /\ stod v = Some (lambda p)).
Proof.
  intros H. pose proof (extract_parameters_frames o p H) as (_ & Hp & _).
  apply extract_parameters_Continue in H as (T0 & _ & _ & _ & _ & _ & Hon & Hoff).
  split; [|auto]. rewrite Hp. destruct (o !! "pgure") as [v|].
  - rewrite strToBool_false. split; [intros ->; reflexivity | intros [= ->]; reflexivity].
  - split; discriminate.
Qed.
End SetupFacts.

Lemma pgure_switch_witness :
  exists p, extract_parameters stoi_decimal stod_decimal extract_double_example 7
              (<["pgure" := "false"%string]> (<["lambda" := "3"%string]> options_example))
            = Continue p /\
    (pgureOpt p = false <->
       (<["pgure" := "false"%string]> (<["lambda" := "3"%string]> options_example)) !! "pgure"
       = Some "0"%string) /\
    (pgureOpt p = true -> lambda p = 7%Q) /\
    (pgureOpt p = false ->
       exists v, (<["pgure" := "false"%string]> (<["lambda" := "3"%string]> options_example))
                   !! "lambda" = Some v /\ stod_decimal v = Some (lambda p)).
Proof.
  destruct (extract_parameters stoi_decimal stod_decimal extract_double_example 7
              (<["pgure" := "false"%string]> (<["lambda" := "3"%string]> options_example)))
    as [p| |] eqn:Hp; [|vm_compute in Hp; discriminate..].
  exists p. split; [reflexivity|].
  apply (pgure_switch stoi_decimal stod_decimal extract_double_example 7 _ p Hp).
Defined.

Lemma setup_refusals_witness :
  setup stoi_decimal stod_decimal extract_double_example 7 2
    (<["pgure" := "0"%string]> options_example) tiff_example = Return (-1) /\
  -1 = -1 /\
  (2 <> 2 \/
   has (<["pgure" := "0"%string]> options_example) "filename" = false \/
   has (<["pgure" := "0"%string]> options_example) "start_image" = false \/
   has (<["pgure" := "0"%string]> options_example) "end_image" = false \/
   ((<["pgure" := "0"%string]> options_example) !! "pgure" = Some "0"%string /\
    (<["pgure" := "0"%string]> options_example) !! "lambda" = None) \/
   exists p, extract_parameters stoi_decimal stod_decimal extract_double_example 7
               (<["pgure" := "0"%string]> options_example) = Continue p /\
     (present tiff_example = false \/ tiffWidth tiff_example <> tiffHeight tiff_example \/
      (tiffDepth tiff_example <> 8 /\ tiffDepth tiff_example <> 16) \/
      n_slices p tiff_example < num_images p)).
Proof.
  assert (H : setup stoi_decimal stod_decimal extract_double_example 7 2
                (<["pgure" := "0"%string]> options_example) tiff_example = Return (-1))
    by (vm_compute; reflexivity).
  split; [exact H|].
  apply (setup_refusals stoi_decimal stod_decimal extract_double_example 7 2 _ tiff_example
           (-1) H).
Defined.

(** *** The frames read from the file *)

Lemma count_interval (a b : Z) (n : nat) :
  Z.of_nat (length (filter (fun d => a <= d <= b) (seqZ 0 (Z.of_nat n)))) =
  Z.max 0 (Z.min b (Z.of_nat n - 1) - Z.max a 0 + 1).
Proof.
  induction n as [|n IH].
  - simpl. lia.
  - rewrite seqZ_S, filter_app, length_app, Nat2Z.inj_add, IH, Z.add_0_l.
    rewrite filter_cons, filter_nil.
    destruct (decide (a <= Z.of_nat n <= b)) as [H | H]; simpl length; lia.
Qed.

Lemma n_slices_count (p : params) (f : tiff) :
  0 <= directories f ->
  n_slices p f =
  Z.max 0 (Z.min (endimg p - 1) (directories f - 1) - Z.max (startimg p - 1) 0 + 1).
Proof.
  intros Hd. unfold n_slices. rewrite <- (Z2Nat.id (directories f)) at 1 by lia.
  rewrite count_interval. rewrite Z2Nat.id by lia. reflexivity.
Qed.

(** X23: when [main] goes on to process at least one frame, the frame
    range lies inside the file: [1 <= start_image], [end_image] is at most
    the number of directories, exactly [num_images] frames were read, they
    are square and 8 or 16 bits deep. *)
Theorem accepted_frame_range (stoi : string -> option Z) (stod : string -> option Q)
    (extract_double : string -> Q) (indeterminate : Q)
    (argc : Z) (o : gmap string string) (f : tiff) (p : params) :
  setup stoi stod extract_double indeterminate argc o f = Continue p ->
  0 <= directories f -> 1 <= num_images p ->
  1 <= startimg p /\ endimg p <= directories f /\
  n_slices p f = num_images p /\
  tiffWidth f = tiffHeight f /\ (tiffDepth f = 8 \/ tiffDepth f = 16).
Proof.
  intros H Hd Hn. apply setup_Continue in H as (_ & Hp & Hc).
  apply extract_parameters_frames in Hp as (Hnum & _ & _ & Hs & He).
  unfold check_input in Hc.
  destruct (present f); simpl in Hc; [|discriminate].
  destruct (tiffWidth f =? tiffHeight f) eqn:E2; simpl in Hc; [|discriminate].
  destruct (negb (tiffDepth f =? 8) && negb (tiffDepth f =? 16)) eqn:E3; [discriminate|].
  destruct (n_slices p f <? num_images p) eqn:E5; [discriminate|].
  apply Z.ltb_ge in E5. apply Z.eqb_eq in E2.
  assert (Hdepth : tiffDepth f = 8 \/ tiffDepth f = 16).
  { apply andb_false_iff in E3 as [E3 | E3]; apply negb_false_iff, Z.eqb_eq in E3; auto. }
  rewrite n_slices_count in * by lia.
  assert (Hle : startimg p <= endimg p) by lia.
  rewrite Hnum in Hn. pose proof (num_images_plain _ _ Hs He Hle Hn) as Hplain.
  rewrite <- Hnum in Hplain. lia.
Qed.

Lemma accepted_frame_range_witness :
  exists p,
    setup stoi_decimal stod_decimal extract_double_example 7 2 options_example tiff_example
      = Continue p /\
    1 <= startimg p /\ endimg p <= directories tiff_example /\
    n_slices p tiff_example = num_images p /\
    tiffWidth tiff_example = tiffHeight tiff_example /\
    (tiffDepth tiff_example = 8 \/ tiffDepth tiff_example = 16).
Proof.
  destruct (setup stoi_decimal stod_decimal extract_double_example 7 2 options_example
              tiff_example) as [p| |] eqn:Hp; [|vm_compute in Hp; discriminate..].
  exists p. split; [reflexivity|].
  apply (accepted_frame_range stoi_decimal stod_decimal extract_double_example 7
           2 options_example tiff_example p Hp); [simpl; lia|].
  vm_compute in Hp. injection Hp as <-. simpl. lia.
Defined.

(** *** The frames of a window *)

Lemma framewindow_odd (p : params) :
  0 < T p -> Z.odd (T p) = true -> T p = 2 * framewindow p + 1.
Proof.
  intros Hpos Hodd. unfold framewindow. rewrite Z.quot_div_nonneg by lia.
  pose proof (Z.div_mod (T p) 2 ltac:(lia)) as Hdm.
  rewrite Zmod_odd, Hodd in Hdm. lia.
Qed.

Lemma framewindow_even (p : params) :
  0 < T p -> Z.even (T p) = true -> T p = 2 * framewindow p.
Proof.
  intros Hpos Heven. unfold framewindow. rewrite Z.quot_div_nonneg by lia.
  pose proof (Z.div_mod (T p) 2 ltac:(lia)) as Hdm.
  rewrite Zmod_even, Heven in Hdm. lia.
Qed.

(** X24: for an odd trajectory length the window of an output frame lies
    inside the sequence and holds [T] frames, the slice copied back is the
    one that holds the output frame itself, and it is the reference frame
    of the motion estimation. *)
Theorem put_back_reference_frame (p : params) (timeiter : Z) :
  0 < T p -> Z.odd (T p) = true ->
  T p <= num_images p < 2 ^ 31 -> 0 <= timeiter < num_images p ->
  0 <= (window_slices p timeiter).1 /\
  (window_slices p timeiter).2 = (window_slices p timeiter).1 + T p - 1 /\
  (window_slices p timeiter).2 <= num_images p - 1 /\
  (window_slices p timeiter).1 + put_back p timeiter = timeiter /\
  put_back p timeiter
    = (ARPS.schedule timeiter (framewindow p) (num_images p) (T p)).1.
Proof.
  intros Hpos Hodd Hn Ht. pose proof (framewindow_odd p Hpos Hodd) as HT.
  assert (Hws : ARPS.window_sized timeiter (framewindow p) (num_images p) (T p))
    by (unfold ARPS.window_sized; lia).
  destruct (ARPSFacts.schedule_plain _ _ _ _ Hws) as (ref & _ & -> & ->). simpl.
  unfold window_slices, put_back.
  destruct (timeiter <? framewindow p) eqn:E1; simpl.
  - apply Z.ltb_lt in E1. lia.
  - apply Z.ltb_ge in E1.
    destruct (num_images p - framewindow p <=? timeiter) eqn:E2; simpl.
    + apply Z.leb_le in E2. lia.
    + apply Z.leb_gt in E2. lia.
Qed.

Lemma put_back_reference_frame_witness :
  0 <= (window_slices params_example 20).1 /\
  (window_slices params_example 20).2 = (window_slices params_example 20).1 + T params_example - 1 /\
  (window_slices params_example 20).2 <= num_images params_example - 1 /\
  (window_slices params_example 20).1 + put_back params_example 20 = 20 /\
  put_back params_example 20
    = (ARPS.schedule 20 (framewindow params_example) (num_images params_example)
         (T params_example)).1.
Proof.
  apply (put_back_reference_frame params_example 20); [reflexivity | reflexivity | simpl; lia | simpl; lia].
Defined.

(** X25: for an even trajectory length the window has [T + 1] frames, and
    for the last [T / 2] output frames the slice copied back is the one
    before the output frame: frame [timeiter] of the result is the
    denoised frame [timeiter - 1]. *)
Theorem even_trajectory_shifts_last_frames (p : params) (timeiter : Z) :
  0 < T p -> Z.even (T p) = true ->
  T p + 1 <= num_images p ->
  num_images p - framewindow p <= timeiter < num_images p ->
  (window_slices p timeiter).2 = (window_slices p timeiter).1 + T p /\
  0 <= put_back p timeiter <= T p /\
  (window_slices p timeiter).1 + put_back p timeiter = timeiter - 1.
Proof.
  intros Hpos Heven Hn Ht. pose proof (framewindow_even p Hpos Heven) as HT.
  unfold window_slices, put_back.
  destruct (timeiter <? framewindow p) eqn:E1; simpl.
  - apply Z.ltb_lt in E1. lia.
  - destruct (num_images p - framewindow p <=? timeiter) eqn:E2; simpl.
    + lia.
    + apply Z.leb_gt in E2. lia.
Qed.

Lemma even_trajectory_shifts_last_frames_witness :
  (window_slices clamped_params 24).2 = (window_slices clamped_params 24).1 + T clamped_params /\
  0 <= put_back clamped_params 24 <= T clamped_params /\
  (window_slices clamped_params 24).1 + put_back clamped_params 24 = 24 - 1.
Proof.
  apply (even_trajectory_shifts_last_frames clamped_params 24);
    [reflexivity | reflexivity | simpl; lia | vm_compute; split; [discriminate | reflexivity]].
Defined.

(** X26: when the trajectory length asked for exceeds the number of
    pixels of a patch of odd side, the clamp leaves an even trajectory
    length. *)
Theorem odd_patch_clamps_to_even (stoi : string -> option Z) (stod : string -> option Q)
    (extract_double : string -> Q) (indeterminate : Q)
    (o : gmap string string) (p : params) (T0 : Z) :
  extract_parameters stoi stod extract_double indeterminate o = Continue p ->
  int_option stoi o "trajectory_length" 15 = Continue T0 ->
  Bs p * Bs p < T0 -> Z.odd (Bs p) = true ->
  T p = Bs p * Bs p - 1 /\ Z.even (T p) = true.
Proof.
  intros H HT0 Hlt Hodd.
  apply extract_parameters_Continue in H as (T1 & _ & HT1 & HT & _).
  rewrite HT0 in HT1. injection HT1 as <-.
  apply int_option_range in HT0; [|lia].
  assert (Hsq : i32 (Bs p * Bs p) = Bs p * Bs p) by (apply i32_small; nia).
  rewrite Hsq in HT. rewrite i32_small in HT by nia.
  apply Z.ltb_lt in Hlt. rewrite Hlt in HT. split; [exact HT|].
  rewrite HT. rewrite Z.even_sub, Z.even_mul. rewrite <- !Z.negb_odd, Hodd. reflexivity.
Qed.

Lemma odd_patch_clamps_to_even_witness :
  exists p,
    extract_parameters stoi_decimal stod_decimal extract_double_example 7
      (<["patch_size" := "3"%string]> options_example) = Continue p /\
    T p = Bs p * Bs p - 1 /\ Z.even (T p) = true.
Proof.
  destruct (extract_parameters stoi_decimal stod_decimal extract_double_example 7
              (<["patch_size" := "3"%string]> options_example)) as [p| |] eqn:Hp;
    [|vm_compute in Hp; discriminate..].
  exists p. split; [reflexivity|].
  apply (odd_patch_clamps_to_even stoi_decimal stod_decimal extract_double_example 7
           (<["patch_size" := "3"%string]> options_example) p 15 Hp);
    [reflexivity | |]; vm_compute in Hp; injection Hp as <-; reflexivity.
Defined.

(** X27: a parameter file with nothing but the three required entries
    (the two frame numbers being [int]s) runs with 4 x 4 patches one pixel
    apart, 15 frames per window, all three noise parameters to be
    estimated, optimisation on, a search half-width of 7, a median filter
    of 5, a tolerance of 1E-7, noise method 4 and a hot-pixel threshold of
    10. *)
Theorem default_parameters (stoi : string -> option Z) (stod : string -> option Q)
    (extract_double : string -> Q) (indeterminate : Q)
    (o : gmap string string) (name first last : string) (startimg endimg : Z) :
  o !! "filename" = Some name ->
  o !! "start_image" = Some first -> std_stoi stoi first = Some startimg ->
  o !! "end_image" = Some last -> std_stoi stoi last = Some endimg ->
  (forall key, key ∈ ["patch_size"; "trajectory_length"; "alpha"; "mu"; "sigma"; "pgure";
                      "motion_neighbourhood"; "median_filter"; "tolerance"; "patch_overlap";
                      "noise_method"; "hot_pixel"]%string -> o !! key = None) ->
  extract_parameters stoi stod extract_double indeterminate o =
  Continue (Params startimg endimg (i32 (i32 (endimg - startimg) + 1)) 4 15 (-1) (-1) (-1)
                   true indeterminate 7 5 (1 # 10000000) 1 4 10).
Proof.
  intros Hn Hf Hs Hl He Hnone.
  assert (Hk : forall n key, ["patch_size"; "trajectory_length"; "alpha"; "mu"; "sigma"; "pgure";
                      "motion_neighbourhood"; "median_filter"; "tolerance"; "patch_overlap";
                      "noise_method"; "hot_pixel"]%string !! n = Some key -> o !! key = None).
  { intros n key Hkey. apply Hnone. eapply list_elem_of_lookup_2; eauto. }
  unfold extract_parameters, has, int_at, int_option, double_option.
  rewrite Hn, Hf, Hl. rewrite !bool_decide_true by eauto. simpl.
  rewrite Hs, He. simpl.
  rewrite (Hk 0%nat "patch_size"%string eq_refl), (Hk 1%nat "trajectory_length"%string eq_refl).
  simpl.
  rewrite (Hk 2%nat "alpha"%string eq_refl), (Hk 3%nat "mu"%string eq_refl),
    (Hk 4%nat "sigma"%string eq_refl), (Hk 5%nat "pgure"%string eq_refl). simpl.
  rewrite (Hk 6%nat "motion_neighbourhood"%string eq_refl),
    (Hk 7%nat "median_filter"%string eq_refl), (Hk 9%nat "patch_overlap"%string eq_refl),
    (Hk 10%nat "noise_method"%string eq_refl), (Hk 11%nat "hot_pixel"%string eq_refl).
  simpl. reflexivity.
Qed.

Lemma default_parameters_witness :
  extract_parameters stoi_decimal stod_decimal extract_double_example 7
    (delete "tolerance"%string options_example) =
  Continue (Params 1 25 (i32 (i32 (25 - 1) + 1)) 4 15 (-1) (-1) (-1) true 7 7 5
                   (1 # 10000000) 1 4 10).
Proof.
  apply (default_parameters stoi_decimal stod_decimal extract_double_example 7
           (delete "tolerance"%string options_example) "seq.tif" "1" "25" 1 25);
    try reflexivity.
  intros key Hkey. repeat (apply elem_of_cons in Hkey as [-> | Hkey]; [reflexivity|]).
  inversion Hkey.
Defined.

End DriverFacts.

(** ** From the block matcher to the SVT engine *)

Module PipelineFacts.
Import ARPS ARPSFacts.

(** X29: when [Estimate] has run on a square, normalised window, the
    blocks [Decompose] then extracts at the locations it returned lie
    inside the frame, for every decomposed patch and every frame of the
    window: no sample is read outside the window. *)
Theorem Decompose_reads_inside_frame (timeIter timeWindow nImages T : Z) (fuel : nat)
    (A : cube) (N size motionWindow overlap : Z) (weighting : bool)
    (e' : MotionEstimator) :
  window_sized timeIter timeWindow nImages T ->
  1 <= size <= N -> N < 2 ^ 15 -> 0 <= motionWindow < 2 ^ 30 -> 1 <= overlap ->
  normalised A ->
  Estimate timeIter timeWindow nImages T fuel (fresh A N N size motionWindow) = Done e' ->
  let s := SVT.Engine (patches e') N N T size overlap weighting in
  forall idx k p, idx ∈ SVT.actualPatches s -> 0 <= k < T -> 0 <= p < size * size ->
    0 <= SVT.newY s idx k + p mod size < N /\ 0 <= SVT.newX s idx k + p / size < N.
Proof.
  intros Hwin Hb HN Hw Hov Hn Hrun s idx k p Hidx Hk Hp.
  unfold Estimate in Hrun.
  pose proof (Estimate_located timeIter timeWindow nImages T fuel A N size motionWindow e'
                Hwin Hb HN Hw Hn Hrun k Hk) as Hloc.
  apply SVTFacts.patch_indices_bound in Hidx; try lia.
  set (e := fresh A N N size motionWindow) in *.
  assert (Hws : well_sized e) by (unfold well_sized, e; simpl; lia).
  destruct (vecSize_small e Hws) as (Hx & Hy & Hv & _). simpl in Hx, Hy.
  destruct (Hloc idx) as (_ & _ & H0 & H1 & H2 & H3).
  { rewrite Hv, Hx, Hy. simpl. lia. }
  simpl in H1, H3. unfold SVT.newY, SVT.newX. simpl.
  pose proof (Z.mod_pos_bound p size ltac:(lia)).
  assert (0 <= p / size < size).
  { split; [apply Z.div_pos; lia | apply Z.div_lt_upper_bound; lia]. }
  lia.
Qed.

Lemma Decompose_reads_inside_frame_witness :
  exists e',
    Estimate 1 1 3 3 25 (fresh binary_frames 4 4 2 2) = Done e' /\
    let s := SVT.Engine (patches e') 4 4 3 2 1 true in
    forall idx k p, idx ∈ SVT.actualPatches s -> 0 <= k < 3 -> 0 <= p < 2 * 2 ->
      0 <= SVT.newY s idx k + p mod 2 < 4 /\ 0 <= SVT.newX s idx k + p / 2 < 4.
Proof.
  destruct (Estimate 1 1 3 3 25 (fresh binary_frames 4 4 2 2)) as [e'| |] eqn:Hrun.
  - exists e'. split; [reflexivity|].
    apply (Decompose_reads_inside_frame 1 1 3 3 25 binary_frames 4 2 2 1 true e');
      [unfold window_sized; lia | lia | lia | lia | lia | exact binary_frames_normalised
      | exact Hrun].
  - vm_compute in Hrun. discriminate.
  - vm_compute in Hrun. discriminate.
Defined.
End PipelineFacts.
